(** * jina-mcp-scraper: document indexing core

    A shallow embedding of the chunker ([SimpleTextSplitter]), the storage
    engine ([DatabaseManager] over [schema.sql]), the stand-in embedding
    provider ([MockEmbeddingsService]) and the indexing and query service
    ([DocumentIndexingService]), followed by the properties of the
    specification that were checked against them.

    Conventions.
    - A JavaScript string is the list of its UTF-16 code units, so [length]
      is [.length] and [charCodeAt] is list lookup.
    - A JavaScript number that comes out of floating-point arithmetic is a
      binary64 [float]; loop counters, row ids and 32-bit integer arithmetic
      are [Z] with the wrap-around written out.
    - A call that can throw returns [Exc A]; [inl msg] is the thrown error.
    - Stateful operations on the database pass the database value along. *)

From Stdlib Require Import ZArith Floats Lia DecimalString Sorted.
From stdpp Require Import base list gmap strings.

Local Open Scope Z_scope.

(** ** JavaScript strings *)

Abbreviation jsstring := (list N).

(** The code units of an ASCII literal. *)
Definition js (s : string) : jsstring :=
  map Ascii.N_of_ascii (String.list_ascii_of_string s).

Abbreviation Exc A := (sum jsstring A).

(** ECMAScript LineTerminator. *)
Definition is_line_terminator (c : N) : bool :=
  ((c =? 10) || (c =? 13) || (c =? 0x2028) || (c =? 0x2029))%N.

(** ECMAScript WhiteSpace and LineTerminator: what [\s] matches and what
    [String.prototype.trim] strips. *)
Definition is_space (c : N) : bool :=
  (((9 <=? c) && (c <=? 13)) || (c =? 32) || (c =? 160) || (c =? 0x1680)
   || ((0x2000 <=? c) && (c <=? 0x200A))
   || (c =? 0x2028) || (c =? 0x2029) || (c =? 0x202F) || (c =? 0x205F)
   || (c =? 0x3000) || (c =? 0xFEFF))%N.

Fixpoint drop_spaces (s : jsstring) : jsstring :=
  match s with
  | c :: s' => if is_space c then drop_spaces s' else s
  | [] => []
  end.

(** [s.trim()] *)
Definition trim (s : jsstring) : jsstring :=
  rev (drop_spaces (rev (drop_spaces s))).

(** A string is truthy when it is not empty. *)
Definition nonempty (s : jsstring) : bool :=
  match s with [] => false | _ => true end.

Fixpoint jseqb (s t : jsstring) : bool :=
  match s, t with
  | [], [] => true
  | c :: s', d :: t' => (c =? d)%N && jseqb s' t'
  | _, _ => false
  end.

Fixpoint starts_with (p s : jsstring) : bool :=
  match p, s with
  | [], _ => true
  | c :: p', d :: s' => (c =? d)%N && starts_with p' s'
  | _ :: _, [] => false
  end.

(** [s.includes(p)] *)
Fixpoint includes (p s : jsstring) : bool :=
  starts_with p s ||
  match s with
  | [] => false
  | _ :: s' => includes p s'
  end.

(** [s.split(sep)] for a string separator.  [skip] counts the code units of
    a separator occurrence that are still to be passed over, [cur] is the
    piece being collected. *)
Fixpoint split_go (sep : jsstring) (skip : nat) (cur s : jsstring)
  : list jsstring :=
  match s with
  | [] => [cur]
  | c :: s' =>
      match skip with
      | S k => split_go sep k cur s'
      | O =>
          if starts_with sep s
          then cur :: split_go sep (length sep - 1) [] s'
          else split_go sep 0 (cur ++ [c]) s'
      end
  end.

Definition split (sep s : jsstring) : list jsstring :=
  match sep with
  | [] => map (λ c, [c]) s
  | _ => split_go sep 0 [] s
  end.

(** [parts.join(sep)] *)
Fixpoint join (sep : jsstring) (parts : list jsstring) : jsstring :=
  match parts with
  | [] => []
  | [x] => x
  | x :: rest => x ++ sep ++ join sep rest
  end.

(** [arr.slice(0, e)]: a negative [e] counts from the end. *)
Definition slice0 {A} (arr : list A) (e : Z) : list A :=
  let len := Z.of_nat (length arr) in
  let k := if e <? 0 then Z.max (len + e) 0 else Z.min e len in
  take (Z.to_nat k) arr.

(** Decimal rendering of a number inside a template literal. *)
Definition decimal (n : nat) : jsstring :=
  js (NilEmpty.string_of_uint (Nat.to_uint n)).

(** ** Chunker: SimpleTextSplitter *)

Module Splitter.

Definition path_sep : jsstring := js " > ".

(** [updateHeadingPath(currentPath, newHeading, level)] *)
Definition updateHeadingPath (currentPath newHeading : jsstring) (level : Z)
  : jsstring :=
  if negb (nonempty currentPath) then newHeading
  else
    let pathParts := split path_sep currentPath in
    let newPath := slice0 pathParts (level - 1) in
    join path_sep (newPath ++ [newHeading]).

(** The reading of a heading path string as a sequence of headings: the
    empty string is the path of depth 0, any other string has one component
    per separator-delimited piece. *)
Definition path_components (p : jsstring) : list jsstring :=
  match p with
  | [] => []
  | _ => split path_sep p
  end.

(** The update as the specification words it: keep the first [L-1]
    components, then append the heading. *)
Definition truncate_then_append (path : list jsstring) (L : nat)
    (heading : jsstring) : list jsstring :=
  take (L - 1)%nat path ++ [heading].


(** *** Regular expressions of the splitter *)

(** The whitespace run after the first newline of a candidate match of
    [/\n\s*\n/]: [pos] units have been read, [best] is the number of units
    up to and including the last newline seen.  The greedy [\s*] followed by
    a newline ends at the last newline of the maximal whitespace run. *)
Fixpoint last_newline_in_spaces (s : jsstring) (pos : nat) (best : option nat)
  : option nat :=
  match s with
  | c :: s' =>
      if is_space c
      then last_newline_in_spaces s' (S pos)
             (if (c =? 10)%N then Some (S pos) else best)
      else best
  | [] => best
  end.

(** A match of [/\n\s*\n/] at the head of [s]: [Some k] when it consumes
    [1 + k] code units. *)
Definition blank_line_match (s : jsstring) : option nat :=
  match s with
  | c :: rest =>
      if (c =? 10)%N then last_newline_in_spaces rest 0 None else None
  | [] => None
  end.

(** [text.split(/\n\s*\n/)] *)
Fixpoint para_go (skip : nat) (cur s : jsstring) : list jsstring :=
  match s with
  | [] => [cur]
  | c :: s' =>
      match skip with
      | S k => para_go k cur s'
      | O =>
          match blank_line_match s with
          | Some k => cur :: para_go k [] s'
          | None => para_go 0 (cur ++ [c]) s'
          end
      end
  end.

Definition split_paragraphs (text : jsstring) : list jsstring :=
  para_go 0 [] text.

(** [content.split(/\s+/)]: every maximal whitespace run is one separator. *)
Fixpoint ws_split_go (in_run : bool) (cur s : jsstring) : list jsstring :=
  match s with
  | [] => [cur]
  | c :: s' =>
      if is_space c
      then if in_run then ws_split_go true cur s'
           else cur :: ws_split_go true [] s'
      else ws_split_go false (cur ++ [c]) s'
  end.

Definition split_whitespace (s : jsstring) : list jsstring :=
  ws_split_go false [] s.

Fixpoint count_hashes (s : jsstring) : nat :=
  match s with
  | c :: s' => if (c =? 35)%N then S (count_hashes s') else O
  | [] => O
  end.

Fixpoint span_spaces (s : jsstring) : jsstring * jsstring :=
  match s with
  | c :: s' =>
      if is_space c
      then let '(ws, r) := span_spaces s' in (c :: ws, r)
      else ([], s)
  | [] => ([], [])
  end.

Definition no_line_terminator (s : jsstring) : bool :=
  forallb (λ c, negb (is_line_terminator c)) s.

(** [s.match(/^(#{1,6})\s+(.+)$/)]: the length of group 1 and group 2.
    The hashes are the whole leading run (a seventh hash is not whitespace,
    and giving hashes back leaves a hash where [\s] is wanted).  [\s+] takes
    the whole whitespace run [ws]; group 2 is the rest [r] and must reach
    the end of the input without a line terminator.  When [r] is empty,
    [\s+] gives back its last unit to group 2. *)
Definition heading_match (s : jsstring) : option (nat * jsstring) :=
  let k := count_hashes s in
  if ((1 <=? k) && (k <=? 6))%nat then
    let '(ws, r) := span_spaces (drop k s) in
    match ws, r with
    | [], _ => None
    | _ :: _, _ :: _ => if no_line_terminator r then Some (k, r) else None
    | _ :: _, [] =>
        match rev ws with
        | c :: _ :: _ => if is_line_terminator c then None else Some (k, [c])
        | _ => None
        end
    end
  else None.

(** [content.match(/^#{1,6}\s+/)] as a truth value. *)
Definition heading_prefix (s : jsstring) : bool :=
  let k := count_hashes s in
  ((1 <=? k) && (k <=? 6))%nat &&
  match drop k s with
  | c :: _ => is_space c
  | [] => false
  end.

(** *** Chunks *)

Inductive ChunkType := code | table | heading | text.

(** [detectChunkType(content)] *)
Definition detectChunkType (content : jsstring) : ChunkType :=
  if includes (js "```") content then code
  else if includes (js "|") content && includes (js "---") content then table
  else if heading_prefix content then heading
  else text.

(** The metadata object handed to [splitText]; an absent property is
    [None]. *)
Record Metadata := {
  md_source : option jsstring;
  md_library : option jsstring;
  md_version : option jsstring
}.

Definition no_metadata : Metadata :=
  {| md_source := None; md_library := None; md_version := None |}.

Record Chunk := {
  content : jsstring;
  headingPath : jsstring;
  index : Z;
  type : ChunkType;
  tokenCount : nat;
  metadata : Metadata
}.

(** [createChunk(content, headingPath, index, metadata)] *)
Definition createChunk (content headingPath : jsstring) (index : Z)
    (metadata : Metadata) : Chunk :=
  {| content := content;
     headingPath := headingPath;
     index := index;
     type := detectChunkType content;
     tokenCount := length (split_whitespace content);
     metadata := metadata |}.

Record SimpleTextSplitter := {
  maxChunkSize : Z;
  chunkOverlap : Z;
  separators : list jsstring
}.

(** [x || d] for an optional number: absent and [0] both give [d]. *)
Definition num_or (x : option Z) (d : Z) : Z :=
  match x with
  | Some v => if v =? 0 then d else v
  | None => d
  end.

(** [new SimpleTextSplitter(options)] *)
Definition new_splitter (maxChunkSize chunkOverlap : option Z)
  : SimpleTextSplitter :=
  {| maxChunkSize := num_or maxChunkSize 1000;
     chunkOverlap := num_or chunkOverlap 200;
     separators := [js (String (Ascii.ascii_of_nat 10) (String (Ascii.ascii_of_nat 10) EmptyString));
                    js (String (Ascii.ascii_of_nat 10) EmptyString);
                    js ". "; js " "] |}.

(** The local variables of [splitText]. *)
Record SplitState := {
  chunks : list Chunk;
  currentHeading : jsstring;
  currentChunk : jsstring;
  chunkIndex : Z
}.

Definition blank_line : jsstring := [10%N; 10%N].

(** [chunks.push(this.createChunk(currentChunk.trim(), currentHeading,
    chunkIndex++, metadata))] followed by the given new [currentChunk]. *)
Definition flush (md : Metadata) (st : SplitState) (next : jsstring)
  : SplitState :=
  {| chunks := chunks st ++
               [createChunk (trim (currentChunk st)) (currentHeading st)
                  (chunkIndex st) md];
     currentHeading := currentHeading st;
     currentChunk := next;
     chunkIndex := chunkIndex st + 1 |}.

(** One iteration of the loop over the paragraphs. *)
Definition split_step (this : SimpleTextSplitter) (md : Metadata)
    (st : SplitState) (paragraph : jsstring) : SplitState :=
  let trimmed := trim paragraph in
  if negb (nonempty trimmed) then st
  else
    match heading_match trimmed with
    | Some (level, headingText) =>
        let st1 :=
          if nonempty (trim (currentChunk st)) then flush md st [] else st in
        {| chunks := chunks st1;
           currentHeading :=
             updateHeadingPath (currentHeading st1) headingText
               (Z.of_nat level);
           currentChunk := trimmed ++ blank_line;
           chunkIndex := chunkIndex st1 |}
    | None =>
        let proposedChunk := currentChunk st ++ trimmed ++ blank_line in
        if (Z.of_nat (length proposedChunk) >? maxChunkSize this)
           && nonempty (trim (currentChunk st))
        then flush md st (trimmed ++ blank_line)
        else
          {| chunks := chunks st;
             currentHeading := currentHeading st;
             currentChunk := proposedChunk;
             chunkIndex := chunkIndex st |}
    end.

Definition split_init : SplitState :=
  {| chunks := []; currentHeading := []; currentChunk := []; chunkIndex := 0 |}.

(** [splitText(text, metadata)] *)
Definition splitText (this : SimpleTextSplitter) (text : jsstring)
    (md : Metadata) : list Chunk :=
  let paragraphs := split_paragraphs text in
  let st := fold_left (split_step this md) paragraphs split_init in
  let st := if nonempty (trim (currentChunk st)) then flush md st (currentChunk st)
            else st in
  if (length (chunks st) =? 0)%nat && nonempty (trim text)
  then chunks st ++ [createChunk (trim text) (currentHeading st) 0 md]
  else chunks st.

End Splitter.

(** ** Embedding provider: MockEmbeddingsService *)

Module Mock.

Definition dimension : nat := 384.

(** ECMAScript ToInt32. *)
Definition toInt32 (z : Z) : Z := (z + 2 ^ 31) mod 2 ^ 32 - 2 ^ 31.

(** The double with the value of an integer of magnitude below [2^63]. *)
Definition float_of_Z (z : Z) : float :=
  if z <? 0 then PrimFloat.opp (PrimFloat.of_uint63 (Uint63.of_Z (- z)))
  else PrimFloat.of_uint63 (Uint63.of_Z z).

(** The body of the loop of [simpleHash]: [hash << 5] and [hash & hash]
    are 32-bit operations. *)
Definition hash_step (hash : Z) (char : N) : Z :=
  let hash := (toInt32 (Z.shiftl (toInt32 hash) 5) - hash) + Z.of_N char in
  Z.land (toInt32 hash) (toInt32 hash).

(** The integer [hash] of [simpleHash] when its loop ends. *)
Definition rolling_hash (str : jsstring) : Z := fold_left hash_step str 0.

(** [simpleHash(str)] *)
Definition simpleHash (str : jsstring) : float :=
  PrimFloat.div (float_of_Z (Z.abs (rolling_hash str))) 2147483647%float.

(** [Math.sqrt(v.reduce((sum, val) => sum + val * val, 0))]: the magnitude
    of a vector as the normalisation computes it; the similarity computes
    the same sum in its loop. *)
Definition magnitude (v : list float) : float :=
  PrimFloat.sqrt
    (fold_left (λ sum val, PrimFloat.add sum (PrimFloat.mul val val))
       v 0%float).

(** The array [embedding] of [generateMockEmbedding] when its loop ends;
    [Msin] is [Math.sin]. *)
Definition raw_embedding (Msin : float → float) (hash : float) : list float :=
  map (λ i : nat,
         PrimFloat.mul
           (Msin (PrimFloat.mul hash (float_of_Z (Z.of_nat i + 1))))
           0.5%float)
      (seq 0 dimension).

(** [generateMockEmbedding(text)] *)
Definition generateMockEmbedding (Msin : float → float) (text : jsstring)
  : list float :=
  let hash := simpleHash text in
  let embedding := raw_embedding Msin hash in
  let magnitude := magnitude embedding in
  map (λ val, PrimFloat.div val magnitude) embedding.

(** [generateEmbeddings(texts)]; the mock never throws. *)
Definition generateEmbeddings (Msin : float → float) (texts : list jsstring)
  : Exc (list (list float)) :=
  inr (map (generateMockEmbedding Msin) texts).

(** [arr[i]] of an array of numbers, as an operand of arithmetic: a missing
    element is [undefined], which arithmetic turns into NaN. *)
Definition at_index (arr : list float) (i : nat) : float :=
  nth i arr PrimFloat.nan.

(** The three accumulators of the loop of [calculateSimilarity]. *)
Record SimAcc := {
  dotProduct : float;
  magnitude1 : float;
  magnitude2 : float
}.

Definition sim_step (embedding1 embedding2 : list float) (acc : SimAcc)
    (i : nat) : SimAcc :=
  let x := at_index embedding1 i in
  let y := at_index embedding2 i in
  {| dotProduct := PrimFloat.add (dotProduct acc) (PrimFloat.mul x y);
     magnitude1 := PrimFloat.add (magnitude1 acc) (PrimFloat.mul x x);
     magnitude2 := PrimFloat.add (magnitude2 acc) (PrimFloat.mul y y) |}.

(** [calculateSimilarity(embedding1, embedding2)] *)
Definition calculateSimilarity (embedding1 embedding2 : list float)
  : Exc float :=
  if negb (length embedding1 =? length embedding2)%nat
  then inl (js "Embeddings must have the same dimension")
  else
    let acc :=
      fold_left (sim_step embedding1 embedding2)
        (seq 0 (length embedding1))
        {| dotProduct := 0; magnitude1 := 0; magnitude2 := 0 |} in
    let magnitude1 := PrimFloat.sqrt (magnitude1 acc) in
    let magnitude2 := PrimFloat.sqrt (magnitude2 acc) in
    if PrimFloat.eqb magnitude1 0 || PrimFloat.eqb magnitude2 0
    then inr 0%float
    else inr (PrimFloat.div (dotProduct acc)
                (PrimFloat.mul magnitude1 magnitude2)).

End Mock.

(** ** Storage engine: DatabaseManager over schema.sql *)

Module Db.

(** A row of [documents]. [title] and [library] are NOT NULL. *)
Record DocumentRow := {
  d_id : Z;
  d_title : jsstring;
  d_library : jsstring;
  d_version : jsstring;
  d_file_path : option jsstring;
  d_indexed_at : N
}.

(** A row of [chunks]. [content] is NOT NULL; [document_id] references
    [documents(id)] with ON DELETE CASCADE. *)
Record ChunkRow := {
  c_id : Z;
  c_document_id : Z;
  c_content : jsstring;
  c_chunk_index : Z;
  c_heading_path : jsstring
}.

(** A row of the FTS5 table [chunks_fts]: a table of its own, with no
    foreign key and no trigger.  Its third column is never written. *)
Record FtsRow := {
  f_rowid : Z;
  f_content : jsstring;
  f_heading_path : jsstring
}.

(** A row of [embeddings]: [chunk_id] references [chunks(id)] with ON DELETE
    CASCADE and carries a plain (non-unique) index.  The stored text is the
    JSON of the vector; the row keeps the vector. *)
Record EmbeddingRow := {
  e_id : Z;
  e_chunk_id : Z;
  e_embedding : list float
}.

(** The database: the four tables in rowid order and the AUTOINCREMENT
    counters of [sqlite_sequence] (the largest rowid ever handed out).
    Connections of better-sqlite3 enforce foreign keys, so the two ON DELETE
    CASCADE clauses act and an insert with a dangling reference fails. *)
Record Database := {
  documents : list DocumentRow;
  chunks : list ChunkRow;
  chunks_fts : list FtsRow;
  embeddings : list EmbeddingRow;
  seq_documents : Z;
  seq_chunks : Z;
  seq_embeddings : Z
}.

(** The state after [initialize()] on a fresh file. *)
Definition empty : Database :=
  {| documents := []; chunks := []; chunks_fts := []; embeddings := [];
     seq_documents := 0; seq_chunks := 0; seq_embeddings := 0 |}.

(** The [document] argument of [insertDocument]; a property that is absent,
    [undefined] or [null] is [None]. *)
Record Document := {
  title : option jsstring;
  library : option jsstring;
  version : option jsstring;
  filePath : option jsstring
}.

(** What [insertDocument] reads of an element of [chunks]. *)
Record ChunkArg := {
  content : option jsstring;
  headingPath : option jsstring
}.

Definition of_chunk (c : Splitter.Chunk) : ChunkArg :=
  {| content := Some (Splitter.content c);
     headingPath := Some (Splitter.headingPath c) |}.

(** [x || d] for an optional string. *)
Definition str_or (x : option jsstring) (d : jsstring) : jsstring :=
  match x with
  | Some s => if nonempty s then s else d
  | None => d
  end.

(** [x || null] for an optional string. *)
Definition str_or_null (x : option jsstring) : option jsstring :=
  match x with
  | Some s => if nonempty s then Some s else None
  | None => None
  end.

(** [INSERT INTO documents (title, library, version, file_path)], run in
    autocommit mode at time [now]. *)
Definition insert_documents (now : N) (db : Database)
    (title library : option jsstring) (version : jsstring)
    (file_path : option jsstring) : Exc (Database * Z) :=
  match title, library with
  | None, _ => inl (js "NOT NULL constraint failed: documents.title")
  | Some _, None => inl (js "NOT NULL constraint failed: documents.library")
  | Some t, Some l =>
      let id := seq_documents db + 1 in
      inr ({| documents := documents db ++
                [{| d_id := id; d_title := t; d_library := l;
                    d_version := version; d_file_path := file_path;
                    d_indexed_at := now |}];
              chunks := chunks db;
              chunks_fts := chunks_fts db;
              embeddings := embeddings db;
              seq_documents := id;
              seq_chunks := seq_chunks db;
              seq_embeddings := seq_embeddings db |}, id)
  end.

(** [INSERT INTO chunks (document_id, content, chunk_index, heading_path)] *)
Definition insert_chunks (db : Database) (document_id : Z)
    (content : option jsstring) (chunk_index : Z) (heading_path : jsstring)
  : Exc (Database * Z) :=
  match content with
  | None => inl (js "NOT NULL constraint failed: chunks.content")
  | Some text =>
      if existsb (λ d, d_id d =? document_id) (documents db) then
        let id := seq_chunks db + 1 in
        inr ({| documents := documents db;
                chunks := chunks db ++
                  [{| c_id := id; c_document_id := document_id;
                      c_content := text; c_chunk_index := chunk_index;
                      c_heading_path := heading_path |}];
                chunks_fts := chunks_fts db;
                embeddings := embeddings db;
                seq_documents := seq_documents db;
                seq_chunks := id;
                seq_embeddings := seq_embeddings db |}, id)
      else inl (js "FOREIGN KEY constraint failed")
  end.

(** [INSERT INTO chunks_fts (rowid, content, heading_path)] *)
Definition insert_chunks_fts (db : Database) (rowid : Z)
    (content heading_path : jsstring) : Exc Database :=
  if existsb (λ f, f_rowid f =? rowid) (chunks_fts db)
  then inl (js "constraint failed")
  else
    inr {| documents := documents db;
           chunks := chunks db;
           chunks_fts := chunks_fts db ++
             [{| f_rowid := rowid; f_content := content;
                 f_heading_path := heading_path |}];
           embeddings := embeddings db;
           seq_documents := seq_documents db;
           seq_chunks := seq_chunks db;
           seq_embeddings := seq_embeddings db |}.

(** The [for] loop of [insertDocument] from index [i] on.  Every statement
    commits on its own: a statement that throws leaves the rows written by
    the statements before it.  (The FTS insert is only reached with a
    content that the chunks insert accepted, hence a string.) *)
Fixpoint insert_chunk_loop (db : Database) (documentId : Z)
    (chunks : list ChunkArg) (i : Z) (chunkIds : list Z)
  : Database * Exc (list Z) :=
  match chunks with
  | [] => (db, inr chunkIds)
  | chunk :: rest =>
      match insert_chunks db documentId (content chunk) i
              (str_or (headingPath chunk) []) with
      | inl e => (db, inl e)
      | inr (db1, chunkId) =>
          match insert_chunks_fts db1 chunkId (default [] (content chunk))
                  (str_or (headingPath chunk) []) with
          | inl e => (db1, inl e)
          | inr db2 =>
              insert_chunk_loop db2 documentId rest (i + 1)
                (chunkIds ++ [chunkId])
          end
      end
  end.

(** [insertDocument(document, chunks)]: the database afterwards, and the
    returned [{ documentId, chunkIds }] or the error thrown. *)
Definition insertDocument (now : N) (db : Database) (document : Document)
    (chunks : list ChunkArg) : Database * Exc (Z * list Z) :=
  match insert_documents now db (title document) (library document)
          (str_or (version document) (js "latest"))
          (str_or_null (filePath document)) with
  | inl e => (db, inl e)
  | inr (db1, documentId) =>
      match insert_chunk_loop db1 documentId chunks 0 [] with
      | (db2, inl e) => (db2, inl e)
      | (db2, inr chunkIds) => (db2, inr (documentId, chunkIds))
      end
  end.

(** [INSERT OR REPLACE INTO embeddings (chunk_id, embedding)]: no column
    of the statement is a key, so nothing is ever replaced.  An [undefined]
    embedding has no JSON text and cannot be bound. *)
Definition insert_embeddings (db : Database) (chunkId : Z)
    (embedding : option (list float)) : Exc Database :=
  match embedding with
  | None => inl (js "NOT NULL constraint failed: embeddings.embedding")
  | Some v =>
      if existsb (λ c, c_id c =? chunkId) (chunks db) then
        let id := seq_embeddings db + 1 in
        inr {| documents := documents db;
               chunks := chunks db;
               chunks_fts := chunks_fts db;
               embeddings := embeddings db ++
                 [{| e_id := id; e_chunk_id := chunkId; e_embedding := v |}];
               seq_documents := seq_documents db;
               seq_chunks := seq_chunks db;
               seq_embeddings := id |}
      else inl (js "FOREIGN KEY constraint failed")
  end.

(** The body of the transaction function [insertMany]. *)
Fixpoint insert_many (db : Database)
    (embeddings : list (Z * option (list float))) : Exc Database :=
  match embeddings with
  | [] => inr db
  | (chunkId, embedding) :: rest =>
      match insert_embeddings db chunkId embedding with
      | inl e => inl e
      | inr db1 => insert_many db1 rest
      end
  end.

(** [insertEmbeddings(chunkEmbeddings)]: [db.transaction] rolls the whole
    batch back when the function throws, and throws again. *)
Definition insertEmbeddings (db : Database)
    (chunkEmbeddings : list (Z * option (list float)))
  : Database * Exc unit :=
  match insert_many db chunkEmbeddings with
  | inl e => (db, inl e)
  | inr db1 => (db1, inr ())
  end.

(** *** Full-text search *)

(** The FTS5 engine of SQLite, as far as [searchChunks] uses it: whether a
    MATCH query parses, whether it matches an index entry (by its two
    indexed columns), and the bm25 [rank] of an entry within the index. *)
Record Fts5 := {
  fts_query_ok : jsstring → bool;
  fts_match : jsstring → jsstring → jsstring → bool;
  fts_rank : list FtsRow → jsstring → FtsRow → float
}.

(** A row of the SELECT of [searchChunks]. *)
Record SearchRow := {
  r_chunk_id : Z;
  r_content : jsstring;
  r_heading_path : jsstring;
  r_title : jsstring;
  r_library : jsstring;
  r_version : jsstring;
  r_file_path : option jsstring;
  r_rank : float
}.

(** [chunks_fts fts JOIN chunks c ON fts.rowid = c.id JOIN documents d ON
    c.document_id = d.id], for one entry of the index. *)
Definition join_row (db : Database) (rank : float) (f : FtsRow)
  : list SearchRow :=
  c ← filter (λ c, c_id c = f_rowid f) (chunks db);
  d ← filter (λ d, d_id d = c_document_id c) (documents db);
  [{| r_chunk_id := c_id c;
      r_content := c_content c;
      r_heading_path := c_heading_path c;
      r_title := d_title d;
      r_library := d_library d;
      r_version := d_version d;
      r_file_path := d_file_path d;
      r_rank := rank |}].

(** ORDER BY, ascending and stable, on a numeric key. *)
Fixpoint insert_by {A} (key : A → float) (x : A) (l : list A) : list A :=
  match l with
  | [] => [x]
  | y :: l' =>
      if PrimFloat.leb (key x) (key y) then x :: l
      else y :: insert_by key x l'
  end.

Definition order_by {A} (key : A → float) (l : list A) : list A :=
  fold_right (insert_by key) [] l.

(** [LIMIT n]: a negative [n] is no limit. *)
Definition sql_limit {A} (n : Z) (l : list A) : list A :=
  if n <? 0 then l else take (Z.to_nat n) l.

(** [searchChunks(query, limit)] *)
Definition searchChunks (E : Fts5) (db : Database) (query : jsstring)
    (limit : Z) : Exc (list SearchRow) :=
  if fts_query_ok E query then
    let hits :=
      filter (λ f, fts_match E query (f_content f) (f_heading_path f) = true)
        (chunks_fts db) in
    let rows :=
      f ← hits; join_row db (fts_rank E (chunks_fts db) query f) f in
    inr (sql_limit limit (order_by r_rank rows))
  else inl (js "fts5: syntax error").

(** *** Listing and deleting *)

Definition same (a b : jsstring) : bool := jseqb a b.

(** The WHERE clause [getDocuments] and [deleteLibrary] build: a condition
    is added only for a truthy argument. *)
Definition where_library (library version : option jsstring)
    (d : DocumentRow) : bool :=
  match str_or_null library with
  | Some l => same (d_library d) l
  | None => true
  end &&
  match str_or_null version with
  | Some v => same (d_version d) v
  | None => true
  end.

(** ORDER BY d.indexed_at DESC, stable. *)
Fixpoint insert_newest (x : DocumentRow * Z) (l : list (DocumentRow * Z))
  : list (DocumentRow * Z) :=
  match l with
  | [] => [x]
  | y :: l' =>
      if (d_indexed_at (fst y) <=? d_indexed_at (fst x))%N then x :: l
      else y :: insert_newest x l'
  end.

(** [getDocuments(library, version)]: every selected document with its
    [chunk_count]. *)
Definition getDocuments (db : Database) (library version : option jsstring)
  : list (DocumentRow * Z) :=
  let selected := filter (λ d, where_library library version d = true)
                    (documents db) in
  let counted :=
    map (λ d, (d, Z.of_nat (length (filter (λ c, c_document_id c = d_id d)
                                      (chunks db)))))
        selected in
  fold_right insert_newest [] counted.

(** [deleteLibrary(library, version)]: DELETE FROM documents with its two
    foreign-key cascades, and [changes], the number of document rows the
    statement itself deleted.  [library] is always part of the WHERE
    clause. *)
Definition delete_where (library : jsstring) (version : option jsstring)
    (d : DocumentRow) : bool :=
  same (d_library d) library &&
  match str_or_null version with
  | Some v => same (d_version d) v
  | None => true
  end.

Definition deleteLibrary (db : Database) (library : jsstring)
    (version : option jsstring) : Database * Z :=
  let deleted := filter (λ d, delete_where library version d = true)
                   (documents db) in
  let kept_documents := filter (λ d, delete_where library version d = false)
                          (documents db) in
  let orphan (c : ChunkRow) :=
    existsb (λ d, d_id d =? c_document_id c) deleted in
  let dropped_chunks := filter (λ c, orphan c = true) (chunks db) in
  let kept_chunks := filter (λ c, orphan c = false) (chunks db) in
  let kept_embeddings :=
    filter (λ e, existsb (λ c, c_id c =? e_chunk_id e) dropped_chunks = false)
      (embeddings db) in
  ({| documents := kept_documents;
      chunks := kept_chunks;
      chunks_fts := chunks_fts db;
      embeddings := kept_embeddings;
      seq_documents := seq_documents db;
      seq_chunks := seq_chunks db;
      seq_embeddings := seq_embeddings db |},
   Z.of_nat (length deleted)).

(** *** States and invariants *)

(** The states the operations of the manager produce from a fresh
    database, whether or not the operation threw. *)
Inductive reachable : Database → Prop :=
| reach_empty : reachable empty
| reach_insertDocument now db document chunks :
    reachable db → reachable (fst (insertDocument now db document chunks))
| reach_insertEmbeddings db chunkEmbeddings :
    reachable db → reachable (fst (insertEmbeddings db chunkEmbeddings))
| reach_deleteLibrary db library version :
    reachable db → reachable (fst (deleteLibrary db library version)).

(** What AUTOINCREMENT and the foreign key of [chunks] maintain: no row
    carries a document id above the counter. *)
Definition well_formed (db : Database) : Prop :=
  Forall (λ d, d_id d ≤ seq_documents db) (documents db) ∧
  Forall (λ c, c_document_id c ≤ seq_documents db) (chunks db).

(** What AUTOINCREMENT maintains for the index: no entry carries a rowid
    above the counter of [chunks], so the id of a new chunk is free. *)
Definition index_fresh (db : Database) : Prop :=
  Forall (λ f, f_rowid f ≤ seq_chunks db) (chunks_fts db).

(** The chunks of library [lib] whose index entry matches [query]. *)
Definition matches_in_library (E : Fts5) (db : Database)
    (query lib : jsstring) (c : ChunkRow) : bool :=
  existsb (λ f, (f_rowid f =? c_id c) &&
                fts_match E query (f_content f) (f_heading_path f))
    (chunks_fts db) &&
  existsb (λ d, (d_id d =? c_document_id c) && same (d_library d) lib)
    (documents db).

Definition matching_chunks (E : Fts5) (db : Database) (query lib : jsstring)
  : list ChunkRow :=
  List.filter (matches_in_library E db query lib) (chunks db).

End Db.

(** ** Indexing and query service: DocumentIndexingService *)

Module Indexing.

(** JavaScript values that occur in rows and results. *)
Inductive jsval :=
| JUndefined
| JNull
| JNum (x : float)
| JStr (s : jsstring).

(** The two values of which no property can be read: [error.message]
    throws a TypeError when [error] is one of them. *)
Inductive Nullish :=
| NUndefined
| NNull.

(** A value thrown by the embeddings service (the reason its promise is
    rejected with), as the [catch] handlers see it: they read its property
    [message] and nothing else.  A thrown string or number has no such
    property and reads as [JUndefined]. *)
Inductive Thrown :=
| ThrownNullish (n : Nullish)
| ThrownValue (message : jsval).

(** The embeddings service handed to the constructor: for a batch of texts
    it returns an array of vectors or throws.  (A service that returns
    something that is not an array makes the caller's indexing into it
    throw a TypeError, an object with a message, or read [undefined]: it
    behaves as one that throws such an error, or returns no vector.) *)
Record EmbeddingsService := {
  generateEmbeddings : list jsstring → Thrown + list (list float)
}.

(** The mock: were it to throw, it would throw an [Error] with a message. *)
Definition mock_service (Msin : float → float) : EmbeddingsService :=
  {| generateEmbeddings := λ texts,
       match Mock.generateEmbeddings Msin texts with
       | inl e => inl (ThrownValue (JStr e))
       | inr vs => inr vs
       end |}.

(** What [indexFile] uses of [fs] and [path], the clock the database
    reads for [indexed_at] when the [n]-th document of a call is inserted,
    and the message of the TypeError that the engine raises when the
    property [message] of [undefined] or [null] is read. *)
Record Host := {
  existsSync : jsstring → bool;
  readFileSync : jsstring → Exc jsstring;
  basename : jsstring → jsstring;
  basename_without_ext : jsstring → jsstring;
  clock : nat → N;
  cannot_read_message : Nullish → jsstring
}.

(** The [options] of [indexFile]; an absent property is [None]. *)
Record IndexOptions := {
  library : option jsstring;
  version : option jsstring;
  title : option jsstring;
  separator : option jsstring
}.

(** An element of the local array [documents] of [indexFile]. *)
Record LogicalDocument := {
  ld_title : jsstring;
  ld_content : jsstring;
  ld_url : jsstring;
  ld_library : option jsstring;
  ld_version : jsstring
}.

(** The object [insertDocument] sees: it has no [filePath] property. *)
Definition as_document (doc : LogicalDocument) : Db.Document :=
  {| Db.title := Some (ld_title doc);
     Db.library := ld_library doc;
     Db.version := Some (ld_version doc);
     Db.filePath := None |}.

(** The loop over [parts] from index [i] on. *)
Fixpoint parts_documents (H : Host) (filePath : jsstring)
    (options : IndexOptions) (version : jsstring) (parts : list jsstring)
    (i : nat) : list LogicalDocument :=
  match parts with
  | [] => []
  | p :: rest =>
      let part := trim p in
      let here :=
        if nonempty part then
          [{| ld_title :=
                match Db.str_or_null (title options) with
                | Some t => t ++ js " - Part " ++ decimal (i + 1)
                | None => basename H filePath ++ js " - Part " ++ decimal (i + 1)
                end;
              ld_content := part;
              ld_url := js "file://" ++ filePath ++ js "#part-" ++ decimal (i + 1);
              ld_library := library options;
              ld_version := version |}]
        else [] in
      here ++ parts_documents H filePath options version rest (i + 1)
  end.

(** The array [documents] built from the file content. *)
Definition logical_documents (H : Host) (filePath : jsstring)
    (options : IndexOptions) (content : jsstring) : list LogicalDocument :=
  let version := default (js "latest") (version options) in
  match Db.str_or_null (separator options) with
  | Some sep =>
      parts_documents H filePath options version (split sep content) 0
  | None =>
      [{| ld_title :=
            match Db.str_or_null (title options) with
            | Some t => t
            | None => basename_without_ext H filePath
            end;
          ld_content := content;
          ld_url := js "file://" ++ filePath;
          ld_library := library options;
          ld_version := version |}]
  end.

(** The splitter of the constructor. *)
Definition splitter : Splitter.SimpleTextSplitter :=
  Splitter.new_splitter (Some 1000) (Some 200).

Definition chunks_of (filePath : jsstring) (options : IndexOptions)
    (doc : LogicalDocument) : list Splitter.Chunk :=
  Splitter.splitText splitter (ld_content doc)
    {| Splitter.md_source := Some filePath;
       Splitter.md_library := library options;
       Splitter.md_version :=
         Some (default (js "latest") (version options)) |}.

(** [chunkIds.map((chunkId, index) => ({ chunkId, embedding:
    embeddings[index] }))] *)
Definition pair_embeddings (chunkIds : list Z) (embeddings : list (list float))
  : list (Z * option (list float)) :=
  imap (λ index chunkId, (chunkId, embeddings !! index)) chunkIds.

(** The inner [try] / [catch] of [indexFile]: the database afterwards, and
    what leaves the block.  The handler logs [error.message] and drops the
    error, so the block ends normally ([None]) whatever [insertEmbeddings]
    throws (an [Error]) and whatever the service throws, except
    [undefined] and [null]: reading [message] of these throws a TypeError
    in the handler, which leaves the block ([Some]). *)
Definition embed_chunks (svc : EmbeddingsService) (db : Db.Database)
    (chunks : list Splitter.Chunk) (chunkIds : list Z)
  : Db.Database * option Nullish :=
  let chunkTexts := map Splitter.content chunks in
  match generateEmbeddings svc chunkTexts with
  | inl (ThrownNullish n) => (db, Some n)
  | inl (ThrownValue _) => (db, None)
  | inr embeddings =>
      (fst (Db.insertEmbeddings db (pair_embeddings chunkIds embeddings)),
       None)
  end.

(** An element of [results]. *)
Record IndexedDocument := {
  documentId : Z;
  indexed_title : jsstring;
  indexed_chunks : nat
}.

Inductive IndexOutcome :=
| IndexSuccess (documentsIndexed : nat) (totalChunks : nat)
    (results : list IndexedDocument)
| IndexFailure (error : jsstring).

(** The loop [for (const doc of documents)], from the [n]-th document on:
    the database afterwards, and [totalChunks] and [results] or the message
    of the error that left the loop: what [insertDocument] threw, or the
    TypeError of the handler of the embedding step.  (Without a service,
    [this.embeddings.generateEmbeddings] throws a TypeError inside the
    inner [try]: the loop behaves as with a service that throws an
    [Error].) *)
Fixpoint index_documents (H : Host) (svc : EmbeddingsService)
    (filePath : jsstring) (options : IndexOptions) (db : Db.Database)
    (docs : list LogicalDocument) (n : nat) (totalChunks : nat)
    (results : list IndexedDocument)
  : Db.Database * Exc (nat * list IndexedDocument) :=
  match docs with
  | [] => (db, inr (totalChunks, results))
  | doc :: rest =>
      let chunks := chunks_of filePath options doc in
      match Db.insertDocument (clock H n) db (as_document doc)
              (map Db.of_chunk chunks) with
      | (db1, inl e) => (db1, inl e)
      | (db1, inr (documentId, chunkIds)) =>
          match embed_chunks svc db1 chunks chunkIds with
          | (db2, Some thrown) => (db2, inl (cannot_read_message H thrown))
          | (db2, None) =>
              index_documents H svc filePath options db2 rest (S n)
                (totalChunks + length chunks)%nat
                (results ++
                   [{| documentId := documentId;
                       indexed_title := ld_title doc;
                       indexed_chunks := length chunks |}])
          end
      end
  end.

(** [indexFile(filePath, options)] *)
Definition indexFile (H : Host) (svc : EmbeddingsService) (db : Db.Database)
    (filePath : jsstring) (options : IndexOptions)
  : Db.Database * IndexOutcome :=
  if negb (existsSync H filePath)
  then (db, IndexFailure (js "File not found: " ++ filePath))
  else
    match readFileSync H filePath with
    | inl e => (db, IndexFailure e)
    | inr content =>
        let documents := logical_documents H filePath options content in
        match index_documents H svc filePath options db documents 0 0 [] with
        | (db1, inl e) => (db1, IndexFailure e)
        | (db1, inr (totalChunks, results)) =>
            (db1, IndexSuccess (length documents) totalChunks results)
        end
    end.

(** The loop of [indexFile] with the embedding step left out: what
    persisting the documents and their chunks alone does. *)
Fixpoint persist_documents (H : Host) (filePath : jsstring)
    (options : IndexOptions) (db : Db.Database)
    (docs : list LogicalDocument) (n : nat) (totalChunks : nat)
    (results : list IndexedDocument)
  : Db.Database * Exc (nat * list IndexedDocument) :=
  match docs with
  | [] => (db, inr (totalChunks, results))
  | doc :: rest =>
      let chunks := chunks_of filePath options doc in
      match Db.insertDocument (clock H n) db (as_document doc)
              (map Db.of_chunk chunks) with
      | (db1, inl e) => (db1, inl e)
      | (db1, inr (documentId, chunkIds)) =>
          persist_documents H filePath options db1 rest (S n)
            (totalChunks + length chunks)%nat
            (results ++
               [{| documentId := documentId;
                   indexed_title := ld_title doc;
                   indexed_chunks := length chunks |}])
      end
  end.

(** *** Search *)

Definition truthy (v : jsval) : bool :=
  match v with
  | JUndefined | JNull => false
  | JNum x => negb (PrimFloat.eqb x 0 || PrimFloat.is_nan x)
  | JStr s => nonempty s
  end.

(** [a || b] *)
Definition js_or (a b : jsval) : jsval := if truthy a then a else b.

Definition of_nullable (s : option jsstring) : jsval :=
  match s with
  | Some t => JStr t
  | None => JNull
  end.

(** The object better-sqlite3 builds for a row of [searchChunks]: one
    property per column of the SELECT, under the column's name. *)
Definition row_object (r : Db.SearchRow) : gmap string jsval :=
  <["chunk_id" := JNum (Mock.float_of_Z (Db.r_chunk_id r))]>
  (<["content" := JStr (Db.r_content r)]>
  (<["heading_path" := JStr (Db.r_heading_path r)]>
  (<["title" := JStr (Db.r_title r)]>
  (<["library" := JStr (Db.r_library r)]>
  (<["version" := JStr (Db.r_version r)]>
  (<["file_path" := of_nullable (Db.r_file_path r)]>
  (<["rank" := JNum (Db.r_rank r)]> ∅))))))).

(** [obj.key]: a property the object does not have reads as [undefined]. *)
Definition get (obj : gmap string jsval) (key : string) : jsval :=
  default JUndefined (obj !! key).

(** An element of the [results] of a successful search. *)
Record SearchResult := {
  res_title : jsval;
  res_library : jsval;
  res_version : jsval;
  res_url : jsval;
  res_content : jsval;
  res_headingPath : jsval;
  res_chunkType : jsval;
  res_score : jsval
}.

(** The arrow function of [results.map] in [searchDocuments]. *)
Definition shape (result : gmap string jsval) : SearchResult :=
  {| res_title := get result "title";
     res_library := get result "library";
     res_version := get result "version";
     res_url := get result "url";
     res_content := get result "content";
     res_headingPath := get result "heading_path";
     res_chunkType := get result "chunk_type";
     res_score := js_or (get result "rank") (JNum 0) |}.

(** [a !== b] against a string. *)
Definition differs (v : jsval) (s : jsstring) : bool :=
  match v with
  | JStr t => negb (jseqb t s)
  | _ => true
  end.

(** The predicate of [results.filter] in [searchDocuments]. *)
Definition keep_result (library version : option jsstring)
    (result : gmap string jsval) : bool :=
  match Db.str_or_null library with
  | Some l => negb (differs (get result "library") l)
  | None => true
  end &&
  match Db.str_or_null version with
  | Some v => negb (differs (get result "version") v)
  | None => true
  end.

(** [arr.slice(0, limit)] *)
Definition slice_limit {A} (limit : Z) (arr : list A) : list A :=
  slice0 arr limit.

Record SearchOptions := {
  s_library : option jsstring;
  s_version : option jsstring;
  s_limit : Z;
  useSemanticSearch : bool
}.

(** The defaults of the destructuring in [searchDocuments]. *)
Definition search_options (library version : option jsstring)
    (limit : option Z) : SearchOptions :=
  {| s_library := library; s_version := version;
     s_limit := default 10 limit; useSemanticSearch := true |}.

(** How a call of [searchDocuments] ends: it returns the object of a
    success, or the object of a failure with [error.message] of what was
    caught, or it throws (its promise is rejected with) the TypeError that
    reading [message] of [undefined] or [null] raises in the handler. *)
Inductive SearchOutcome :=
| SearchSuccess (results : list SearchResult) (query : jsstring)
    (totalResults : nat)
| SearchFailure (error : jsval)
| SearchRejected (thrown : Nullish).

(** [searchDocuments(query, options)]; [embeddings] is [this.embeddings],
    whose vector for the query is computed and not used.  What
    [searchChunks] throws is an [Error] with a message. *)
Definition searchDocuments (E : Db.Fts5) (embeddings : option EmbeddingsService)
    (db : Db.Database) (query : jsstring) (options : SearchOptions)
  : SearchOutcome :=
  match Db.searchChunks E db query (s_limit options * 2) with
  | inl e => SearchFailure (JStr e)
  | inr rows =>
      let ftsResults := map row_object rows in
      let semantic :=
        match embeddings with
        | Some svc =>
            if useSemanticSearch options
            then match generateEmbeddings svc [query] with
                 | inl e => inl e
                 | inr _ => inr ftsResults
                 end
            else inr ftsResults
        | None => inr ftsResults
        end in
      match semantic with
      | inl (ThrownNullish thrown) => SearchRejected thrown
      | inl (ThrownValue message) => SearchFailure message
      | inr results =>
          let results :=
            match Db.str_or_null (s_library options),
                  Db.str_or_null (s_version options) with
            | None, None => results
            | _, _ =>
                List.filter
                  (keep_result (s_library options) (s_version options))
                  results
            end in
          let results := slice_limit (s_limit options) results in
          SearchSuccess (map shape results) query (length results)
      end
  end.

(** The embedding of the query, when one is computed, does not throw. *)
Definition embeds_query (embeddings : option EmbeddingsService)
    (query : jsstring) : Prop :=
  match embeddings with
  | Some svc => ∃ v, generateEmbeddings svc [query] = inr v
  | None => True
  end.

End Indexing.

(** ** Auxiliary notions of the statements *)

(** The loop invariant of [splitText]: the chunks emitted so far carry the
    indices [0, 1, ...] in order, and [chunkIndex] is their number. *)
Definition numbered (st : Splitter.SplitState) : Prop :=
  map Splitter.index (Splitter.chunks st)
    = map Z.of_nat (seq 0 (length (Splitter.chunks st)))
  ∧ Splitter.chunkIndex st = Z.of_nat (length (Splitter.chunks st)).

(** The columns [insertDocument] writes for the chunks of one document,
    from loop index [i] on: document id, chunk index, content and heading
    path. *)
Fixpoint expected_rows (documentId : Z) (chunks : list Db.ChunkArg) (i : Z)
  : list (Z * Z * jsstring * jsstring) :=
  match chunks with
  | [] => []
  | chunk :: rest =>
      (documentId, i, default [] (Db.content chunk),
       Db.str_or (Db.headingPath chunk) [])
      :: expected_rows documentId rest (i + 1)
  end.

Definition row_columns (c : Db.ChunkRow) : Z * Z * jsstring * jsstring :=
  (Db.c_document_id c, Db.c_chunk_index c, Db.c_content c, Db.c_heading_path c).

(** Two databases with the same documents, chunks, index entries and
    counters for them: they differ at most in the embeddings. *)
Definition same_text (a b : Db.Database) : Prop :=
  Db.documents a = Db.documents b ∧ Db.chunks a = Db.chunks b ∧
  Db.chunks_fts a = Db.chunks_fts b ∧
  Db.seq_documents a = Db.seq_documents b ∧
  Db.seq_chunks a = Db.seq_chunks b.

(** Two runs that end in databases with the same text and in the same
    result or error. *)
Definition agree {A} (x y : Db.Database * Exc A) : Prop :=
  same_text x.1 y.1 ∧ x.2 = y.2.

(** A document of library [lib] for a one-chunk corpus. *)
Definition library_doc (lib : jsstring) : Db.Document :=
  {| Db.title := Some (js "Doc"); Db.library := Some lib;
     Db.version := None; Db.filePath := None |}.

(** The corpus made by three [insertDocument] calls on a fresh database:
    three documents of libraries [l1], [l2] and [l3], each with one chunk of
    content [c] and no heading path. *)
Definition three_documents (c l1 l2 l3 : jsstring) : Db.Database :=
  let chunk := {| Db.content := Some c; Db.headingPath := None |} in
  let db1 := (Db.insertDocument 1 Db.empty (library_doc l1) [chunk]).1 in
  let db2 := (Db.insertDocument 2 db1 (library_doc l2) [chunk]).1 in
  (Db.insertDocument 3 db2 (library_doc l3) [chunk]).1.

(** The row of [searchChunks] for document and chunk [i] of the corpus. *)
Definition corpus_row (c : jsstring) (i : Z) (lib : jsstring) (rank : float)
  : Db.SearchRow :=
  {| Db.r_chunk_id := i; Db.r_content := c; Db.r_heading_path := [];
     Db.r_title := js "Doc"; Db.r_library := lib;
     Db.r_version := js "latest"; Db.r_file_path := None;
     Db.r_rank := rank |}.

(** The full-text entries of the corpus. *)
Definition corpus_fts (c : jsstring) : list Db.FtsRow :=
  [{| Db.f_rowid := 1; Db.f_content := c; Db.f_heading_path := [] |};
   {| Db.f_rowid := 2; Db.f_content := c; Db.f_heading_path := [] |};
   {| Db.f_rowid := 3; Db.f_content := c; Db.f_heading_path := [] |}].

(** The rank the engine gives entry [i] of the corpus. *)
Definition corpus_rank (E : Db.Fts5) (query c : jsstring) (i : Z) : float :=
  Db.fts_rank E (corpus_fts c) query
    {| Db.f_rowid := i; Db.f_content := c; Db.f_heading_path := [] |}.

(** The embeddings service rejects the batch of texts with [undefined] or
    [null]. *)
Definition rejects_bare (svc : Indexing.EmbeddingsService)
    (texts : list jsstring) : Prop :=
  ∃ thrown,
    Indexing.generateEmbeddings svc texts
    = inl (Indexing.ThrownNullish thrown).

(** The batch of chunk texts that [indexFile] sends to the embeddings
    service for a document. *)
Definition chunk_texts (filePath : jsstring) (options : Indexing.IndexOptions)
    (doc : Indexing.LogicalDocument) : list jsstring :=
  map Splitter.content (Indexing.chunks_of filePath options doc).

(** A heading text that can be told apart inside a path: not empty and
    without the character [>]. *)
Definition plain_heading (h : jsstring) : Prop := h ≠ [] ∧ 62%N ∉ h.

(** ** Sample inputs *)

Module Samples.

Definition newline : string := String (Ascii.ascii_of_nat 10) EmptyString.

(** The two-section document of the specification's scenario. *)
Definition intro_setup : jsstring :=
  js ("# Intro" ++ newline ++ newline ++ "Hello world." ++ newline ++ newline
      ++ "# Setup" ++ newline ++ newline ++ "Run npm install.")%string.

Definition guide : Db.Document :=
  {| Db.title := Some (js "Guide"); Db.library := Some (js "docs");
     Db.version := None; Db.filePath := None |}.

Definition chunk_of (s : string) : Db.ChunkArg :=
  {| Db.content := Some (js s); Db.headingPath := None |}.

(** A chunk object without content. *)
Definition chunk_without_content : Db.ChunkArg :=
  {| Db.content := None; Db.headingPath := None |}.

(** The database after indexing [guide] with the single chunk ["alpha"]. *)
Definition one_chunk_db : Db.Database :=
  fst (Db.insertDocument 1 Db.empty guide [chunk_of "alpha"]).

(** A stand-in full-text engine for closed examples: every query parses, a
    query matches an entry that contains it, and shorter entries rank
    better (more negative). *)
Definition containment_engine : Db.Fts5 :=
  {| Db.fts_query_ok := λ _, true;
     Db.fts_match := λ q c h, includes q c || includes q h;
     Db.fts_rank := λ _ _ f,
       PrimFloat.opp
         (PrimFloat.div 1 (Mock.float_of_Z (Z.of_nat (length (Db.f_content f) + 1)))) |}.

(** A sine that is a cubic near zero, for closed examples. *)
Definition cubic_sin (x : float) : float :=
  PrimFloat.sub x (PrimFloat.div (PrimFloat.mul x (PrimFloat.mul x x)) 6%float).

(** An embeddings service that always throws an [Error]. *)
Definition failing_service : Indexing.EmbeddingsService :=
  {| Indexing.generateEmbeddings := λ _,
       inl (Indexing.ThrownValue
              (Indexing.JStr (js "embedding backend down"))) |}.

(** An embeddings service that always rejects without a reason, as
    [Promise.reject()] does. *)
Definition bare_rejecting_service : Indexing.EmbeddingsService :=
  {| Indexing.generateEmbeddings := λ _,
       inl (Indexing.ThrownNullish Indexing.NUndefined) |}.

(** A host whose only file is [guide.md], holding [intro_setup]. *)
Definition host : Indexing.Host :=
  {| Indexing.existsSync := λ p, jseqb p (js "guide.md");
     Indexing.readFileSync := λ p,
       if jseqb p (js "guide.md") then inr intro_setup
       else inl (js "ENOENT: no such file or directory");
     Indexing.basename := λ p, p;
     Indexing.basename_without_ext := λ _, js "guide";
     Indexing.clock := λ n, N.of_nat n;
     Indexing.cannot_read_message := λ thrown,
       match thrown with
       | Indexing.NUndefined =>
           js "Cannot read properties of undefined (reading 'message')"
       | Indexing.NNull =>
           js "Cannot read properties of null (reading 'message')"
       end |}.

Definition docs_options : Indexing.IndexOptions :=
  {| Indexing.library := Some (js "docs"); Indexing.version := None;
     Indexing.title := None; Indexing.separator := None |}.

End Samples.

(** ** Notions of the further properties *)

(** The code units of a string that are not whitespace, in order. *)
Definition ink (s : jsstring) : jsstring :=
  List.filter (λ c, negb (is_space c)) s.

(** The state of [splitText] when its loop has ended and the last buffer
    has been flushed, before the fallback for an empty result. *)
Definition split_final (this : Splitter.SimpleTextSplitter) (text : jsstring)
    (md : Splitter.Metadata) : Splitter.SplitState :=
  let st := fold_left (Splitter.split_step this md)
              (Splitter.split_paragraphs text) Splitter.split_init in
  if nonempty (trim (Splitter.currentChunk st))
  then Splitter.flush md st (Splitter.currentChunk st)
  else st.

(** What the loop of [splitText] keeps true of its buffer: it is empty, or a
    single trimmed paragraph with its separator, or it has text and fits
    the maximum size. *)
Definition buffer_fits (this : Splitter.SimpleTextSplitter)
    (paragraphs : list jsstring) (buffer : jsstring) : Prop :=
  buffer = [] ∨
  (∃ p, p ∈ paragraphs ∧ nonempty (trim p) = true ∧
        buffer = trim p ++ Splitter.blank_line) ∨
  (Z.of_nat (length buffer) ≤ Splitter.maxChunkSize this ∧
   nonempty (trim buffer) = true).

(** A chunk content within the maximum size, or made of one paragraph. *)
Definition chunk_fits (this : Splitter.SimpleTextSplitter)
    (paragraphs : list jsstring) (c : Splitter.Chunk) : Prop :=
  Z.of_nat (length (Splitter.content c)) ≤ Splitter.maxChunkSize this ∨
  ∃ p, p ∈ paragraphs ∧ Splitter.content c = trim p.

(** The polynomial hash [s[0]*31^(n-1) + ... + s[n-1]] over the integers,
    as [String.hashCode] of Java defines it before wrapping. *)
Definition polynomial_hash (str : jsstring) : Z :=
  fold_left (λ h c, 31 * h + Z.of_N c) str 0.

(** The invariant of the database: row ids are below their AUTOINCREMENT
    counters and unique, every chunk belongs to a stored document and every
    embedding to a stored chunk. *)
Definition sound (db : Db.Database) : Prop :=
  Forall (λ d, Db.d_id d ≤ Db.seq_documents db) (Db.documents db) ∧
  Forall (λ c, Db.c_id c ≤ Db.seq_chunks db) (Db.chunks db) ∧
  Forall (λ f, Db.f_rowid f ≤ Db.seq_chunks db) (Db.chunks_fts db) ∧
  Forall (λ e, Db.e_id e ≤ Db.seq_embeddings db) (Db.embeddings db) ∧
  NoDup (map Db.d_id (Db.documents db)) ∧
  NoDup (map Db.c_id (Db.chunks db)) ∧
  NoDup (map Db.f_rowid (Db.chunks_fts db)) ∧
  NoDup (map Db.e_id (Db.embeddings db)) ∧
  Forall (λ c, ∃ d, d ∈ Db.documents db ∧ Db.d_id d = Db.c_document_id c)
    (Db.chunks db) ∧
  Forall (λ e, ∃ c, c ∈ Db.chunks db ∧ Db.c_id c = Db.e_chunk_id e)
    (Db.embeddings db).

(** An entry of [insertEmbeddings] that the database accepts: it has a
    vector, and its chunk is stored. *)
Definition valid_entry (db : Db.Database) (entry : Z * option (list float))
  : Prop :=
  entry.2 ≠ None ∧ ∃ c, c ∈ Db.chunks db ∧ Db.c_id c = entry.1.

(** The ids [first, first + 1, ...] of [n] rows inserted in a row. *)
Definition consecutive (first : Z) (n : nat) : list Z :=
  map (λ k : nat, first + Z.of_nat k) (seq 0 n).

(** The order of the rows of [getDocuments]: a row comes before another
    when its document was indexed at the same time or later. *)
Definition newer_first (a b : Db.DocumentRow * Z) : Prop :=
  (Db.d_indexed_at b.1 ≤ Db.d_indexed_at a.1)%N.

(** The number of chunk rows of a document. *)
Definition chunk_count (db : Db.Database) (d : Db.DocumentRow) : Z :=
  Z.of_nat (length (filter (λ c, Db.c_document_id c = Db.d_id d) (Db.chunks db))).

(** A database that holds one document of library ["docs"], version
    ["v2.0"]. *)
Definition docs_v2_db : Db.Database :=
  (Db.insertDocument 1 Db.empty
     {| Db.title := Some (js "Guide"); Db.library := Some (js "docs");
        Db.version := Some (js "v2.0"); Db.filePath := None |}
     [{| Db.content := Some (js "alpha"); Db.headingPath := None |}]).1.

(** The database after indexing a document with the chunks ["alpha beta"],
    ["alpha"] and ["gamma"]. *)
Definition three_chunk_db : Db.Database :=
  (Db.insertDocument 1 Db.empty Samples.guide
     [Samples.chunk_of "alpha beta"; Samples.chunk_of "alpha";
      Samples.chunk_of "gamma"]).1.

(** The filter of [searchDocuments] on the rows of [searchChunks]: a row is
    kept when its library and version equal the filters that are given
    (a filter that is absent or empty lets every row pass). *)
Definition keep_row (library version : option jsstring) (r : Db.SearchRow)
  : bool :=
  match Db.str_or_null library with
  | Some l => jseqb (Db.r_library r) l
  | None => true
  end &&
  match Db.str_or_null version with
  | Some v => jseqb (Db.r_version r) v
  | None => true
  end.

(** The embeddings service is consulted for the query and throws
    [thrown]. *)
Definition embedding_throws (embeddings : option Indexing.EmbeddingsService)
    (options : Indexing.SearchOptions) (query : jsstring)
    (thrown : Indexing.Thrown) : Prop :=
  ∃ svc, embeddings = Some svc ∧ Indexing.useSemanticSearch options = true ∧
         Indexing.generateEmbeddings svc [query] = inl thrown.

(** An embeddings service that answers every batch with one vector per
    text. *)
Definition answers_each (svc : Indexing.EmbeddingsService) : Prop :=
  ∀ texts, ∃ vs, Indexing.generateEmbeddings svc texts = inr vs ∧
                 length vs = length texts.

(** The vectors a service returns for a batch (none when it throws). *)
Definition service_vectors (svc : Indexing.EmbeddingsService)
    (texts : list jsstring) : list (list float) :=
  match Indexing.generateEmbeddings svc texts with
  | inr vs => vs
  | inl _ => []
  end.

(** The chunk id is that of a stored chunk. *)
Definition stored_chunk (db : Db.Database) (id : Z) : Prop :=
  ∃ c, c ∈ Db.chunks db ∧ Db.c_id c = id.

(** ** The listing of libraries *)

(** A row of [getLibraries]. *)
Record LibraryRow := {
  lr_library : jsstring;
  lr_version : jsstring;
  document_count : Z;
  last_indexed : N
}.

(** The columns of GROUP BY library, version. *)
Definition library_key (d : Db.DocumentRow) : jsstring * jsstring :=
  (Db.d_library d, Db.d_version d).

(** The row of one group: COUNT( * ) and MAX(indexed_at) over its
    documents. *)
Definition group_row (docs : list Db.DocumentRow) (k : jsstring * jsstring)
  : LibraryRow :=
  let members := filter (λ d, library_key d = k) docs in
  {| lr_library := k.1; lr_version := k.2;
     document_count := Z.of_nat (length members);
     last_indexed := foldr N.max 0%N (map Db.d_indexed_at members) |}.

(** ORDER BY library, version.  [text_leb] is the order of the BINARY
    collation on stored text, which compares the bytes of the encoded
    strings. *)
Definition library_leb (text_leb : jsstring → jsstring → bool)
    (a b : LibraryRow) : bool :=
  if jseqb (lr_library a) (lr_library b)
  then text_leb (lr_version a) (lr_version b)
  else text_leb (lr_library a) (lr_library b).

Fixpoint insert_library (text_leb : jsstring → jsstring → bool)
    (x : LibraryRow) (l : list LibraryRow) : list LibraryRow :=
  match l with
  | [] => [x]
  | y :: l' =>
      if library_leb text_leb x y then x :: l
      else y :: insert_library text_leb x l'
  end.

(** [getLibraries()]: one row per pair of library and version that some
    document carries. *)
Definition getLibraries (text_leb : jsstring → jsstring → bool)
    (db : Db.Database) : list LibraryRow :=
  let docs := Db.documents db in
  foldr (insert_library text_leb) []
    (map (group_row docs) (remove_dups (map library_key docs))).

(** The sum of the [document_count] column. *)
Definition total_count (rows : list LibraryRow) : Z :=
  foldr Z.add 0 (map document_count rows).

(** An order on text: total, transitive and antisymmetric. *)
Definition text_order (text_leb : jsstring → jsstring → bool) : Prop :=
  (∀ a b, text_leb a b = true ∨ text_leb b a = true) ∧
  (∀ a b c, text_leb a b = true → text_leb b c = true → text_leb a c = true) ∧
  (∀ a b, text_leb a b = true → text_leb b a = true → a = b).

(** The order of code units, for closed examples. *)
Fixpoint unit_leb (a b : jsstring) : bool :=
  match a, b with
  | [], _ => true
  | _ :: _, [] => false
  | x :: a', y :: b' => if (x =? y)%N then unit_leb a' b' else (x <? y)%N
  end.

(** A row of [getLibraries] may stand before another: its library is not
    above the other's, and with equal libraries its version is not above
    the other's. *)
Definition library_before (text_leb : jsstring → jsstring → bool)
    (a b : LibraryRow) : Prop :=
  text_leb (lr_library a) (lr_library b) = true ∧
  (lr_library a = lr_library b →
   text_leb (lr_version a) (lr_version b) = true).

(** * Properties *)

(** ** Strings and arrays *)

Lemma jseqb_eq (s t : jsstring) : jseqb s t = true ↔ s = t.
Proof.
  revert t; induction s as [|c s IH]; intros [|d t]; simpl; try easy.
  rewrite andb_true_iff, N.eqb_eq, IH. split.
  - intros [-> ->]; reflexivity.
  - intros [= -> ->]; auto.
Qed.

Lemma jseqb_refl (s : jsstring) : jseqb s s = true.
Proof. apply jseqb_eq; reflexivity. Qed.

Lemma slice0_nonneg {A} (arr : list A) (n : nat) :
  slice0 arr (Z.of_nat n) = take n arr.
Proof.
  unfold slice0.
  destruct (Z.ltb_spec (Z.of_nat n) 0) as [Hneg|_]; [lia|].
  destruct (Z.min_spec (Z.of_nat n) (Z.of_nat (length arr))) as [[_ ->]|[Hle ->]].
  - rewrite Nat2Z.id; reflexivity.
  - rewrite Nat2Z.id, firstn_all. symmetry; apply take_ge; lia.
Qed.

Lemma slice0_sublist {A} (arr : list A) (e : Z) (x : A) :
  x ∈ slice0 arr e → x ∈ arr.
Proof. unfold slice0. apply subseteq_take. Qed.

(** ** Chunker: heading paths *)

Section HeadingPath.

Import Splitter.

Lemma starts_with_sep_plain (a : N) (x rest : jsstring) :
  62%N ∉ a :: x →
  starts_with path_sep (a :: x ++ path_sep ++ rest) = false
  ∧ starts_with path_sep (a :: x) = false.
Proof.
  intros Hplain. apply not_elem_of_cons in Hplain as [Ha Hx].
  change path_sep with [32%N; 62%N; 32%N]. cbn [starts_with].
  destruct x as [|b x]; cbn [app starts_with].
  - change (62 =? 32)%N with false. cbn [andb]. rewrite andb_false_r.
    split; reflexivity.
  - apply not_elem_of_cons in Hx as [Hb _].
    destruct (N.eqb_spec 62 b) as [Heq|_]; [congruence|].
    cbn [andb]. rewrite andb_false_r. split; reflexivity.
Qed.

(** Splitting runs through a plain heading and cuts at the separator that
    follows it. *)
Lemma split_go_plain_then_sep (x : jsstring) :
  ∀ cur rest, 62%N ∉ x →
  split_go path_sep 0 cur (x ++ path_sep ++ rest)
  = (cur ++ x) :: split_go path_sep 0 [] rest.
Proof.
  induction x as [|a x IH]; intros cur rest Hplain.
  - rewrite app_nil_r. reflexivity.
  - destruct (starts_with_sep_plain a x rest Hplain) as [Hno _].
    cbn [app split_go]. cbn [app] in Hno. rewrite Hno.
    apply not_elem_of_cons in Hplain as [_ Hx].
    rewrite IH by exact Hx. rewrite <- app_assoc. reflexivity.
Qed.

Lemma split_go_plain (x : jsstring) :
  ∀ cur, 62%N ∉ x → split_go path_sep 0 cur x = [cur ++ x].
Proof.
  induction x as [|a x IH]; intros cur Hplain.
  - rewrite app_nil_r. reflexivity.
  - destruct (starts_with_sep_plain a x [] Hplain) as [_ Hno].
    cbn [split_go]. rewrite Hno.
    apply not_elem_of_cons in Hplain as [_ Hx].
    rewrite IH by exact Hx. rewrite <- app_assoc. reflexivity.
Qed.

Lemma split_join_plain (headings : list jsstring) :
  headings ≠ [] → Forall plain_heading headings →
  split_go path_sep 0 [] (join path_sep headings) = headings.
Proof.
  intros Hne Hall. induction Hall as [|h rest [_ Hh] Hrest IH]; [contradiction|].
  destruct rest as [|h' rest]; cbn [join].
  - apply (split_go_plain h []), Hh.
  - rewrite (split_go_plain_then_sep h [] _ Hh). cbn [app]. f_equal.
    apply IH. discriminate.
Qed.

(** A path rendered from plain headings has exactly these headings as its
    components. *)
Lemma path_components_join (headings : list jsstring) :
  Forall plain_heading headings →
  path_components (join path_sep headings) = headings.
Proof.
  intros Hall. destruct headings as [|h rest]; [reflexivity|].
  unfold path_components.
  destruct (join path_sep (h :: rest)) as [|a s] eqn:Hjoin.
  - exfalso. apply Forall_cons in Hall as [[Hh _] _].
    destruct rest; cbn [join] in Hjoin; destruct h; try discriminate;
      contradiction.
  - rewrite <- Hjoin. apply split_join_plain; [discriminate|exact Hall].
Qed.

(** C5. For every current heading path and every heading of level 1 to 6,
    [updateHeadingPath] yields the path that keeps the first [level - 1]
    components of the current path and appends the new heading text, where
    the components of a path are its pieces between [" > "] separators and
    the empty path has none.  In particular, when the current path is the
    rendering of a sequence of plain headings, the result renders the first
    [level - 1] of these headings followed by the new heading: from
    ["A > B > C"], a level-2 heading ["D"] gives ["A > D"]. *)
Theorem updateHeadingPath_truncates_then_appends
    (currentPath newHeading : jsstring) (level : Z) :
  1 ≤ level ≤ 6 →
  updateHeadingPath currentPath newHeading level =
  join path_sep
    (truncate_then_append (path_components currentPath) (Z.to_nat level)
       newHeading)
  ∧ ∀ headings,
      Forall plain_heading headings →
      currentPath = join path_sep headings →
      updateHeadingPath currentPath newHeading level =
      join path_sep (take (Z.to_nat level - 1) headings ++ [newHeading]).
Proof.
  intros Hlevel.
  assert (Hupdate : updateHeadingPath currentPath newHeading level =
                    join path_sep
                      (truncate_then_append (path_components currentPath)
                         (Z.to_nat level) newHeading)).
  { unfold updateHeadingPath, truncate_then_append.
    destruct currentPath as [|c p]; simpl nonempty; cbn [negb path_components].
    - rewrite take_nil. reflexivity.
    - replace (level - 1) with (Z.of_nat (Z.to_nat level - 1)) by lia.
      rewrite slice0_nonneg. reflexivity. }
  split; [exact Hupdate|].
  intros headings Hplain ->. rewrite Hupdate, path_components_join by exact Hplain.
  reflexivity.
Qed.

Lemma updateHeadingPath_example :
  updateHeadingPath (js "A > B > C") (js "D") 2 = js "A > D".
Proof.
  destruct (updateHeadingPath_truncates_then_appends (js "A > B > C") (js "D") 2)
    as [_ Hheadings]; [lia|].
  apply (Hheadings [js "A"; js "B"; js "C"]); [|reflexivity].
  repeat constructor; try discriminate;
    intros Hin; repeat (apply elem_of_cons in Hin as [Hin|Hin]; [discriminate|]);
    apply elem_of_nil in Hin; exact Hin.
Defined.

End HeadingPath.

(** ** Embedding provider *)

Section Similarity.

Import Mock.

Lemma fold_indices_nth {A B} (f : B → A → B) (d : A) (l pre : list A) (acc : B) :
  fold_left (λ s i, f s (nth i (pre ++ l) d)) (seq (length pre) (length l)) acc
  = fold_left f l acc.
Proof.
  revert pre acc; induction l as [|x l IH]; intros pre acc; [reflexivity|].
  cbn [length seq fold_left].
  rewrite app_nth2, Nat.sub_diag by lia. cbn [nth].
  specialize (IH (pre ++ [x]) (f acc x)).
  rewrite length_app, Nat.add_1_r, <- app_assoc in IH. exact IH.
Qed.

Lemma sim_fold_magnitude1 (a b : list float) (l : list nat) (acc : SimAcc) :
  magnitude1 (fold_left (sim_step a b) l acc)
  = fold_left (λ s i, PrimFloat.add s (PrimFloat.mul (at_index a i) (at_index a i)))
      l (magnitude1 acc).
Proof. revert acc; induction l as [|i l IH]; intros acc; [reflexivity|apply IH]. Qed.

Lemma sim_fold_magnitude2 (a b : list float) (l : list nat) (acc : SimAcc) :
  magnitude2 (fold_left (sim_step a b) l acc)
  = fold_left (λ s i, PrimFloat.add s (PrimFloat.mul (at_index b i) (at_index b i)))
      l (magnitude2 acc).
Proof. revert acc; induction l as [|i l IH]; intros acc; [reflexivity|apply IH]. Qed.

(** The two magnitudes of the loop are the magnitudes of the two vectors. *)
Lemma sim_loop_magnitudes (a b : list float) :
  length a = length b →
  let acc := fold_left (sim_step a b) (seq 0 (length a))
               {| dotProduct := 0; magnitude1 := 0; magnitude2 := 0 |} in
  PrimFloat.sqrt (magnitude1 acc) = magnitude a ∧
  PrimFloat.sqrt (magnitude2 acc) = magnitude b.
Proof.
  intros Hlen acc. subst acc.
  rewrite sim_fold_magnitude1, sim_fold_magnitude2. cbn [magnitude1 magnitude2].
  unfold magnitude, at_index. split; f_equal.
  - apply (fold_indices_nth (λ s x, PrimFloat.add s (PrimFloat.mul x x)) _ a []).
  - rewrite Hlen.
    apply (fold_indices_nth (λ s x, PrimFloat.add s (PrimFloat.mul x x)) _ b []).
Qed.

(** A vector all of whose components are a zero has magnitude [0]. *)
Lemma magnitude_zero_vector (v : list float) :
  Forall (λ x, x = 0%float ∨ x = (-0)%float) v → magnitude v = 0%float.
Proof.
  unfold magnitude. intros Hv.
  enough (fold_left (λ sum val, PrimFloat.add sum (PrimFloat.mul val val)) v 0%float
          = 0%float) as -> by reflexivity.
  induction Hv as [|x v [-> | ->] _ IH]; [reflexivity| |]; cbn [fold_left].
  - change (PrimFloat.add 0 (PrimFloat.mul 0 0)) with 0%float. exact IH.
  - change (PrimFloat.add 0 (PrimFloat.mul (-0) (-0))) with 0%float. exact IH.
Qed.

(** C8. [calculateSimilarity] throws exactly when the two vectors differ in
    length; for vectors of equal length it returns [0] whenever the
    magnitude of either of them is zero; the similarity of [[1,0]] with
    itself is [1] and with [[0,1]] is [0]. *)
Theorem calculateSimilarity_contract (a b : list float) :
  ((∃ e, calculateSimilarity a b = inl e) ↔ length a ≠ length b) ∧
  (length a = length b →
   PrimFloat.eqb (magnitude a) 0 = true ∨ PrimFloat.eqb (magnitude b) 0 = true →
   calculateSimilarity a b = inr 0%float) ∧
  calculateSimilarity [1%float; 0%float] [1%float; 0%float] = inr 1%float ∧
  calculateSimilarity [1%float; 0%float] [0%float; 1%float] = inr 0%float.
Proof.
  repeat split.
  - intros [e He]. unfold calculateSimilarity in He.
    destruct (Nat.eqb_spec (length a) (length b)) as [Heq|Hne]; [|exact Hne].
    cbn [negb] in He.
    destruct (_ || _) in He; discriminate He.
  - intros Hne. unfold calculateSimilarity.
    destruct (Nat.eqb_spec (length a) (length b)) as [Heq|_]; [contradiction|].
    eexists; reflexivity.
  - intros Hlen Hzero. unfold calculateSimilarity.
    rewrite Hlen, Nat.eqb_refl. cbn [negb]. rewrite <- Hlen.
    destruct (sim_loop_magnitudes a b Hlen) as [-> ->].
    destruct Hzero as [-> | ->]; [reflexivity|].
    rewrite orb_true_r. reflexivity.
Qed.

Lemma calculateSimilarity_zero_vector :
  length [0%float; 0%float] = length [1%float; 0%float] ∧
  calculateSimilarity [0%float; 0%float] [1%float; 0%float] = inr 0%float.
Proof.
  split; [reflexivity|].
  destruct (calculateSimilarity_contract [0%float; 0%float] [1%float; 0%float])
    as (_ & Hzero & _).
  apply Hzero; [reflexivity | left; reflexivity].
Defined.

End Similarity.

Section MockEmbedding.

Import Mock.

Variable Msin : float → float.

(** ECMAScript: [Math.sin(+0)] is [+0]. *)
Hypothesis Msin_zero : Msin 0%float = 0%float.

Lemma zero_hash_arguments :
  map (λ i : nat, PrimFloat.mul 0%float (float_of_Z (Z.of_nat i + 1))) (seq 0 dimension)
  = replicate dimension 0%float.
Proof. vm_compute. reflexivity. Qed.

Lemma raw_embedding_zero_hash : raw_embedding Msin 0%float = replicate dimension 0%float.
Proof using Msin_zero.
  transitivity
    (map (λ x, PrimFloat.mul (Msin x) 0.5%float)
       (map (λ i : nat, PrimFloat.mul 0%float (float_of_Z (Z.of_nat i + 1)))
          (seq 0 dimension))).
  { unfold raw_embedding. rewrite map_map. reflexivity. }
  rewrite zero_hash_arguments.
  generalize dimension. intros n.
  induction n as [|n IH]; [reflexivity|].
  cbn [replicate map]. rewrite IH, Msin_zero. reflexivity.
Qed.

Lemma magnitude_replicate_zero (n : nat) : magnitude (replicate n 0%float) = 0%float.
Proof.
  apply magnitude_zero_vector. induction n; constructor; auto.
Qed.

Lemma simpleHash_zero (text : jsstring) :
  rolling_hash text = 0 → simpleHash text = 0%float.
Proof. unfold simpleHash. intros ->. reflexivity. Qed.

(** C10. For every text whose rolling hash is 0 (the empty string is one),
    every component of the vector before normalisation is [0], its
    magnitude is [0], and [generateMockEmbedding] returns 384 components
    that are all NaN: the division by the magnitude has no zero guard, and
    the result is not a unit vector. *)
Theorem generateMockEmbedding_zero_hash (text : jsstring) :
  rolling_hash text = 0 →
  raw_embedding Msin (simpleHash text) = replicate 384 0%float ∧
  magnitude (raw_embedding Msin (simpleHash text)) = 0%float ∧
  generateMockEmbedding Msin text = replicate 384 PrimFloat.nan ∧
  Forall (λ x, PrimFloat.is_nan x = true) (generateMockEmbedding Msin text).
Proof using Msin_zero.
  intros Hhash. unfold generateMockEmbedding.
  rewrite (simpleHash_zero text Hhash), raw_embedding_zero_hash.
  rewrite magnitude_replicate_zero.
  assert (Hnan : map (λ val, PrimFloat.div val 0%float) (replicate dimension 0%float)
                 = replicate 384 PrimFloat.nan) by (vm_compute; reflexivity).
  rewrite Hnan. repeat split; try reflexivity.
  apply Forall_forall. intros x Hx.
  apply elem_of_replicate in Hx as [-> _]. reflexivity.
Qed.

End MockEmbedding.

(** The empty string under a sine that is a cubic near zero. *)
Lemma generateMockEmbedding_empty_string :
  Mock.rolling_hash (js "") = 0 ∧
  Mock.generateMockEmbedding Samples.cubic_sin (js "")
  = replicate 384 PrimFloat.nan.
Proof.
  split; [reflexivity|].
  apply (generateMockEmbedding_zero_hash Samples.cubic_sin); reflexivity.
Defined.

(** ** Chunker and storage: sequence indices *)

Section ChunkIndices.

Import Splitter.

Lemma seq_snoc (n : nat) : seq 0 (S n) = seq 0 n ++ [n].
Proof. rewrite seq_S. reflexivity. Qed.

Lemma numbered_flush (md : Metadata) (st : SplitState) (next : jsstring) :
  numbered st → numbered (flush md st next).
Proof.
  intros [Hidx Hnext]. unfold numbered, flush; cbn [chunks chunkIndex].
  rewrite length_app, Nat.add_1_r, seq_snoc, !map_app, Hidx, Hnext.
  cbn [map length createChunk index]. split; [reflexivity|lia].
Qed.

Lemma numbered_step (this : SimpleTextSplitter) (md : Metadata)
    (st : SplitState) (paragraph : jsstring) :
  numbered st → numbered (split_step this md st paragraph).
Proof.
  intros Hst. unfold split_step.
  destruct (negb (nonempty (trim paragraph))); [exact Hst|].
  destruct (heading_match (trim paragraph)) as [[level headingText]|].
  - destruct (nonempty (trim (currentChunk st))).
    + apply (numbered_flush md st []) in Hst. exact Hst.
    + exact Hst.
  - destruct (_ && _).
    + apply numbered_flush; exact Hst.
    + exact Hst.
Qed.

Lemma numbered_fold (this : SimpleTextSplitter) (md : Metadata)
    (paragraphs : list jsstring) (st : SplitState) :
  numbered st → numbered (fold_left (split_step this md) paragraphs st).
Proof.
  revert st; induction paragraphs as [|p ps IH]; intros st Hst; [exact Hst|].
  apply IH, numbered_step, Hst.
Qed.

(** The chunks of [splitText] carry the indices [0 .. N-1] in order. *)
Lemma splitText_indices (this : SimpleTextSplitter) (text : jsstring)
    (md : Metadata) :
  map index (splitText this text md)
  = map Z.of_nat (seq 0 (length (splitText this text md))).
Proof.
  unfold splitText.
  set (st := fold_left _ _ _).
  assert (Hst : numbered st) by (apply numbered_fold; split; reflexivity).
  set (st' := if nonempty (trim (currentChunk st)) then _ else st).
  assert (Hst' : numbered st').
  { subst st'. destruct (nonempty _); [apply numbered_flush|]; exact Hst. }
  destruct Hst' as [Hidx _].
  destruct (chunks st') as [|c cs] eqn:Hcs; cbn [length Nat.eqb andb].
  - destruct (nonempty (trim text)); reflexivity.
  - exact Hidx.
Qed.

(** A text that is not blank gives at least one chunk. *)
Lemma splitText_nonempty (this : SimpleTextSplitter) (text : jsstring)
    (md : Metadata) :
  nonempty (trim text) = true → (1 ≤ length (splitText this text md))%nat.
Proof.
  intros Htext. unfold splitText. rewrite Htext.
  match goal with |- context [chunks ?s] => destruct (chunks s) as [|c cs] end;
    cbn; lia.
Qed.

(** The scenario of the specification: two sections give two chunks, each
    under its own heading. *)
Example splitText_intro_setup :
  map (λ ch, (index ch, headingPath ch, content ch))
    (splitText Indexing.splitter Samples.intro_setup no_metadata)
  = [(0, js "Intro",
      js ("# Intro" ++ Samples.newline ++ Samples.newline ++ "Hello world.")%string);
     (1, js "Setup",
      js ("# Setup" ++ Samples.newline ++ Samples.newline ++ "Run npm install.")%string)].
Proof. reflexivity. Qed.

End ChunkIndices.

(** ** Storage engine: inserts *)

Section Inserts.

Import Db.

Lemma insert_documents_inv (now : N) (db db1 : Database)
    (t l : option jsstring) (v : jsstring) (fp : option jsstring) (id : Z) :
  insert_documents now db t l v fp = inr (db1, id) →
  id = seq_documents db + 1 ∧ seq_documents db1 = id ∧
  chunks db1 = chunks db ∧ chunks_fts db1 = chunks_fts db ∧
  embeddings db1 = embeddings db ∧
  ∃ row, documents db1 = documents db ++ [row] ∧ d_id row = id.
Proof.
  unfold insert_documents. destruct t, l; intros [= <- <-]; cbn.
  repeat split; eauto.
Qed.

Lemma insert_chunks_inv (db db1 : Database) (documentId : Z)
    (text : option jsstring) (i : Z) (hp : jsstring) (id : Z) :
  insert_chunks db documentId text i hp = inr (db1, id) →
  documents db1 = documents db ∧ seq_documents db1 = seq_documents db ∧
  chunks_fts db1 = chunks_fts db ∧ embeddings db1 = embeddings db ∧
  (∃ d, d ∈ documents db ∧ d_id d = documentId) ∧
  ∃ row, chunks db1 = chunks db ++ [row] ∧
         row_columns row = (documentId, i, default [] text, hp).
Proof.
  unfold insert_chunks. destruct text as [s|]; [|discriminate].
  destruct (existsb _ _) eqn:Hfk; intros [= <- <-]; cbn.
  apply existsb_exists in Hfk as (d & Hd & Hid).
  repeat split; eauto.
  exists d. split; [apply list_elem_of_In; exact Hd | lia].
Qed.

Lemma insert_chunks_fts_inv (db db1 : Database) (rowid : Z)
    (text hp : jsstring) :
  insert_chunks_fts db rowid text hp = inr db1 →
  documents db1 = documents db ∧ seq_documents db1 = seq_documents db ∧
  chunks db1 = chunks db ∧ embeddings db1 = embeddings db.
Proof.
  unfold insert_chunks_fts. destruct (existsb _ _); intros [= <-]; cbn.
  repeat split.
Qed.

(** Whatever the outcome of the loop of [insertDocument], it leaves the
    documents alone and appends chunk rows of the given document; when it
    ends normally, these are the rows of all the chunks handed in, numbered
    from [i] in their order. *)
Lemma insert_chunk_loop_rows (cs : list ChunkArg) :
  ∀ (db : Database) (documentId i : Z) (ids : list Z) (db' : Database)
    (r : Exc (list Z)),
  insert_chunk_loop db documentId cs i ids = (db', r) →
  documents db' = documents db ∧ seq_documents db' = seq_documents db ∧
  ∃ rows, chunks db' = chunks db ++ rows ∧
          Forall (λ c, c_document_id c = documentId) rows ∧
          (∀ ids', r = inr ids' →
                   map row_columns rows = expected_rows documentId cs i).
Proof.
  induction cs as [|c cs IH]; intros db documentId i ids db' r; cbn [insert_chunk_loop].
  - intros [= <- <-]. repeat split. exists []. rewrite app_nil_r.
    repeat split; auto.
  - destruct (insert_chunks _ _ _ _ _) as [e|[db1 chunkId]] eqn:Hc.
    { intros [= <- <-]. repeat split. exists []. rewrite app_nil_r.
      repeat split; auto. intros ids' [=]. }
    apply insert_chunks_inv in Hc as (Hd1 & Hs1 & _ & _ & _ & row & Hrow & Hcols).
    destruct (insert_chunks_fts _ _ _ _) as [e|db2] eqn:Hf.
    { intros [= <- <-]. repeat split; auto. exists [row].
      repeat split; auto.
      - constructor; [|constructor]. unfold row_columns in Hcols. congruence.
      - intros ids' [=]. }
    apply insert_chunks_fts_inv in Hf as (Hd2 & Hs2 & Hc2 & _).
    intros Hloop. apply IH in Hloop as (Hd3 & Hs3 & rows & Hrows & Hall & Hexp).
    split; [congruence|]. split; [congruence|].
    exists (row :: rows). repeat split.
    + rewrite Hrows, Hc2, Hrow, <- app_assoc. reflexivity.
    + constructor; [|exact Hall]. unfold row_columns in Hcols. congruence.
    + intros ids' Hr. cbn [map expected_rows]. rewrite Hcols, (Hexp ids' Hr).
      reflexivity.
Qed.

Lemma str_or_same (s : jsstring) : str_or (Some s) [] = s.
Proof. destruct s; reflexivity. Qed.

(** For the chunks of the splitter, the expected rows carry the chunks'
    own indices. *)
Lemma expected_rows_of_chunks (documentId : Z) (cs : list Splitter.Chunk) :
  ∀ n : nat,
  map Splitter.index cs = map Z.of_nat (seq n (length cs)) →
  expected_rows documentId (map of_chunk cs) (Z.of_nat n)
  = map (λ c, (documentId, Splitter.index c, Splitter.content c,
               Splitter.headingPath c)) cs.
Proof.
  induction cs as [|c cs IH]; intros n Hidx; [reflexivity|].
  cbn [map length seq] in Hidx. injection Hidx as Hc Hrest.
  cbn [map expected_rows of_chunk content headingPath default].
  rewrite str_or_same, Hc. f_equal.
  replace (Z.of_nat n + 1) with (Z.of_nat (S n)) by lia.
  apply IH, Hrest.
Qed.

Lemma filter_all {A} (P : A → Prop) `{∀ x, Decision (P x)} (l : list A) :
  Forall P l → filter P l = l.
Proof.
  induction 1 as [|x l Hx _ IH]; [reflexivity|].
  rewrite filter_cons_True by exact Hx. rewrite IH. reflexivity.
Qed.

Lemma filter_none {A} (P : A → Prop) `{∀ x, Decision (P x)} (l : list A) :
  Forall (λ x, ¬ P x) l → filter P l = [].
Proof.
  induction 1 as [|x l Hx _ IH]; [reflexivity|].
  rewrite filter_cons_False by exact Hx. exact IH.
Qed.

(** The chunk rows of a freshly inserted document. *)
Lemma insertDocument_rows (now : N) (db db' : Database) (document : Document)
    (cs : list ChunkArg) (documentId : Z) (chunkIds : list Z) :
  well_formed db →
  insertDocument now db document cs = (db', inr (documentId, chunkIds)) →
  map row_columns (filter (λ c, c_document_id c = documentId) (chunks db'))
  = expected_rows documentId cs 0.
Proof.
  intros [_ Hwf]. unfold insertDocument.
  destruct (insert_documents _ _ _ _ _ _) as [e|[db1 id]] eqn:Hd; [discriminate|].
  apply insert_documents_inv in Hd as (Hid & _ & Hc1 & _).
  destruct (insert_chunk_loop _ _ _ _ _) as [db2 [e|ids]] eqn:Hloop; [discriminate|].
  intros [= <- <- <-].
  apply insert_chunk_loop_rows in Hloop as (_ & _ & rows & Hrows & Hall & Hexp).
  rewrite Hrows, Hc1, filter_app, filter_none, filter_all; cbn [app].
  - apply (Hexp ids eq_refl).
  - exact Hall.
  - eapply Forall_impl; [exact Hwf|]. cbn. intros c Hc. lia.
Qed.

End Inserts.

Section StoredIndices.

Import Db.

Lemma well_formed_empty : well_formed empty.
Proof. split; constructor. Qed.

Lemma insert_chunk_loop_well_formed (cs : list ChunkArg) (db db' : Database)
    (documentId i : Z) (ids : list Z) (r : Exc (list Z)) :
  documentId ≤ seq_documents db →
  well_formed db →
  insert_chunk_loop db documentId cs i ids = (db', r) → well_formed db'.
Proof.
  intros Hid [Hd Hc] Hloop.
  apply insert_chunk_loop_rows in Hloop as (Hd' & Hs' & rows & Hrows & Hall & _).
  split.
  - rewrite Hd', Hs'. exact Hd.
  - rewrite Hrows, Hs'. apply Forall_app. split; [exact Hc|].
    eapply Forall_impl; [exact Hall|]. cbn. intros c ->. exact Hid.
Qed.

Lemma insertDocument_well_formed (now : N) (db : Database)
    (document : Document) (cs : list ChunkArg) :
  well_formed db → well_formed (fst (insertDocument now db document cs)).
Proof.
  intros Hwf. unfold insertDocument.
  destruct (insert_documents _ _ _ _ _ _) as [e|[db1 id]] eqn:Hd; [exact Hwf|].
  apply insert_documents_inv in Hd as (Hid & Hs1 & Hc1 & _ & _ & row & Hrow & Hrid).
  destruct (insert_chunk_loop _ _ _ _ _) as [db2 r] eqn:Hloop.
  assert (Hwf1 : well_formed db1).
  { destruct Hwf as [Hd Hc]. split.
    - rewrite Hrow, Hs1. apply Forall_app. split.
      + eapply Forall_impl; [exact Hd|]. cbn. intros d Hle. lia.
      + constructor; [lia|constructor].
    - rewrite Hc1, Hs1. eapply Forall_impl; [exact Hc|]. cbn. intros c Hle. lia. }
  apply insert_chunk_loop_well_formed in Hloop; [|lia|exact Hwf1].
  destruct r; exact Hloop.
Qed.

Lemma insert_many_text (l : list (Z * option (list float))) :
  ∀ db db1, insert_many db l = inr db1 →
  documents db1 = documents db ∧ chunks db1 = chunks db ∧
  chunks_fts db1 = chunks_fts db ∧ seq_documents db1 = seq_documents db ∧
  seq_chunks db1 = seq_chunks db.
Proof.
  induction l as [|[chunkId v] l IH]; intros db db1; cbn [insert_many].
  - intros [= <-]. repeat split.
  - unfold insert_embeddings. destruct v as [v|]; [|discriminate].
    destruct (existsb _ _); [|discriminate].
    intros Hrest. apply IH in Hrest. cbn in Hrest. exact Hrest.
Qed.

(** [insertEmbeddings] writes to the embeddings table only. *)
Lemma insertEmbeddings_text (db : Database)
    (l : list (Z * option (list float))) :
  let db1 := fst (insertEmbeddings db l) in
  documents db1 = documents db ∧ chunks db1 = chunks db ∧
  chunks_fts db1 = chunks_fts db ∧ seq_documents db1 = seq_documents db ∧
  seq_chunks db1 = seq_chunks db.
Proof.
  unfold insertEmbeddings. destruct (insert_many db l) as [e|db1] eqn:Hm; cbn.
  - repeat split.
  - apply insert_many_text in Hm. exact Hm.
Qed.

Lemma insertEmbeddings_well_formed (db : Database)
    (l : list (Z * option (list float))) :
  well_formed db → well_formed (fst (insertEmbeddings db l)).
Proof.
  intros [Hd Hc]. destruct (insertEmbeddings_text db l) as (Hd1 & Hc1 & _ & Hs1 & _).
  split; rewrite ?Hd1, ?Hc1, Hs1; assumption.
Qed.

Lemma deleteLibrary_well_formed (db : Database) (library : jsstring)
    (version : option jsstring) :
  well_formed db → well_formed (fst (deleteLibrary db library version)).
Proof.
  intros [Hd Hc]. unfold deleteLibrary; cbn. split.
  - apply Forall_forall. intros d Hin.
    apply list_elem_of_filter in Hin as [_ Hin].
    rewrite Forall_forall in Hd. apply Hd, Hin.
  - apply Forall_forall. intros c Hin.
    apply list_elem_of_filter in Hin as [_ Hin].
    rewrite Forall_forall in Hc. apply Hc, Hin.
Qed.

(** Every state the manager can reach is well formed. *)
Lemma reachable_well_formed (db : Database) : reachable db → well_formed db.
Proof.
  induction 1.
  - apply well_formed_empty.
  - apply insertDocument_well_formed; assumption.
  - apply insertEmbeddings_well_formed; assumption.
  - apply deleteLibrary_well_formed; assumption.
Qed.

(** C6. The chunks [splitText] emits carry the sequence indices
    [0 .. N-1] in emission order; a text that is not blank yields at least
    one chunk; and when [insertDocument] stores these chunks in a
    well-formed database, the chunk rows of the new document carry, in the
    same order, the chunk_index values [0 .. N-1] with the chunks' contents
    and heading paths. *)
Theorem chunk_indices_contiguous (this : Splitter.SimpleTextSplitter)
    (text : jsstring) (md : Splitter.Metadata) :
  let emitted := Splitter.splitText this text md in
  map Splitter.index emitted = map Z.of_nat (seq 0 (length emitted)) ∧
  (nonempty (trim text) = true → (1 ≤ length emitted)%nat) ∧
  ∀ (now : N) (db db' : Database) (document : Document) (documentId : Z)
    (chunkIds : list Z),
    well_formed db →
    insertDocument now db document (map of_chunk emitted)
      = (db', inr (documentId, chunkIds)) →
    map (λ c, (c_chunk_index c, c_content c, c_heading_path c))
      (filter (λ c, c_document_id c = documentId) (chunks db'))
    = map (λ c, (Splitter.index c, Splitter.content c, Splitter.headingPath c))
        emitted
    ∧ map c_chunk_index
        (filter (λ c, c_document_id c = documentId) (chunks db'))
      = map Z.of_nat (seq 0 (length emitted)).
Proof.
  intros emitted. subst emitted.
  pose proof (splitText_indices this text md) as Hidx.
  split; [exact Hidx|]. split; [apply splitText_nonempty|].
  intros now db db' document documentId chunkIds Hwf Hins.
  apply insertDocument_rows in Hins; [|exact Hwf].
  pose proof (expected_rows_of_chunks documentId _ 0 Hidx) as Hexp.
  change (Z.of_nat 0) with 0 in Hexp. rewrite Hexp in Hins. clear Hexp.
  set (rows := filter _ _) in *.
  assert (Hcols : map (λ c, (c_chunk_index c, c_content c, c_heading_path c)) rows
                  = map (λ c, (Splitter.index c, Splitter.content c,
                               Splitter.headingPath c))
                      (Splitter.splitText this text md)).
  { transitivity (map (λ t : Z * Z * jsstring * jsstring,
                         let '(_, i, c, h) := t in (i, c, h))
                    (map row_columns rows)).
    - rewrite map_map. reflexivity.
    - rewrite Hins, map_map. reflexivity. }
  split; [exact Hcols|].
  rewrite <- Hidx.
  transitivity (map (λ t : Z * jsstring * jsstring, t.1.1)
                  (map (λ c, (c_chunk_index c, c_content c, c_heading_path c)) rows)).
  - rewrite map_map. reflexivity.
  - rewrite Hcols, map_map. reflexivity.
Qed.

(** The scenario of the specification, stored in a fresh database. *)
Lemma intro_setup_stored :
  let emitted := Splitter.splitText Indexing.splitter Samples.intro_setup
                   Splitter.no_metadata in
  let db' := fst (insertDocument 1 empty Samples.guide (map of_chunk emitted)) in
  map Splitter.index emitted = [0; 1] ∧
  map c_chunk_index (filter (λ c, c_document_id c = 1) (chunks db')) = [0; 1].
Proof.
  intros emitted db'.
  destruct (chunk_indices_contiguous Indexing.splitter Samples.intro_setup
              Splitter.no_metadata) as (Hidx & _ & Hstored).
  split; [exact Hidx|].
  destruct (Hstored 1%N empty db' Samples.guide 1 [1; 2] well_formed_empty eq_refl)
    as [_ Hrows].
  exact Hrows.
Defined.

End StoredIndices.

(** ** Indexing: embedding failures *)

Section BestEffortEmbeddings.

Import Db Indexing.

Lemma same_text_refl (a : Database) : same_text a a.
Proof. repeat split. Qed.

Lemma insert_documents_same_text (now : N) (a b : Database)
    (t l : option jsstring) (v : jsstring) (fp : option jsstring) :
  same_text a b →
  match insert_documents now a t l v fp, insert_documents now b t l v fp with
  | inl e1, inl e2 => e1 = e2
  | inr (a1, i1), inr (b1, i2) => i1 = i2 ∧ same_text a1 b1
  | _, _ => False
  end.
Proof.
  intros (Hd & Hc & Hf & Hsd & Hsc). unfold insert_documents.
  destruct t, l; try reflexivity.
  unfold same_text; cbn. rewrite ?Hd, ?Hc, ?Hf, ?Hsd, ?Hsc. repeat split.
Qed.

Lemma insert_chunks_same_text (a b : Database) (documentId : Z)
    (text : option jsstring) (i : Z) (hp : jsstring) :
  same_text a b →
  match insert_chunks a documentId text i hp,
        insert_chunks b documentId text i hp with
  | inl e1, inl e2 => e1 = e2
  | inr (a1, i1), inr (b1, i2) => i1 = i2 ∧ same_text a1 b1
  | _, _ => False
  end.
Proof.
  intros (Hd & Hc & Hf & Hsd & Hsc). unfold insert_chunks.
  destruct text; [|reflexivity]. rewrite Hd.
  destruct (existsb _ _); [|reflexivity].
  unfold same_text; cbn. rewrite ?Hd, ?Hc, ?Hf, ?Hsd, ?Hsc. repeat split.
Qed.

Lemma insert_chunks_fts_same_text (a b : Database) (rowid : Z)
    (text hp : jsstring) :
  same_text a b →
  match insert_chunks_fts a rowid text hp, insert_chunks_fts b rowid text hp with
  | inl e1, inl e2 => e1 = e2
  | inr a1, inr b1 => same_text a1 b1
  | _, _ => False
  end.
Proof.
  intros (Hd & Hc & Hf & Hsd & Hsc). unfold insert_chunks_fts. rewrite Hf.
  destruct (existsb _ _); [reflexivity|].
  unfold same_text; cbn. rewrite ?Hd, ?Hc, ?Hf, ?Hsd, ?Hsc. repeat split.
Qed.

Lemma insert_chunk_loop_same_text (cs : list ChunkArg) :
  ∀ (a b : Database) (documentId i : Z) (ids : list Z),
  same_text a b →
  agree (insert_chunk_loop a documentId cs i ids)
        (insert_chunk_loop b documentId cs i ids).
Proof.
  induction cs as [|c cs IH]; intros a b documentId i ids Hab;
    cbn [insert_chunk_loop].
  - split; [exact Hab|reflexivity].
  - pose proof (insert_chunks_same_text a b documentId (content c) i
                  (str_or (headingPath c) []) Hab) as Hc.
    destruct (insert_chunks a _ _ _ _) as [e1|[a1 i1]],
             (insert_chunks b _ _ _ _) as [e2|[b1 i2]]; try contradiction.
    { subst. split; [exact Hab|reflexivity]. }
    destruct Hc as [<- Hab1].
    pose proof (insert_chunks_fts_same_text a1 b1 i1 (default [] (content c))
                  (str_or (headingPath c) []) Hab1) as Hf.
    destruct (insert_chunks_fts a1 _ _ _) as [e1|a2],
             (insert_chunks_fts b1 _ _ _) as [e2|b2]; try contradiction.
    { subst. split; [exact Hab1|reflexivity]. }
    apply IH, Hf.
Qed.

(** [insertDocument] neither reads nor writes the embeddings. *)
Lemma insertDocument_same_text (now : N) (a b : Database)
    (document : Document) (cs : list ChunkArg) :
  same_text a b →
  agree (insertDocument now a document cs) (insertDocument now b document cs).
Proof.
  intros Hab. unfold insertDocument.
  pose proof (insert_documents_same_text now a b (Db.title document)
                (Db.library document)
                (str_or (Db.version document) (js "latest"))
                (str_or_null (filePath document)) Hab) as Hd.
  destruct (insert_documents now a _ _ _ _) as [e1|[a1 i1]],
           (insert_documents now b _ _ _ _) as [e2|[b1 i2]]; try contradiction.
  { subst. split; [exact Hab|reflexivity]. }
  destruct Hd as [<- Hab1].
  destruct (insert_chunk_loop_same_text cs a1 b1 i1 0 [] Hab1) as [Hab2 Hr].
  destruct (insert_chunk_loop a1 _ _ _ _) as [a2 ra],
           (insert_chunk_loop b1 _ _ _ _) as [b2 rb].
  cbn in Hab2, Hr. subst rb. destruct ra; split; cbn; auto.
Qed.

(** The embedding step, whatever the service does, leaves the text. *)
Lemma embed_chunks_same_text (svc : EmbeddingsService) (db : Database)
    (cs : list Splitter.Chunk) (chunkIds : list Z) :
  same_text (embed_chunks svc db cs chunkIds).1 db.
Proof.
  unfold embed_chunks.
  destruct (generateEmbeddings svc _) as [[thrown|message]|vs]; cbn [fst];
    [apply same_text_refl|apply same_text_refl|].
  apply insertEmbeddings_text.
Qed.

(** The embedding step is left by a TypeError exactly when the service
    rejects with [undefined] or [null]. *)
Lemma embed_chunks_throws (svc : EmbeddingsService) (db : Database)
    (cs : list Splitter.Chunk) (chunkIds : list Z) (thrown : Nullish) :
  (embed_chunks svc db cs chunkIds).2 = Some thrown ↔
  generateEmbeddings svc (map Splitter.content cs) = inl (ThrownNullish thrown).
Proof.
  unfold embed_chunks.
  destruct (generateEmbeddings svc _) as [[thrown'|message]|vs]; cbn [snd];
    split; intros Heq; try discriminate; injection Heq as ->; reflexivity.
Qed.

Lemma embed_chunks_returns (svc : EmbeddingsService) (db : Database)
    (cs : list Splitter.Chunk) (chunkIds : list Z) :
  (embed_chunks svc db cs chunkIds).2 = None ↔
  ¬ rejects_bare svc (map Splitter.content cs).
Proof.
  split.
  - intros Hnone [thrown Hthrown].
    apply (embed_chunks_throws svc db cs chunkIds) in Hthrown. congruence.
  - intros Hkeeps.
    destruct (embed_chunks svc db cs chunkIds).2 as [thrown|] eqn:Hout;
      [|reflexivity].
    exfalso. apply Hkeeps. exists thrown.
    apply (embed_chunks_throws svc db cs chunkIds), Hout.
Qed.

Lemma same_text_trans (a b c : Database) :
  same_text a b → same_text b c → same_text a c.
Proof.
  intros (? & ? & ? & ? & ?) (? & ? & ? & ? & ?).
  repeat split; congruence.
Qed.

(** When the service never rejects with [undefined] or [null], the loop of
    [indexFile] and the loop without the embedding step end alike. *)
Lemma index_documents_persist (H : Host) (svc : EmbeddingsService)
    (filePath : jsstring) (options : IndexOptions)
    (docs : list LogicalDocument) :
  ∀ (a b : Database) (n total : nat) (results : list IndexedDocument),
  same_text a b →
  Forall (λ d, ¬ rejects_bare svc (chunk_texts filePath options d)) docs →
  agree (index_documents H svc filePath options a docs n total results)
        (persist_documents H filePath options b docs n total results).
Proof.
  induction docs as [|doc docs IH]; intros a b n total results Hab Hkeeps;
    cbn [index_documents persist_documents].
  - split; [exact Hab|reflexivity].
  - apply Forall_cons in Hkeeps as [Hdoc Hkeeps].
    destruct (insertDocument_same_text (clock H n) a b (as_document doc)
                (map of_chunk (chunks_of filePath options doc)) Hab)
      as [Hab1 Hr].
    destruct (insertDocument (clock H n) a _ _) as [a1 ra],
             (insertDocument (clock H n) b _ _) as [b1 rb].
    cbn in Hab1, Hr. subst rb.
    destruct ra as [e|[documentId chunkIds]].
    + split; [exact Hab1|reflexivity].
    + pose proof (embed_chunks_same_text svc a1
                    (chunks_of filePath options doc) chunkIds) as Hsame.
      apply (embed_chunks_returns svc a1 (chunks_of filePath options doc)
               chunkIds) in Hdoc.
      destruct (embed_chunks svc a1 (chunks_of filePath options doc) chunkIds)
        as [a2 out].
      cbn [fst snd] in Hsame, Hdoc. subst out.
      apply IH; [|exact Hkeeps].
      eapply same_text_trans; [exact Hsame|exact Hab1].
Qed.

(** Every operation of the loops only adds documents. *)
Lemma insertDocument_extends (now : N) (db : Database) (document : Document)
    (cs : list ChunkArg) :
  ∃ later, documents (insertDocument now db document cs).1
           = documents db ++ later.
Proof.
  unfold insertDocument.
  destruct (insert_documents now db _ _ _ _) as [e|[db1 id]] eqn:Hd.
  - exists []. cbn [fst]. rewrite app_nil_r. reflexivity.
  - apply insert_documents_inv in Hd as (_ & _ & _ & _ & _ & row & Hrow & _).
    destruct (insert_chunk_loop db1 id cs 0 []) as [db2 r] eqn:Hloop.
    apply insert_chunk_loop_rows in Hloop as (Hdocs & _).
    exists [row]. destruct r as [e|ids]; cbn [fst]; congruence.
Qed.

Lemma persist_documents_extends (H : Host) (filePath : jsstring)
    (options : IndexOptions) (docs : list LogicalDocument) :
  ∀ (db : Database) (n total : nat) (results : list IndexedDocument),
  ∃ later,
    documents (persist_documents H filePath options db docs n total results).1
    = documents db ++ later.
Proof.
  induction docs as [|doc docs IH]; intros db n total results;
    cbn [persist_documents].
  - exists []. cbn [fst]. rewrite app_nil_r. reflexivity.
  - destruct (insertDocument_extends (clock H n) db (as_document doc)
                (map of_chunk (chunks_of filePath options doc)))
      as [first Hfirst].
    destruct (insertDocument (clock H n) db _ _) as [db1 [e|[documentId chunkIds]]];
      cbn [fst] in Hfirst.
    + exists first. exact Hfirst.
    + destruct (IH db1 (S n) (total + length (chunks_of filePath options doc))%nat
                  (results ++
                     [{| documentId := documentId;
                         indexed_title := ld_title doc;
                         indexed_chunks :=
                           length (chunks_of filePath options doc) |}]))
        as [later Hlater].
      exists (first ++ later). rewrite Hlater, Hfirst, app_assoc. reflexivity.
Qed.

(** When persisting alone succeeds and the service rejects the chunk texts
    of some document with [undefined] or [null], the loop of [indexFile] is
    left by the TypeError of the handler at the first such document: the
    documents up to it are stored, those after it are not. *)
Lemma index_documents_rejected (H : Host) (svc : EmbeddingsService)
    (filePath : jsstring) (options : IndexOptions)
    (docs : list LogicalDocument) :
  ∀ (a b stored : Database) (n total : nat) (results : list IndexedDocument)
    (r : nat * list IndexedDocument),
  same_text a b →
  persist_documents H filePath options b docs n total results
    = (stored, inr r) →
  Exists (λ d, rejects_bare svc (chunk_texts filePath options d)) docs →
  ∃ thrown later,
    (index_documents H svc filePath options a docs n total results).2
    = inl (cannot_read_message H thrown) ∧
    documents stored
    = documents (index_documents H svc filePath options a docs n total results).1
      ++ later.
Proof.
  induction docs as [|doc docs IH];
    intros a b stored n total results r Hab Hpersist Hbare.
  - apply Exists_nil in Hbare. contradiction.
  - cbn [index_documents persist_documents] in Hpersist |- *.
    destruct (insertDocument_same_text (clock H n) a b (as_document doc)
                (map of_chunk (chunks_of filePath options doc)) Hab)
      as [Hab1 Hr].
    destruct (insertDocument (clock H n) a _ _) as [a1 ra],
             (insertDocument (clock H n) b _ _) as [b1 rb].
    cbn in Hab1, Hr. subst rb.
    destruct ra as [e|[documentId chunkIds]]; [discriminate|].
    pose proof (embed_chunks_same_text svc a1
                  (chunks_of filePath options doc) chunkIds) as Hsame.
    destruct (embed_chunks svc a1 (chunks_of filePath options doc) chunkIds)
      as [a2 [thrown|]] eqn:Hembed; cbn [fst] in Hsame.
    + exists thrown.
      destruct (persist_documents_extends H filePath options docs b1 (S n)
                  (total + length (chunks_of filePath options doc))%nat
                  (results ++
                     [{| documentId := documentId;
                         indexed_title := ld_title doc;
                         indexed_chunks :=
                           length (chunks_of filePath options doc) |}]))
        as [later Hlater].
      rewrite Hpersist in Hlater. cbn [fst] in Hlater.
      exists later. cbn [fst snd]. split; [reflexivity|].
      destruct Hsame as (-> & _), Hab1 as (-> & _). exact Hlater.
    + apply (IH a2 b1 stored (S n) _ _ r); [|exact Hpersist|].
      * eapply same_text_trans; [exact Hsame|exact Hab1].
      * apply Exists_cons in Hbare as [Hdoc|Hrest]; [|exact Hrest].
        exfalso.
        apply (embed_chunks_returns svc a1 (chunks_of filePath options doc)
                 chunkIds); [|exact Hdoc].
        rewrite Hembed. reflexivity.
Qed.

(** What a successful loop reports. *)
Lemma persist_documents_counts (H : Host) (filePath : jsstring)
    (options : IndexOptions) (docs : list LogicalDocument) :
  ∀ (db stored : Database) (n total total' : nat)
    (results results' : list IndexedDocument),
  persist_documents H filePath options db docs n total results
    = (stored, inr (total', results')) →
  total' = (total + sum_list (map (λ d, length (chunks_of filePath options d)) docs))%nat
  ∧ length results' = (length results + length docs)%nat.
Proof.
  induction docs as [|doc docs IH]; intros db stored n total total' results results';
    cbn [persist_documents].
  - intros [= <- <- <-]. cbn. lia.
  - destruct (insertDocument _ _ _ _) as [db1 [e|[documentId chunkIds]]];
      [discriminate|].
    intros Hrest. apply IH in Hrest as [-> ->].
    rewrite length_app. cbn. lia.
Qed.

(** C7. When persisting the documents and chunks of a file succeeds, a
    failure of the embedding step is swallowed unless the embeddings
    service rejects with [undefined] or [null].  Whatever else the service
    and the embedding inserts do (throwing included), [indexFile] reports
    success with the number of documents and the total number of their
    chunks, and the documents, chunks and index entries in the database
    are those that persisting alone leaves.  But when the service rejects
    the chunk texts of some document with [undefined] or [null], the
    handler's read of [error.message] throws: [indexFile] reports a failure
    with the message of that TypeError, and the documents after the first
    such document are not stored. *)
Theorem embedding_failures_swallowed_unless_bare (H : Host)
    (svc : EmbeddingsService) (db stored : Database) (filePath : jsstring)
    (options : IndexOptions) (content : jsstring) (totalChunks : nat)
    (results : list IndexedDocument) :
  existsSync H filePath = true →
  readFileSync H filePath = inr content →
  persist_documents H filePath options db
    (logical_documents H filePath options content) 0 0 []
    = (stored, inr (totalChunks, results)) →
  let docs := logical_documents H filePath options content in
  let outcome := indexFile H svc db filePath options in
  (Forall (λ d, ¬ rejects_bare svc (chunk_texts filePath options d)) docs →
   outcome.2 = IndexSuccess (length docs) totalChunks results ∧
   totalChunks = sum_list (map (λ d, length (chunks_of filePath options d)) docs) ∧
   length results = length docs ∧
   documents outcome.1 = documents stored ∧
   chunks outcome.1 = chunks stored ∧
   chunks_fts outcome.1 = chunks_fts stored) ∧
  (Exists (λ d, rejects_bare svc (chunk_texts filePath options d)) docs →
   ∃ thrown later,
     outcome.2 = IndexFailure (cannot_read_message H thrown) ∧
     documents stored = documents outcome.1 ++ later).
Proof.
  intros Hexists Hread Hpersist docs outcome. subst outcome.
  unfold indexFile. rewrite Hexists, Hread. cbn [negb].
  fold docs in Hpersist |- *. split.
  - intros Hkeeps.
    destruct (index_documents_persist H svc filePath options docs db db 0 0 []
                (same_text_refl db) Hkeeps) as [Hsame Hres].
    rewrite Hpersist in Hsame, Hres.
    destruct (index_documents H svc filePath options db docs 0 0 []) as [db1 r].
    cbn in Hsame, Hres. subst r. cbn.
    apply persist_documents_counts in Hpersist as [Htotal Hlen].
    destruct Hsame as (Hd & Hc & Hf & _).
    repeat split; auto.
  - intros Hbare.
    destruct (index_documents_rejected H svc filePath options docs db db stored
                0 0 [] (totalChunks, results) (same_text_refl db) Hpersist Hbare)
      as (thrown & later & Hout & Hdocs).
    exists thrown, later.
    destruct (index_documents H svc filePath options db docs 0 0 []) as [db1 r].
    cbn [fst snd] in Hout, Hdocs |- *. subst r. split; [reflexivity|exact Hdocs].
Qed.

(** Indexing [guide.md] while the embedding backend is down, and with a
    backend that rejects without a reason. *)
Lemma indexing_with_failing_embeddings :
  (Indexing.indexFile Samples.host Samples.failing_service Db.empty
     (js "guide.md") Samples.docs_options).2
  = IndexSuccess 1 2
      [{| documentId := 1; indexed_title := js "guide"; indexed_chunks := 2 |}]
  ∧
  (Indexing.indexFile Samples.host Samples.bare_rejecting_service Db.empty
     (js "guide.md") Samples.docs_options).2
  = IndexFailure (js "Cannot read properties of undefined (reading 'message')")
  ∧
  map d_title
    (documents
       (Indexing.indexFile Samples.host Samples.bare_rejecting_service Db.empty
          (js "guide.md") Samples.docs_options).1)
  = [js "guide"].
Proof.
  split.
  - apply (embedding_failures_swallowed_unless_bare Samples.host
             Samples.failing_service Db.empty
             (persist_documents Samples.host (js "guide.md")
                Samples.docs_options Db.empty
                (logical_documents Samples.host (js "guide.md")
                   Samples.docs_options Samples.intro_setup) 0 0 []).1
             (js "guide.md") Samples.docs_options Samples.intro_setup 2
             [{| documentId := 1; indexed_title := js "guide";
                 indexed_chunks := 2 |}]
             eq_refl eq_refl eq_refl).
    constructor; [|constructor]. intros [thrown Hthrown]. discriminate.
  - destruct (proj2 (embedding_failures_swallowed_unless_bare Samples.host
                       Samples.bare_rejecting_service Db.empty
                       (persist_documents Samples.host (js "guide.md")
                          Samples.docs_options Db.empty
                          (logical_documents Samples.host (js "guide.md")
                             Samples.docs_options Samples.intro_setup) 0 0 []).1
                       (js "guide.md") Samples.docs_options Samples.intro_setup 2
                       [{| documentId := 1; indexed_title := js "guide";
                           indexed_chunks := 2 |}]
                       eq_refl eq_refl eq_refl))
      as (thrown & later & Hout & _).
    + constructor. exists NUndefined. reflexivity.
    + split; [|vm_compute; reflexivity].
      rewrite Hout. destruct thrown; [reflexivity|].
      vm_compute in Hout. discriminate.
Defined.

End BestEffortEmbeddings.

(** ** Storage engine: atomicity, upsert, cascade *)

Section StorageEngine.

Import Db.

Lemma insert_documents_seq_chunks (now : N) (db db1 : Database)
    (t l : option jsstring) (v : jsstring) (fp : option jsstring) (id : Z) :
  insert_documents now db t l v fp = inr (db1, id) →
  seq_chunks db1 = seq_chunks db.
Proof.
  unfold insert_documents. destruct t, l; intros [= <- <-]. reflexivity.
Qed.

Lemma insert_chunks_ok (db : Database) (documentId : Z) (text : jsstring)
    (i : Z) (hp : jsstring) :
  (∃ d, d ∈ documents db ∧ d_id d = documentId) →
  ∃ db1 row,
    insert_chunks db documentId (Some text) i hp = inr (db1, seq_chunks db + 1) ∧
    documents db1 = documents db ∧ chunks db1 = chunks db ++ [row] ∧
    c_document_id row = documentId ∧
    chunks_fts db1 = chunks_fts db ∧ seq_chunks db1 = seq_chunks db + 1.
Proof.
  intros (d & Hd & Hid). unfold insert_chunks.
  assert (Hfk : existsb (λ d, d_id d =? documentId) (documents db) = true).
  { apply existsb_exists. exists d. split; [apply list_elem_of_In, Hd|lia]. }
  rewrite Hfk. do 2 eexists. repeat split.
Qed.

Lemma insert_chunks_fts_ok (db : Database) (rowid : Z) (text hp : jsstring) :
  Forall (λ f, f_rowid f < rowid) (chunks_fts db) →
  ∃ db1 entry,
    insert_chunks_fts db rowid text hp = inr db1 ∧
    documents db1 = documents db ∧ chunks db1 = chunks db ∧
    chunks_fts db1 = chunks_fts db ++ [entry] ∧ f_rowid entry = rowid ∧
    seq_chunks db1 = seq_chunks db.
Proof.
  intros Hfresh. unfold insert_chunks_fts.
  assert (Hfree : existsb (λ f, f_rowid f =? rowid) (chunks_fts db) = false).
  { apply not_true_iff_false. intros Hex.
    apply existsb_exists in Hex as (f & Hf & Hid).
    rewrite Forall_forall in Hfresh.
    apply list_elem_of_In, Hfresh in Hf. lia. }
  rewrite Hfree. do 2 eexists. repeat split.
Qed.

(** The loop of [insertDocument] on chunks with content followed by one
    without: it throws at that chunk, having appended a chunk row and an
    index entry for each chunk before it. *)
Lemma insert_chunk_loop_stops (pre : list ChunkArg) (bad : ChunkArg)
    (post : list ChunkArg) (documentId : Z) :
  Forall (λ ch, content ch ≠ None) pre → content bad = None →
  ∀ (db : Database) (i : Z) (ids : list Z),
  (∃ d, d ∈ documents db ∧ d_id d = documentId) → index_fresh db →
  ∃ db' rows entries,
    insert_chunk_loop db documentId (pre ++ bad :: post) i ids
    = (db', inl (js "NOT NULL constraint failed: chunks.content")) ∧
    documents db' = documents db ∧
    chunks db' = chunks db ++ rows ∧ length rows = length pre ∧
    Forall (λ c, c_document_id c = documentId) rows ∧
    chunks_fts db' = chunks_fts db ++ entries ∧ length entries = length pre.
Proof.
  intros Hpre Hbad. induction Hpre as [|ch pre Hch _ IH]; intros db i ids Hdoc Hfresh.
  - exists db, [], []. cbn [app insert_chunk_loop]. unfold insert_chunks.
    rewrite Hbad, !app_nil_r. repeat split. constructor.
  - destruct (content ch) as [text|] eqn:Htext; [|contradiction].
    destruct (insert_chunks_ok db documentId text i (str_or (headingPath ch) []) Hdoc)
      as (db1 & row & Hins & Hd1 & Hc1 & Hrow & Hf1 & Hs1).
    destruct (insert_chunks_fts_ok db1 (seq_chunks db + 1) text
                (str_or (headingPath ch) [])) as (db2 & entry & Hfts & Hd2 & Hc2 & Hf2 & _ & Hs2).
    { rewrite Hf1. eapply Forall_impl; [exact Hfresh|]. cbn. intros f Hf. lia. }
    destruct (IH db2 (i + 1) (ids ++ [seq_chunks db + 1])) as
      (db' & rows & entries & Hloop & Hd' & Hc' & Hlen & Hall & Hf' & Hlen').
    { rewrite Hd2, Hd1. exact Hdoc. }
    { unfold index_fresh. rewrite Hf2, Hs2, Hf1, Hs1. apply Forall_app. split.
      - eapply Forall_impl; [exact Hfresh|]. cbn. intros f Hf. lia.
      - constructor; [|constructor].
        unfold insert_chunks_fts in Hfts. destruct (existsb _ _); [discriminate|].
        injection Hfts as <-. cbn in Hf2. apply app_inv_head in Hf2.
        injection Hf2 as <-. cbn. lia. }
    exists db', (row :: rows), (entry :: entries).
    cbn [app insert_chunk_loop]. rewrite Htext, Hins.
    change (default [] (Some text)) with text. rewrite Hfts, Hloop.
    repeat split.
    + congruence.
    + rewrite Hc', Hc2, Hc1, <- app_assoc. reflexivity.
    + cbn. rewrite Hlen. reflexivity.
    + constructor; assumption.
    + rewrite Hf', Hf2, Hf1, <- app_assoc. reflexivity.
    + cbn. rewrite Hlen'. reflexivity.
Qed.

Lemma insert_chunks_counter (db db1 : Database) (documentId : Z)
    (text : option jsstring) (i : Z) (hp : jsstring) (id : Z) :
  insert_chunks db documentId text i hp = inr (db1, id) →
  id = seq_chunks db + 1 ∧ seq_chunks db1 = id ∧ chunks_fts db1 = chunks_fts db.
Proof.
  unfold insert_chunks. destruct text; [|discriminate].
  destruct (existsb _ _); intros [= <- <-]. repeat split.
Qed.

Lemma insert_chunks_fts_entry (db db1 : Database) (rowid : Z)
    (text hp : jsstring) :
  insert_chunks_fts db rowid text hp = inr db1 →
  seq_chunks db1 = seq_chunks db ∧
  ∃ entry, chunks_fts db1 = chunks_fts db ++ [entry] ∧ f_rowid entry = rowid.
Proof.
  unfold insert_chunks_fts. destruct (existsb _ _); intros [= <-].
  split; [reflexivity|]. eexists. split; reflexivity.
Qed.

Lemma index_fresh_grow (db db1 : Database) :
  chunks_fts db1 = chunks_fts db → seq_chunks db ≤ seq_chunks db1 →
  index_fresh db → index_fresh db1.
Proof.
  unfold index_fresh. intros -> Hle Hfresh.
  eapply Forall_impl; [exact Hfresh|]. cbn. intros f Hf. lia.
Qed.

Lemma insert_chunk_loop_index_fresh (cs : list ChunkArg) :
  ∀ (db db' : Database) (documentId i : Z) (ids : list Z) (r : Exc (list Z)),
  index_fresh db →
  insert_chunk_loop db documentId cs i ids = (db', r) → index_fresh db'.
Proof.
  induction cs as [|ch cs IH]; intros db db' documentId i ids r Hfresh;
    cbn [insert_chunk_loop].
  - intros [= <- _]. exact Hfresh.
  - destruct (insert_chunks _ _ _ _ _) as [e|[db1 chunkId]] eqn:Hc.
    { intros [= <- _]. exact Hfresh. }
    apply insert_chunks_counter in Hc as (Hid & Hs1 & Hf1).
    assert (Hfresh1 : index_fresh db1).
    { apply (index_fresh_grow db); [exact Hf1|lia|exact Hfresh]. }
    destruct (insert_chunks_fts _ _ _ _) as [e|db2] eqn:Hf.
    { intros [= <- _]. exact Hfresh1. }
    apply insert_chunks_fts_entry in Hf as (Hs2 & entry & Hf2 & Hrowid).
    apply IH. unfold index_fresh. rewrite Hf2, Hs2. apply Forall_app.
    split; [exact Hfresh1|]. constructor; [lia|constructor].
Qed.

(** Every state the manager can reach keeps the index rowids below the
    chunk counter. *)
Lemma reachable_index_fresh (db : Database) : reachable db → index_fresh db.
Proof.
  induction 1 as [|now db document cs _ IH|db l _ IH|db library version _ IH].
  - constructor.
  - unfold insertDocument.
    destruct (insert_documents _ _ _ _ _ _) as [e|[db1 id]] eqn:Hd; [exact IH|].
    pose proof (insert_documents_seq_chunks _ _ _ _ _ _ _ _ Hd) as Hsc.
    apply insert_documents_inv in Hd as (_ & _ & _ & Hf1 & _).
    destruct (insert_chunk_loop _ _ _ _ _) as [db2 r] eqn:Hloop.
    apply insert_chunk_loop_index_fresh in Hloop.
    + destruct r; exact Hloop.
    + apply (index_fresh_grow db); [exact Hf1|lia|exact IH].
  - destruct (insertEmbeddings_text db l) as (_ & _ & Hf & _ & Hs).
    apply (index_fresh_grow db); [exact Hf|lia|exact IH].
  - exact IH.
Qed.

(** C1. [insertDocument] runs its statements outside any transaction: when
    the insert of a chunk fails partway through (here: a chunk object
    without content, after chunks that have one), the call throws and the
    rows written before remain: the document row, and a chunk row and a
    full-text entry for every chunk before the failing one.  The document is
    not stored atomically. *)
Theorem insertDocument_failure_leaves_partial_document (now : N)
    (db : Database) (document : Document) (pre post : list ChunkArg)
    (bad : ChunkArg) :
  index_fresh db →
  title document ≠ None → library document ≠ None →
  Forall (λ ch, content ch ≠ None) pre → content bad = None →
  let outcome := insertDocument now db document (pre ++ bad :: post) in
  let documentId := seq_documents db + 1 in
  outcome.2 = inl (js "NOT NULL constraint failed: chunks.content") ∧
  (∃ row, documents outcome.1 = documents db ++ [row] ∧ d_id row = documentId) ∧
  (∃ rows, chunks outcome.1 = chunks db ++ rows ∧ length rows = length pre ∧
           Forall (λ c, c_document_id c = documentId) rows) ∧
  (∃ entries, chunks_fts outcome.1 = chunks_fts db ++ entries ∧
              length entries = length pre).
Proof.
  intros Hfresh Htitle Hlibrary Hpre Hbad outcome documentId. subst outcome.
  unfold insertDocument.
  destruct (title document) as [t|] eqn:Ht; [|contradiction].
  destruct (library document) as [l|] eqn:Hl; [|contradiction].
  destruct (insert_documents now db (Some t) (Some l) _ _) as [e|[db1 id]] eqn:Hd;
    [discriminate|].
  pose proof (insert_documents_seq_chunks _ _ _ _ _ _ _ _ Hd) as Hsc.
  apply insert_documents_inv in Hd as (Hid & Hs1 & Hc1 & Hf1 & _ & row & Hrow & Hrid).
  destruct (insert_chunk_loop_stops pre bad post id Hpre Hbad db1 0 [])
    as (db' & rows & entries & Hloop & Hd' & Hc' & Hlen & Hall & Hf' & Hlen').
  { exists row. split; [|exact Hrid]. rewrite Hrow. apply elem_of_app. right.
    apply list_elem_of_here. }
  { unfold index_fresh. rewrite Hf1, Hsc. exact Hfresh. }
  rewrite Hloop. cbn [fst snd]. subst documentId. rewrite <- Hid.
  split; [reflexivity|]. split; [exists row; split; congruence|].
  split; [exists rows; repeat split; congruence|].
  exists entries. split; congruence.
Qed.

(** The document [guide] with the chunk ["alpha"] and a chunk object
    without content, on a fresh database: [getDocuments] lists document 1
    with one chunk. *)
Lemma insertDocument_partial_sample :
  let outcome :=
    insertDocument 1 empty Samples.guide
      [Samples.chunk_of "alpha"; Samples.chunk_without_content] in
  outcome.2 = inl (js "NOT NULL constraint failed: chunks.content") ∧
  map d_title (documents outcome.1) = [js "Guide"] ∧
  map c_content (chunks outcome.1) = [js "alpha"] ∧
  map f_content (chunks_fts outcome.1) = [js "alpha"] ∧
  map (λ row, (d_id row.1, row.2)) (getDocuments outcome.1 None None) = [(1, 1)].
Proof.
  intros outcome. split; [|repeat split].
  apply (insertDocument_failure_leaves_partial_document 1 empty Samples.guide
           [Samples.chunk_of "alpha"] [] Samples.chunk_without_content).
  - constructor.
  - discriminate.
  - discriminate.
  - repeat constructor. discriminate.
  - reflexivity.
Defined.

Lemma insertEmbeddings_one (db : Database) (chunkId : Z) (v : list float) :
  (∃ c, c ∈ chunks db ∧ c_id c = chunkId) →
  chunks (insertEmbeddings db [(chunkId, Some v)]).1 = chunks db ∧
  ∃ id, embeddings (insertEmbeddings db [(chunkId, Some v)]).1
        = embeddings db ++
          [{| e_id := id; e_chunk_id := chunkId; e_embedding := v |}].
Proof.
  intros (c & Hc & Hid).
  unfold insertEmbeddings, insert_many, insert_embeddings.
  assert (Hfk : existsb (λ c, c_id c =? chunkId) (chunks db) = true).
  { apply existsb_exists. exists c. split; [apply list_elem_of_In, Hc|lia]. }
  rewrite Hfk. cbn. split; [reflexivity|]. eexists; reflexivity.
Qed.

(** C2. The embeddings table has no key on [chunk_id], so INSERT OR
    REPLACE never replaces: after two [insertEmbeddings] calls for an
    existing chunk, the embedding rows of that chunk are the earlier ones
    followed by both new vectors. *)
Theorem insertEmbeddings_twice_keeps_both (db : Database) (chunkId : Z)
    (v1 v2 : list float) :
  (∃ c, c ∈ chunks db ∧ c_id c = chunkId) →
  let db1 := (insertEmbeddings db [(chunkId, Some v1)]).1 in
  let db2 := (insertEmbeddings db1 [(chunkId, Some v2)]).1 in
  map e_embedding (filter (λ e, e_chunk_id e = chunkId) (embeddings db2))
  = map e_embedding (filter (λ e, e_chunk_id e = chunkId) (embeddings db))
    ++ [v1; v2].
Proof.
  intros Hchunk db1 db2.
  destruct (insertEmbeddings_one db chunkId v1 Hchunk) as (Hc1 & id1 & He1).
  fold db1 in Hc1, He1.
  assert (Hchunk1 : ∃ c, c ∈ chunks db1 ∧ c_id c = chunkId) by (rewrite Hc1; exact Hchunk).
  destruct (insertEmbeddings_one db1 chunkId v2 Hchunk1) as (_ & id2 & He2).
  fold db2 in He2.
  rewrite He2, He1, !filter_app, !map_app, <- app_assoc.
  rewrite !filter_cons_True by reflexivity. reflexivity.
Qed.

(** Two vectors for chunk 1 of the sample database. *)
Lemma insertEmbeddings_twice_sample :
  let db1 := (insertEmbeddings Samples.one_chunk_db [(1, Some [1%float])]).1 in
  let db2 := (insertEmbeddings db1 [(1, Some [2%float])]).1 in
  map e_embedding (filter (λ e, e_chunk_id e = 1) (embeddings db2))
  = [[1%float]; [2%float]].
Proof.
  intros db1 db2.
  apply (insertEmbeddings_twice_keeps_both Samples.one_chunk_db 1
           [1%float] [2%float]).
  eexists. split; [apply list_elem_of_here|reflexivity].
Defined.

Lemma delete_where_spec (library : jsstring) (version : option jsstring)
    (d : DocumentRow) :
  delete_where library version d = true ↔
  d_library d = library ∧
  ∀ v, str_or_null version = Some v → d_version d = v.
Proof.
  unfold delete_where, same. rewrite andb_true_iff, jseqb_eq.
  destruct (str_or_null version) as [v|].
  - rewrite jseqb_eq. split.
    + intros [Hl Hv]. split; [exact Hl|]. intros v' [= <-]. exact Hv.
    + intros [Hl Hv]. split; [exact Hl|]. apply Hv. reflexivity.
  - split; intros [Hl _]; (split; [exact Hl|]); [intros v [=]|reflexivity].
Qed.

Lemma elem_of_insert_by {A} (key : A → float) (x y : A) (l : list A) :
  x ∈ insert_by key y l → x = y ∨ x ∈ l.
Proof.
  induction l as [|z l IH]; cbn [insert_by].
  - intros Hx. apply list_elem_of_singleton in Hx. left; exact Hx.
  - destruct (PrimFloat.leb _ _).
    + intros Hx. apply elem_of_cons in Hx. exact Hx.
    + intros Hx. apply elem_of_cons in Hx as [->|Hx].
      * right. apply list_elem_of_here.
      * destruct (IH Hx) as [->|Hin]; [left; reflexivity|].
        right. apply list_elem_of_further, Hin.
Qed.

Lemma elem_of_order_by {A} (key : A → float) (x : A) (l : list A) :
  x ∈ order_by key l → x ∈ l.
Proof.
  induction l as [|y l IH]; cbn [order_by fold_right]; [auto|].
  intros Hx. apply elem_of_insert_by in Hx as [->|Hx].
  - apply list_elem_of_here.
  - apply list_elem_of_further, IH, Hx.
Qed.

Lemma elem_of_sql_limit {A} (n : Z) (x : A) (l : list A) :
  x ∈ sql_limit n l → x ∈ l.
Proof.
  unfold sql_limit. destruct (n <? 0); [auto|]. apply subseteq_take.
Qed.

(** Every row [searchChunks] returns is joined to a chunk of the table. *)
Lemma searchChunks_joined (E : Fts5) (db : Database) (query : jsstring)
    (limit : Z) (rows : list SearchRow) (r : SearchRow) :
  searchChunks E db query limit = inr rows → r ∈ rows →
  ∃ c, c ∈ chunks db ∧ c_id c = r_chunk_id r.
Proof.
  unfold searchChunks. destruct (fts_query_ok E query); [|discriminate].
  intros [= <-] Hr.
  apply elem_of_sql_limit, elem_of_order_by in Hr.
  apply list_elem_of_bind in Hr as (f & Hr & _).
  unfold join_row in Hr.
  apply list_elem_of_bind in Hr as (c & Hr & Hc).
  apply list_elem_of_filter in Hc as [_ Hc].
  apply list_elem_of_bind in Hr as (d & Hr & _).
  apply list_elem_of_singleton in Hr. subst r.
  exists c. split; [exact Hc|reflexivity].
Qed.

(** C3 (as amended). [deleteLibrary] deletes exactly the documents whose
    library is the given one (and whose version is the given one, when a
    version is given) and returns their number; the cascade deletes exactly
    the chunks of those documents and the embeddings of those chunks.  The
    full-text entries are not deleted: [chunks_fts] is unchanged.  What
    [searchChunks] returns afterwards is joined to surviving chunks only. *)
Theorem deleteLibrary_cascades_except_fts (db : Database) (library : jsstring)
    (version : option jsstring) :
  let deleted d := d ∈ documents db ∧ delete_where library version d = true in
  let after := (deleteLibrary db library version).1 in
  let count := (deleteLibrary db library version).2 in
  (∀ d, delete_where library version d = true ↔
        d_library d = library ∧
        ∀ v, str_or_null version = Some v → d_version d = v) ∧
  (∀ d, d ∈ documents after ↔
        d ∈ documents db ∧ delete_where library version d = false) ∧
  count = Z.of_nat (length (filter (λ d, delete_where library version d = true)
                              (documents db))) ∧
  (∀ c, c ∈ chunks after ↔
        c ∈ chunks db ∧ ¬ ∃ d, deleted d ∧ d_id d = c_document_id c) ∧
  (∀ e, e ∈ embeddings after ↔
        e ∈ embeddings db ∧
        ¬ ∃ c d, c ∈ chunks db ∧ c_id c = e_chunk_id e ∧
                 deleted d ∧ d_id d = c_document_id c) ∧
  chunks_fts after = chunks_fts db ∧
  (∀ E query limit rows r,
     searchChunks E after query limit = inr rows → r ∈ rows →
     ∃ c, c ∈ chunks after ∧ c_id c = r_chunk_id r).
Proof.
  intros deleted after count.
  assert (Horphan : ∀ c,
    existsb (λ d, d_id d =? c_document_id c)
      (filter (λ d, delete_where library version d = true) (documents db)) = true
    ↔ ∃ d, deleted d ∧ d_id d = c_document_id c).
  { intros c. rewrite existsb_exists. split.
    - intros (d & Hd & Hid). apply list_elem_of_In, list_elem_of_filter in Hd.
      exists d. split; [split; tauto|lia].
    - intros (d & [Hd Hw] & Hid). exists d. split; [|lia].
      apply list_elem_of_In, list_elem_of_filter. tauto. }
  split; [apply delete_where_spec|].
  split; [intros d; subst after; cbn; rewrite list_elem_of_filter; tauto|].
  split; [reflexivity|].
  split.
  { intros c. subst after; cbn. rewrite list_elem_of_filter, <- Horphan.
    destruct (existsb _ _); split; intros [? ?]; split; auto; congruence. }
  split.
  { intros e. subst after; cbn. rewrite list_elem_of_filter.
    rewrite <- not_true_iff_false, existsb_exists.
    split.
    - intros [Hkeep He]. split; [exact He|].
      intros (c & d & Hc & Hid & Hd & Hdoc). apply Hkeep.
      exists c. split; [|lia].
      apply list_elem_of_In, list_elem_of_filter. split; [|exact Hc].
      apply Horphan. exists d. split; assumption.
    - intros [He Hkeep]. split; [|exact He].
      intros (c & Hc & Hid). apply Hkeep.
      apply list_elem_of_In, list_elem_of_filter in Hc as [Horph Hc].
      apply Horphan in Horph as (d & Hd & Hdoc).
      exists c, d. repeat split; try apply Hd; try assumption; lia. }
  split; [reflexivity|].
  intros E query limit rows r. apply searchChunks_joined.
Qed.

(** Deleting the library of the sample database removes its document and
    its chunk 1, and leaves the full-text entry with rowid 1. *)
Lemma deleteLibrary_leaves_fts_entry :
  let after := (deleteLibrary Samples.one_chunk_db (js "docs") None).1 in
  map c_id (chunks Samples.one_chunk_db) = [1] ∧
  (deleteLibrary Samples.one_chunk_db (js "docs") None).2 = 1 ∧
  documents after = [] ∧ chunks after = [] ∧
  chunks_fts after =
    [{| f_rowid := 1; f_content := js "alpha"; f_heading_path := [] |}].
Proof. repeat split. Qed.

(** The cascade on the sample database. *)
Lemma deleteLibrary_sample_cascade :
  (deleteLibrary Samples.one_chunk_db (js "docs") None).2 = 1 ∧
  chunks_fts (deleteLibrary Samples.one_chunk_db (js "docs") None).1
  = chunks_fts Samples.one_chunk_db.
Proof.
  destruct (deleteLibrary_cascades_except_fts Samples.one_chunk_db (js "docs") None)
    as (_ & _ & Hcount & _ & _ & Hfts & _).
  split; [rewrite Hcount; reflexivity|exact Hfts].
Defined.

End StorageEngine.

(** ** Query service *)

Section QueryService.

Import Db Indexing.

(** What the shaping function reads from a row of [searchChunks]: the row
    has no [url] and no [chunk_type] property. *)
Lemma shape_row_object (r : SearchRow) :
  shape (row_object r) =
  {| res_title := JStr (r_title r);
     res_library := JStr (r_library r);
     res_version := JStr (r_version r);
     res_url := JUndefined;
     res_content := JStr (r_content r);
     res_headingPath := JStr (r_heading_path r);
     res_chunkType := JUndefined;
     res_score := js_or (JNum (r_rank r)) (JNum 0) |}.
Proof. reflexivity. Qed.

Lemma keep_result_row_object (library version : option jsstring) (r : SearchRow) :
  keep_result library version (row_object r) =
  match str_or_null library with
  | Some l => jseqb (r_library r) l
  | None => true
  end &&
  match str_or_null version with
  | Some v => jseqb (r_version r) v
  | None => true
  end.
Proof.
  unfold keep_result.
  change (get (row_object r) "library") with (JStr (r_library r)).
  change (get (row_object r) "version") with (JStr (r_version r)).
  cbn [differs]. destruct (str_or_null library), (str_or_null version);
    rewrite ?negb_involutive; reflexivity.
Qed.

(** The results of a successful search are the shaped row objects of rows
    that [searchChunks] returned for twice the limit. *)
Lemma searchDocuments_results (E : Fts5) (embeddings : option EmbeddingsService)
    (db : Database) (query : jsstring) (options : SearchOptions)
    (results : list SearchResult) (q : jsstring) (total : nat) :
  searchDocuments E embeddings db query options = SearchSuccess results q total →
  ∃ rows, searchChunks E db query (s_limit options * 2) = inr rows ∧
          ∀ res, res ∈ results → ∃ r, r ∈ rows ∧ res = shape (row_object r).
Proof.
  unfold searchDocuments.
  destruct (searchChunks E db query _) as [e|rows]; [discriminate|].
  intros Hsearch. exists rows. split; [reflexivity|].
  revert Hsearch.
  match goal with
  | |- context [match ?sem with inl _ => _ | inr _ => _ end] =>
      assert (Hsem : sem = inr (map row_object rows) ∨ ∃ e, sem = inl e);
      [|destruct Hsem as [-> | [e ->]]; [|destruct e; discriminate]]
  end.
  { destruct embeddings as [svc|]; [|left; reflexivity].
    destruct (useSemanticSearch options); [|left; reflexivity].
    destruct (generateEmbeddings svc [query]); eauto. }
  intros [= <- _ _] res Hres.
  apply list_elem_of_fmap in Hres as (obj & -> & Hobj).
  apply slice0_sublist in Hobj.
  assert (Hin : obj ∈ map row_object rows).
  { destruct (str_or_null (s_library options)), (str_or_null (s_version options));
      try exact Hobj;
      apply list_elem_of_In, filter_In in Hobj as [Hobj _];
      apply list_elem_of_In, Hobj. }
  apply list_elem_of_fmap in Hin as (r & -> & Hr).
  exists r. split; [exact Hr|reflexivity].
Qed.

(** C4. Of the eight fields of a search result, six are populated from the
    stored row: title, library, version, content, heading path and the
    score taken from the rank.  The source locator [url] and the
    content-type tag [chunkType] are [undefined] in every result, because
    the rows of [searchChunks] carry neither property. *)
Theorem search_results_lack_url_and_chunkType (E : Fts5)
    (embeddings : option EmbeddingsService) (db : Database)
    (query : jsstring) (options : SearchOptions)
    (results : list SearchResult) (q : jsstring) (total : nat) :
  searchDocuments E embeddings db query options = SearchSuccess results q total →
  Forall (λ res, res_url res = JUndefined ∧ res_chunkType res = JUndefined ∧
                 ∃ r, res_title res = JStr (r_title r) ∧
                      res_library res = JStr (r_library r) ∧
                      res_version res = JStr (r_version r) ∧
                      res_content res = JStr (r_content r) ∧
                      res_headingPath res = JStr (r_heading_path r) ∧
                      res_score res = js_or (JNum (r_rank r)) (JNum 0))
    results.
Proof.
  intros Hsearch. apply searchDocuments_results in Hsearch as (rows & _ & Hrows).
  apply Forall_forall. intros res Hres.
  destruct (Hrows res Hres) as (r & _ & ->).
  rewrite shape_row_object. cbn. repeat split. exists r. repeat split.
Qed.

(** Searching the sample database for ["alpha"]. *)
Lemma search_alpha_sample :
  searchDocuments Samples.containment_engine None Samples.one_chunk_db
    (js "alpha") (search_options None None None)
  = SearchSuccess
      [{| res_title := JStr (js "Guide");
          res_library := JStr (js "docs");
          res_version := JStr (js "latest");
          res_url := JUndefined;
          res_content := JStr (js "alpha");
          res_headingPath := JStr [];
          res_chunkType := JUndefined;
          res_score := JNum (PrimFloat.opp (PrimFloat.div 1 6)) |}]
      (js "alpha") 1
  ∧ Forall (λ res, res_url res = JUndefined ∧ res_chunkType res = JUndefined)
      [{| res_title := JStr (js "Guide");
          res_library := JStr (js "docs");
          res_version := JStr (js "latest");
          res_url := JUndefined;
          res_content := JStr (js "alpha");
          res_headingPath := JStr [];
          res_chunkType := JUndefined;
          res_score := JNum (PrimFloat.opp (PrimFloat.div 1 6)) |}].
Proof.
  assert (Hrun : searchDocuments Samples.containment_engine None
                   Samples.one_chunk_db (js "alpha")
                   (search_options None None None)
                 = SearchSuccess
                     [{| res_title := JStr (js "Guide");
                         res_library := JStr (js "docs");
                         res_version := JStr (js "latest");
                         res_url := JUndefined;
                         res_content := JStr (js "alpha");
                         res_headingPath := JStr [];
                         res_chunkType := JUndefined;
                         res_score := JNum (PrimFloat.opp (PrimFloat.div 1 6)) |}]
                     (js "alpha") 1) by (vm_compute; reflexivity).
  split; [exact Hrun|].
  pose proof (search_results_lack_url_and_chunkType _ _ _ _ _ _ _ _ Hrun) as Hall.
  eapply Forall_impl; [exact Hall|]. cbn. tauto.
Defined.

End QueryService.

(** ** Query service: filtering after the over-fetch *)

Section OverFetchWindow.

Import Db Indexing.

Variable E : Fts5.
Variable embeddings : option EmbeddingsService.
Variables query c : jsstring.

Hypothesis query_ok : fts_query_ok E query = true.
Hypothesis query_matches : fts_match E query c [] = true.
Hypothesis query_embeds : embeds_query embeddings query.

Let mine : jsstring := js "mine".
Let other : jsstring := js "other".

Lemma three_documents_reachable (l1 l2 l3 : jsstring) :
  reachable (three_documents c l1 l2 l3).
Proof. unfold three_documents. repeat apply reach_insertDocument. apply reach_empty. Qed.

Lemma three_documents_fts (l1 l2 l3 : jsstring) :
  chunks_fts (three_documents c l1 l2 l3) = corpus_fts c.
Proof. reflexivity. Qed.

(** The three rows the full-text query finds in the corpus, before ORDER BY
    and LIMIT. *)
Lemma three_documents_rows (l1 l2 l3 : jsstring) (limit : Z) :
  searchChunks E (three_documents c l1 l2 l3) query limit
  = inr (sql_limit limit
           (order_by r_rank
              [corpus_row c 1 l1 (corpus_rank E query c 1);
               corpus_row c 2 l2 (corpus_rank E query c 2);
               corpus_row c 3 l3 (corpus_rank E query c 3)])).
Proof using query_ok query_matches.
  unfold searchChunks. rewrite query_ok, three_documents_fts.
  rewrite filter_all by (repeat constructor; exact query_matches).
  reflexivity.
Qed.

(** The search of the corpus for library ["mine"] with limit 1, in terms of
    the order of the three rows. *)
Lemma three_documents_search (l1 l2 l3 : jsstring) :
  searchDocuments E embeddings (three_documents c l1 l2 l3) query
      (search_options (Some mine) None (Some 1))
    = let rows := take 2 (order_by r_rank
                            [corpus_row c 1 l1 (corpus_rank E query c 1);
                             corpus_row c 2 l2 (corpus_rank E query c 2);
                             corpus_row c 3 l3 (corpus_rank E query c 3)]) in
      let kept := slice0 (List.filter (λ r, jseqb (r_library r) mine) rows) 1 in
      SearchSuccess (map (λ r, shape (row_object r)) kept) query (length kept).
Proof using query_ok query_matches query_embeds.
  change (search_options (Some mine) None (Some 1))
    with {| s_library := Some mine; s_version := None; s_limit := 1;
            useSemanticSearch := true |}.
  unfold searchDocuments.
  cbn [s_limit s_library s_version useSemanticSearch].
  change (1 * 2) with 2. rewrite three_documents_rows.
  change (sql_limit 2 ?l) with (take 2 l).
  set (rows := take _ _).
  assert (Hsem : match embeddings with
                 | Some svc =>
                     match generateEmbeddings svc [query] with
                     | inl e => inl e
                     | inr _ => inr (map row_object rows)
                     end
                 | None => inr (map row_object rows)
                 end = inr (map row_object rows)).
  { destruct embeddings as [svc|]; [|reflexivity].
    destruct query_embeds as [v ->]. reflexivity. }
  rewrite Hsem.
  change (str_or_null (Some mine)) with (Some mine). cbv iota.
  assert (Hfilter : ∀ l,
            List.filter (keep_result (Some mine) None) (map row_object l)
            = map row_object (List.filter (λ r, jseqb (r_library r) mine) l)).
  { induction l as [|r l IH]; [reflexivity|].
    cbn [map List.filter]. rewrite keep_result_row_object, IH.
    change (str_or_null (Some mine)) with (Some mine). cbn [str_or_null].
    rewrite andb_true_r. destruct (jseqb _ _); reflexivity. }
  assert (Hslice : ∀ l : list SearchRow,
            slice0 (map row_object l) 1 = map row_object (slice0 l 1)).
  { intros l. unfold slice0. rewrite length_map, <- firstn_map. reflexivity. }
  rewrite Hfilter. unfold slice_limit.
  rewrite Hslice, map_map, length_map. subst rows. reflexivity.
Qed.

Ltac assign_libraries l1 l2 l3 H23 H12 H13 Hcount :=
  exists l1, l2, l3; split;
  [ do 2 eexists; split; [apply three_documents_search|];
    cbn [order_by fold_right insert_by Db.r_rank corpus_row];
    rewrite ?H23; cbv iota;
    cbn [insert_by Db.r_rank corpus_row];
    rewrite ?H12; cbv iota;
    cbn [insert_by Db.r_rank corpus_row];
    rewrite ?H13; cbv iota; reflexivity
  | rewrite Hcount; reflexivity ].

(** Whichever of the three rows the engine ranks last, giving its document
    the library ["mine"] and the other two the library ["other"] empties
    the filtered search. *)
Lemma some_library_assignment_misses :
  ∃ l1 l2 l3 : jsstring,
    (∃ results total,
       searchDocuments E embeddings (three_documents c l1 l2 l3) query
         (search_options (Some mine) None (Some 1))
       = SearchSuccess results query total ∧ length results = 0%nat) ∧
    length (matching_chunks E (three_documents c l1 l2 l3) query mine) = 1%nat.
Proof using query_ok query_matches query_embeds.
  assert (Hcount : ∀ l1 l2 l3,
            matching_chunks E (three_documents c l1 l2 l3) query mine
            = List.filter (λ ch, existsb (λ d, (d_id d =? c_document_id ch)
                                               && same (d_library d) mine)
                                   (documents (three_documents c l1 l2 l3)))
                (chunks (three_documents c l1 l2 l3))).
  { intros l1 l2 l3. unfold matching_chunks. apply filter_ext_in.
    intros ch Hch. unfold matches_in_library.
    rewrite three_documents_fts.
    assert (Hfts : existsb (λ f, (f_rowid f =? c_id ch)
                                 && fts_match E query (f_content f) (f_heading_path f))
                     (corpus_fts c) = true).
    { cbn in Hch. cbn [corpus_fts existsb f_rowid f_content f_heading_path].
      rewrite query_matches.
      destruct Hch as [<-|[<-|[<-|[]]]]; cbn; rewrite ?orb_true_r; reflexivity. }
    rewrite Hfts. reflexivity. }
  destruct (PrimFloat.leb (corpus_rank E query c 2) (corpus_rank E query c 3)) eqn:H23;
  destruct (PrimFloat.leb (corpus_rank E query c 1) (corpus_rank E query c 2)) eqn:H12;
  destruct (PrimFloat.leb (corpus_rank E query c 1) (corpus_rank E query c 3)) eqn:H13.
  - assign_libraries other other mine H23 H12 H13 Hcount.
  - assign_libraries other other mine H23 H12 H13 Hcount.
  - assign_libraries other other mine H23 H12 H13 Hcount.
  - assign_libraries mine other other H23 H12 H13 Hcount.
  - assign_libraries other mine other H23 H13 H12 Hcount.
  - assign_libraries other mine other H23 H13 H12 Hcount.
  - assign_libraries other mine other H23 H13 H12 Hcount.
  - assign_libraries mine other other H23 H13 H12 Hcount.
Qed.

(** C9. Filtering by library happens after the full-text query has been cut
    to twice the limit.  For every engine and every query that matches some
    chunk content, there are a corpus (reachable by three [insertDocument]
    calls), a library and a limit such that the search with that library
    filter returns fewer results than the limit, although at least as many
    chunks of that library as the limit match the query. *)
Theorem filtered_search_misses_matches :
  ∃ (db : Database) (library : jsstring) (limit : Z),
    reachable db ∧
    (∃ results total,
       searchDocuments E embeddings db query
         (search_options (Some library) None (Some limit))
       = SearchSuccess results query total ∧
       Z.of_nat (length results) < limit) ∧
    limit ≤ Z.of_nat (length (matching_chunks E db query library)).
Proof using query_ok query_matches query_embeds.
  destruct some_library_assignment_misses
    as (l1 & l2 & l3 & (results & total & Hsearch & Hnone) & Hmatching).
  exists (three_documents c l1 l2 l3), mine, 1.
  split; [apply three_documents_reachable|]. split.
  - exists results, total. split; [exact Hsearch|]. rewrite Hnone. reflexivity.
  - rewrite Hmatching. reflexivity.
Qed.

End OverFetchWindow.

(** The containment engine, the mock embeddings and the query ["alpha"]. *)
Lemma filtered_search_misses_alpha :
  ∃ (db : Db.Database) (library : jsstring) (limit : Z),
    Db.reachable db ∧
    (∃ results total,
       Indexing.searchDocuments Samples.containment_engine
         (Some (Indexing.mock_service Samples.cubic_sin)) db (js "alpha")
         (Indexing.search_options (Some library) None (Some limit))
       = Indexing.SearchSuccess results (js "alpha") total ∧
       Z.of_nat (length results) < limit) ∧
    limit ≤ Z.of_nat (length (Db.matching_chunks Samples.containment_engine db
                                (js "alpha") library)).
Proof.
  apply (filtered_search_misses_matches Samples.containment_engine
           (Some (Indexing.mock_service Samples.cubic_sin))
           (js "alpha") (js "alpha")).
  - reflexivity.
  - reflexivity.
  - eexists. reflexivity.
Defined.

(** * Further properties *)

(** ** Whitespace and trimming *)

Section Trimming.

Lemma ink_app (s t : jsstring) : ink (s ++ t) = ink s ++ ink t.
Proof. apply List.filter_app. Qed.

Lemma ink_drop_spaces (s : jsstring) : ink (drop_spaces s) = ink s.
Proof.
  induction s as [|c s IH]; [reflexivity|]. cbn [drop_spaces].
  destruct (is_space c) eqn:Hc; [|reflexivity].
  rewrite IH. unfold ink. cbn [List.filter]. rewrite Hc. reflexivity.
Qed.

Lemma ink_rev (s : jsstring) : ink (rev s) = rev (ink s).
Proof. apply List.filter_rev. Qed.

(** Trimming removes whitespace only. *)
Lemma ink_trim (s : jsstring) : ink (trim s) = ink s.
Proof.
  unfold trim.
  rewrite ink_rev, ink_drop_spaces, ink_rev, rev_involutive, ink_drop_spaces.
  reflexivity.
Qed.

Lemma drop_spaces_nil (s : jsstring) : drop_spaces s = [] ↔ ink s = [].
Proof.
  induction s as [|c s IH]; [tauto|]. unfold ink. cbn [drop_spaces List.filter].
  destruct (is_space c); cbn [negb]; [exact IH|]. split; discriminate.
Qed.

Lemma trim_nil (s : jsstring) : trim s = [] ↔ ink s = [].
Proof.
  unfold trim. split.
  - intros Hnil. apply (f_equal (@rev N)) in Hnil.
    rewrite rev_involutive in Hnil. cbn in Hnil.
    apply drop_spaces_nil in Hnil. rewrite ink_rev, ink_drop_spaces in Hnil.
    apply (f_equal (@rev N)) in Hnil. rewrite rev_involutive in Hnil. exact Hnil.
  - intros Hnil.
    assert (Hd : drop_spaces (rev (drop_spaces s)) = []).
    { apply drop_spaces_nil. rewrite ink_rev, ink_drop_spaces, Hnil. reflexivity. }
    rewrite Hd. reflexivity.
Qed.

Lemma nonempty_trim (s : jsstring) : nonempty (trim s) = nonempty (ink s).
Proof.
  destruct (trim s) as [|c t] eqn:Ht.
  - apply trim_nil in Ht. rewrite Ht. reflexivity.
  - destruct (ink s) eqn:Hi; [|reflexivity].
    apply trim_nil in Hi. congruence.
Qed.

Lemma nonempty_app_ink (s t : jsstring) :
  nonempty (ink (s ++ t)) = nonempty (ink s) || nonempty (ink t).
Proof. rewrite ink_app. destruct (ink s), (ink t); reflexivity. Qed.

Lemma drop_spaces_head (s : jsstring) :
  drop_spaces s = s ↔
  match s with [] => True | c :: _ => is_space c = false end.
Proof.
  destruct s as [|c s]; [tauto|]. cbn [drop_spaces].
  destruct (is_space c) eqn:Hc; [|tauto]. split; [|discriminate].
  intros Heq. exfalso.
  assert (Hlen : (length (drop_spaces s) ≤ length s)%nat).
  { clear. induction s as [|d s IH]; cbn; [lia|]. destruct (is_space d); cbn; lia. }
  rewrite Heq in Hlen. cbn in Hlen. lia.
Qed.

Lemma drop_spaces_suffix (s : jsstring) : ∃ pre, s = pre ++ drop_spaces s.
Proof.
  induction s as [|c s [pre IH]]; [exists []; reflexivity|]. cbn [drop_spaces].
  destruct (is_space c).
  - exists (c :: pre). cbn. rewrite <- IH. reflexivity.
  - exists []. reflexivity.
Qed.

Lemma drop_spaces_idem (s : jsstring) :
  drop_spaces (drop_spaces s) = drop_spaces s.
Proof.
  induction s as [|c s IH]; [reflexivity|]. cbn [drop_spaces].
  destruct (is_space c) eqn:Hc; [exact IH|]. cbn [drop_spaces]. rewrite Hc.
  reflexivity.
Qed.

(** A trimmed string starts and ends with something that is not whitespace. *)
Lemma trim_trimmed (s : jsstring) :
  drop_spaces (trim s) = trim s ∧ drop_spaces (rev (trim s)) = rev (trim s).
Proof.
  unfold trim. set (t := drop_spaces s). set (u := drop_spaces (rev t)).
  split.
  - apply drop_spaces_head.
    destruct (drop_spaces_suffix (rev t)) as [pre Hpre]. fold u in Hpre.
    apply (f_equal (@rev N)) in Hpre. rewrite rev_involutive, rev_app_distr in Hpre.
    destruct (rev u) as [|c r] eqn:Hu; [exact I|].
    assert (Ht : drop_spaces t = t) by apply drop_spaces_idem.
    apply drop_spaces_head in Ht. rewrite Hpre in Ht. exact Ht.
  - rewrite rev_involutive. apply drop_spaces_idem.
Qed.

Lemma trim_fixed (s : jsstring) :
  drop_spaces s = s → drop_spaces (rev s) = rev s → trim s = s.
Proof. intros H1 H2. unfold trim. rewrite H1, H2. apply rev_involutive. Qed.

Lemma trim_idem (s : jsstring) : trim (trim s) = trim s.
Proof. destruct (trim_trimmed s) as [H1 H2]. apply trim_fixed; assumption. Qed.

(** A trimmed paragraph followed by a blank line trims back to itself. *)
Lemma trim_blank_line (s : jsstring) :
  nonempty (trim s) = true → trim (trim s ++ Splitter.blank_line) = trim s.
Proof.
  intros Hne. destruct (trim_trimmed s) as [H1 H2].
  set (p := trim s) in *. unfold trim at 1.
  assert (Hhead : drop_spaces (p ++ Splitter.blank_line) = p ++ Splitter.blank_line).
  { apply drop_spaces_head. apply drop_spaces_head in H1.
    destruct p; [discriminate|exact H1]. }
  rewrite Hhead, rev_app_distr. cbn [Splitter.blank_line rev app drop_spaces].
  change (is_space 10) with true. cbv iota. rewrite H2. apply rev_involutive.
Qed.

Lemma length_drop_spaces (s : jsstring) : (length (drop_spaces s) ≤ length s)%nat.
Proof.
  induction s as [|d s IH]; cbn; [lia|]. destruct (is_space d); cbn; lia.
Qed.

Lemma length_trim (s : jsstring) : (length (trim s) ≤ length s)%nat.
Proof.
  unfold trim. rewrite length_rev.
  etransitivity; [apply length_drop_spaces|]. rewrite length_rev.
  apply length_drop_spaces.
Qed.

End Trimming.

(** ** Chunker: what the chunks contain *)

Section ChunkContents.

Import Splitter.

Lemma last_newline_spaces (s : jsstring) :
  ∀ (pos : nat) (best : option nat) (k : nat),
  last_newline_in_spaces s pos best = Some k →
  best = Some k ∨ Forall (λ c, is_space c = true) (take (k - pos) s).
Proof.
  induction s as [|c s IH]; intros pos best k; cbn [last_newline_in_spaces].
  - intros ->. left; reflexivity.
  - destruct (is_space c) eqn:Hc; [|intros ->; left; reflexivity].
    intros Hrec. apply IH in Hrec as [Hbest|Hspaces].
    + destruct (c =? 10)%N.
      * injection Hbest as <-. right.
        replace (S pos - pos)%nat with 1%nat by lia. cbn. repeat constructor. exact Hc.
      * left. exact Hbest.
    + right. destruct (k - pos)%nat as [|n] eqn:Hk; [constructor|].
      cbn [take]. constructor; [exact Hc|].
      replace n with (k - S pos)%nat by lia. exact Hspaces.
Qed.

Lemma blank_line_match_spaces (c : N) (s : jsstring) (k : nat) :
  blank_line_match (c :: s) = Some k →
  is_space c = true ∧ Forall (λ c, is_space c = true) (take k s).
Proof.
  cbn [blank_line_match]. destruct (N.eqb_spec c 10) as [->|_]; [|discriminate].
  intros Hk. split; [reflexivity|].
  apply last_newline_spaces in Hk as [Hnone|Hspaces]; [discriminate|].
  rewrite Nat.sub_0_r in Hspaces. exact Hspaces.
Qed.

Lemma ink_space (c : N) (s : jsstring) : is_space c = true → ink (c :: s) = ink s.
Proof. intros Hc. unfold ink. cbn [List.filter]. rewrite Hc. reflexivity. Qed.

(** Splitting into paragraphs removes whitespace only. *)
Lemma ink_para_go (s : jsstring) :
  ∀ (skip : nat) (cur : jsstring),
  Forall (λ c, is_space c = true) (take skip s) →
  ink (concat (para_go skip cur s)) = ink cur ++ ink s.
Proof.
  induction s as [|c s IH]; intros skip cur Hskip; cbn [para_go].
  - cbn [concat]. change (ink []) with (@nil N). rewrite !app_nil_r. reflexivity.
  - destruct skip as [|k].
    + destruct (blank_line_match (c :: s)) as [k|] eqn:Hm.
      * apply blank_line_match_spaces in Hm as [Hc Hspaces].
        cbn [concat]. rewrite ink_app, (IH k [] Hspaces), (ink_space c s Hc).
        reflexivity.
      * rewrite (IH 0%nat (cur ++ [c])) by constructor.
        rewrite ink_app, <- app_assoc, <- (ink_app [c] s). reflexivity.
    + cbn [take] in Hskip. apply Forall_cons in Hskip as [Hc Hspaces].
      rewrite (IH k cur Hspaces), (ink_space c s Hc). reflexivity.
Qed.

Lemma ink_split_paragraphs (text : jsstring) :
  ink (concat (split_paragraphs text)) = ink text.
Proof. apply (ink_para_go text 0 []). constructor. Qed.

Lemma ink_blank_line (s : jsstring) : ink (s ++ blank_line) = ink s.
Proof. rewrite ink_app. cbn. apply app_nil_r. Qed.

Lemma ink_contents_snoc (cs : list Chunk) (c : Chunk) :
  ink (concat (map content (cs ++ [c])))
  = ink (concat (map content cs)) ++ ink (content c).
Proof. rewrite map_app, concat_app, ink_app. cbn. rewrite app_nil_r. reflexivity. Qed.

Lemma ink_nil_of_blank (s : jsstring) : nonempty (trim s) = false → ink s = [].
Proof. rewrite nonempty_trim. destruct (ink s); [reflexivity|discriminate]. Qed.

(** One step of the loop moves the non-whitespace of the paragraph into the
    chunks and the buffer, and nothing else. *)
Lemma ink_split_step (this : SimpleTextSplitter) (md : Metadata)
    (st : SplitState) (paragraph : jsstring) :
  let st' := split_step this md st paragraph in
  ink (concat (map content (chunks st'))) ++ ink (currentChunk st')
  = (ink (concat (map content (chunks st))) ++ ink (currentChunk st))
    ++ ink paragraph.
Proof.
  unfold split_step.
  destruct (nonempty (trim paragraph)) eqn:Hp; cbn [negb].
  2:{ cbn zeta. rewrite (ink_nil_of_blank paragraph Hp), app_nil_r. reflexivity. }
  destruct (heading_match (trim paragraph)) as [[level headingText]|].
  - destruct (nonempty (trim (currentChunk st))) eqn:Hcur; cbn.
    + rewrite ink_contents_snoc. cbn [createChunk content].
      rewrite ink_blank_line, !ink_trim. reflexivity.
    + rewrite ink_blank_line, ink_trim, (ink_nil_of_blank _ Hcur), app_nil_r.
      reflexivity.
  - destruct (_ && _); cbn.
    + rewrite ink_contents_snoc. cbn [createChunk content].
      rewrite ink_blank_line, !ink_trim. reflexivity.
    + rewrite ink_app, ink_blank_line, ink_trim, !app_assoc. reflexivity.
Qed.

Lemma ink_split_fold (this : SimpleTextSplitter) (md : Metadata)
    (paragraphs : list jsstring) :
  ∀ st,
  let st' := fold_left (split_step this md) paragraphs st in
  ink (concat (map content (chunks st'))) ++ ink (currentChunk st')
  = (ink (concat (map content (chunks st))) ++ ink (currentChunk st))
    ++ ink (concat paragraphs).
Proof.
  induction paragraphs as [|p ps IH]; intros st; cbn [fold_left concat].
  - cbn. rewrite app_nil_r. reflexivity.
  - cbn zeta in *. rewrite IH, ink_split_step, ink_app, !app_assoc. reflexivity.
Qed.

(** After the last flush the chunks hold all the non-whitespace of the
    text. *)
Lemma ink_split_final (this : SimpleTextSplitter) (text : jsstring)
    (md : Metadata) :
  ink (concat (map content (chunks (split_final this text md)))) = ink text.
Proof.
  unfold split_final.
  pose proof (ink_split_fold this md (split_paragraphs text) split_init) as Hfold.
  cbn zeta in Hfold. set (st := fold_left _ _ _) in *.
  rewrite ink_split_paragraphs in Hfold. cbn in Hfold.
  destruct (nonempty (trim (currentChunk st))) eqn:Hcur.
  - cbn [flush chunks]. rewrite ink_contents_snoc. cbn [createChunk content].
    rewrite ink_trim. exact Hfold.
  - rewrite (ink_nil_of_blank _ Hcur), app_nil_r in Hfold. exact Hfold.
Qed.

(** The fallback of [splitText] for an empty result never adds a chunk: a
    text that is not blank has already produced one. *)
Lemma splitText_final (this : SimpleTextSplitter) (text : jsstring)
    (md : Metadata) :
  splitText this text md = chunks (split_final this text md).
Proof.
  pose proof (ink_split_final this text md) as Hink.
  unfold splitText. fold (split_final this text md).
  destruct (chunks (split_final this text md)) as [|c cs] eqn:Hcs; [|reflexivity].
  cbn in Hink. cbn [length Nat.eqb andb].
  rewrite nonempty_trim, <- Hink. reflexivity.
Qed.

End ChunkContents.

Section ChunkShape.

Import Splitter.

(** X1. Chunking loses and adds no text: the non-whitespace code units of
    the chunk contents, read in chunk order, are exactly those of the input
    text. *)
Theorem splitText_preserves_text (this : SimpleTextSplitter) (text : jsstring)
    (md : Metadata) :
  ink (concat (map content (splitText this text md))) = ink text.
Proof. rewrite splitText_final. apply ink_split_final. Qed.

(** A content that [splitText] stores: trimmed and not empty. *)
Lemma flush_trimmed (md : Metadata) (st : SplitState) (next : jsstring) :
  nonempty (trim (currentChunk st)) = true →
  Forall (λ c, content c ≠ [] ∧ trim (content c) = content c) (chunks st) →
  Forall (λ c, content c ≠ [] ∧ trim (content c) = content c)
    (chunks (flush md st next)).
Proof.
  intros Hcur Hall. cbn [flush chunks]. apply Forall_app. split; [exact Hall|].
  constructor; [|constructor]. cbn [createChunk content]. split.
  - destruct (trim (currentChunk st)); [discriminate|discriminate].
  - apply trim_idem.
Qed.

Lemma split_step_trimmed (this : SimpleTextSplitter) (md : Metadata)
    (st : SplitState) (paragraph : jsstring) :
  Forall (λ c, content c ≠ [] ∧ trim (content c) = content c) (chunks st) →
  Forall (λ c, content c ≠ [] ∧ trim (content c) = content c)
    (chunks (split_step this md st paragraph)).
Proof.
  intros Hall. unfold split_step.
  destruct (negb (nonempty (trim paragraph))); [exact Hall|].
  destruct (heading_match (trim paragraph)) as [[level headingText]|].
  - destruct (nonempty (trim (currentChunk st))) eqn:Hcur; cbn [chunks].
    + apply (flush_trimmed md st [] Hcur Hall).
    + exact Hall.
  - destruct (Z.of_nat _ >? _); cbn [andb chunks]; [|exact Hall].
    destruct (nonempty (trim (currentChunk st))) eqn:Hcur; [|exact Hall].
    apply flush_trimmed; assumption.
Qed.

Lemma split_final_trimmed (this : SimpleTextSplitter) (text : jsstring)
    (md : Metadata) :
  Forall (λ c, content c ≠ [] ∧ trim (content c) = content c)
    (chunks (split_final this text md)).
Proof.
  unfold split_final.
  assert (Hfold : ∀ ps st,
            Forall (λ c, content c ≠ [] ∧ trim (content c) = content c) (chunks st) →
            Forall (λ c, content c ≠ [] ∧ trim (content c) = content c)
              (chunks (fold_left (split_step this md) ps st))).
  { induction ps as [|p ps IH]; intros st Hst; [exact Hst|].
    apply IH, split_step_trimmed, Hst. }
  specialize (Hfold (split_paragraphs text) split_init (Forall_nil_2 _)).
  destruct (nonempty (trim (currentChunk _))) eqn:Hcur; [|exact Hfold].
  apply flush_trimmed; assumption.
Qed.

(** X2. Every chunk [splitText] emits has a content that is not empty and
    has no leading or trailing whitespace (trimming it changes nothing). *)
Theorem splitText_contents_trimmed (this : SimpleTextSplitter)
    (text : jsstring) (md : Metadata) :
  Forall (λ c, content c ≠ [] ∧ trim (content c) = content c)
    (splitText this text md).
Proof. rewrite splitText_final. apply split_final_trimmed. Qed.

(** X3. [splitText] returns no chunk exactly when the text is blank (empty
    or whitespace only). *)
Theorem splitText_empty_iff_blank (this : SimpleTextSplitter)
    (text : jsstring) (md : Metadata) :
  splitText this text md = [] ↔ nonempty (trim text) = false.
Proof.
  split.
  - intros Hnil. destruct (nonempty (trim text)) eqn:Htext; [|reflexivity].
    apply (splitText_nonempty this text md) in Htext.
    rewrite Hnil in Htext. cbn in Htext. lia.
  - intros Hblank. apply ink_nil_of_blank in Hblank.
    pose proof (ink_split_final this text md) as Hink.
    pose proof (split_final_trimmed this text md) as Htrim.
    rewrite splitText_final.
    destruct (chunks (split_final this text md)) as [|c cs]; [reflexivity|].
    exfalso. apply Forall_cons in Htrim as [[Hne Hfix] _].
    rewrite Hblank in Hink. cbn [map concat] in Hink. rewrite ink_app in Hink.
    apply app_eq_nil in Hink as [Hc _].
    apply trim_nil in Hc. rewrite Hfix in Hc. contradiction.
Qed.

(** X4. The fallback of [splitText] ("if no chunks were created, create one
    from the entire text") is never needed: for a text that is not blank,
    the paragraph loop and the last flush have already produced a chunk. *)
Theorem splitText_fallback_unused (this : SimpleTextSplitter)
    (text : jsstring) (md : Metadata) :
  nonempty (trim text) = true → chunks (split_final this text md) ≠ [].
Proof.
  intros Htext Hnil. pose proof (ink_split_final this text md) as Hink.
  rewrite Hnil in Hink. cbn in Hink.
  rewrite nonempty_trim, <- Hink in Htext. discriminate.
Qed.

Lemma splitText_fallback_unused_sample :
  nonempty (trim Samples.intro_setup) = true ∧
  chunks (split_final Indexing.splitter Samples.intro_setup no_metadata) ≠ [].
Proof.
  split; [reflexivity|].
  apply splitText_fallback_unused. reflexivity.
Defined.

Lemma buffer_fits_single (this : SimpleTextSplitter) (ps : list jsstring)
    (p : jsstring) :
  p ∈ ps → nonempty (trim p) = true →
  buffer_fits this ps (trim p ++ blank_line).
Proof. intros Hin Hp. right. left. exists p. repeat split; assumption. Qed.

Lemma flush_fits (this : SimpleTextSplitter) (md : Metadata)
    (ps : list jsstring) (st : SplitState) (next : jsstring) :
  nonempty (trim (currentChunk st)) = true →
  buffer_fits this ps (currentChunk st) →
  Forall (chunk_fits this ps) (chunks st) →
  Forall (chunk_fits this ps) (chunks (flush md st next)).
Proof.
  intros Hcur Hbuf Hall. cbn [flush chunks]. apply Forall_app. split; [exact Hall|].
  constructor; [|constructor]. unfold chunk_fits. cbn [createChunk content].
  destruct Hbuf as [Hnil|[(p & Hin & Hp & Heq)|[Hlen _]]].
  - rewrite Hnil in Hcur. discriminate.
  - right. exists p. split; [exact Hin|]. rewrite Heq. apply trim_blank_line, Hp.
  - left. pose proof (length_trim (currentChunk st)). lia.
Qed.

Lemma split_step_fits (this : SimpleTextSplitter) (md : Metadata)
    (ps : list jsstring) (st : SplitState) (paragraph : jsstring) :
  paragraph ∈ ps →
  buffer_fits this ps (currentChunk st) ∧
  Forall (chunk_fits this ps) (chunks st) →
  buffer_fits this ps (currentChunk (split_step this md st paragraph)) ∧
  Forall (chunk_fits this ps) (chunks (split_step this md st paragraph)).
Proof.
  intros Hin [Hbuf Hall]. unfold split_step.
  destruct (nonempty (trim paragraph)) eqn:Hp; cbn [negb]; [|split; assumption].
  destruct (heading_match (trim paragraph)) as [[level headingText]|].
  - cbn [currentChunk chunks]. split; [apply buffer_fits_single; assumption|].
    destruct (nonempty (trim (currentChunk st))) eqn:Hcur; [|exact Hall].
    apply flush_fits; assumption.
  - destruct (Z.of_nat (length (currentChunk st ++ trim paragraph ++ blank_line))
                >? maxChunkSize this) eqn:Hbig; cbn [andb].
    + destruct (nonempty (trim (currentChunk st))) eqn:Hcur.
      * cbn [flush currentChunk]. split; [apply buffer_fits_single; assumption|].
        apply (flush_fits this md ps st _ Hcur Hbuf Hall).
      * cbn [currentChunk chunks]. split; [|exact Hall].
        destruct Hbuf as [Hnil|[(q & _ & Hq & Heq)|[_ Hne]]]; [| |congruence].
        -- rewrite Hnil. cbn [app]. apply buffer_fits_single; assumption.
        -- rewrite Heq, trim_blank_line in Hcur by exact Hq. congruence.
    + cbn [currentChunk chunks]. split; [|exact Hall].
      right. right. split; [lia|].
      rewrite nonempty_trim, !nonempty_app_ink, <- (nonempty_trim (trim paragraph)),
        trim_idem, Hp.
      rewrite orb_true_r. reflexivity.
Qed.

Lemma split_fold_fits (this : SimpleTextSplitter) (md : Metadata)
    (ps : list jsstring) :
  ∀ (l : list jsstring) (st : SplitState),
  (∀ p, p ∈ l → p ∈ ps) →
  buffer_fits this ps (currentChunk st) ∧
  Forall (chunk_fits this ps) (chunks st) →
  buffer_fits this ps (currentChunk (fold_left (split_step this md) l st)) ∧
  Forall (chunk_fits this ps) (chunks (fold_left (split_step this md) l st)).
Proof.
  induction l as [|p l IH]; intros st Hsub Hst; [exact Hst|].
  cbn [fold_left]. apply IH.
  - intros q Hq. apply Hsub, list_elem_of_further, Hq.
  - apply split_step_fits; [apply Hsub, list_elem_of_here|exact Hst].
Qed.

(** X5. A chunk exceeds the maximum chunk size only when it consists of a
    single paragraph: the content of every chunk is at most [maxChunkSize]
    code units long, or it is one (trimmed) paragraph of the text. *)
Theorem splitText_chunk_size (this : SimpleTextSplitter) (text : jsstring)
    (md : Metadata) :
  Forall (λ c, Z.of_nat (length (content c)) ≤ maxChunkSize this ∨
               ∃ p, p ∈ split_paragraphs text ∧ content c = trim p)
    (splitText this text md).
Proof.
  rewrite splitText_final. unfold split_final.
  destruct (split_fold_fits this md (split_paragraphs text)
              (split_paragraphs text) split_init) as [Hbuf Hall].
  { auto. }
  { split; [left; reflexivity|constructor]. }
  destruct (nonempty (trim (currentChunk _))) eqn:Hcur; [|exact Hall].
  apply (flush_fits this md (split_paragraphs text)); assumption.
Qed.

End ChunkShape.

(** ** Embedding provider: the rolling hash *)

Section RollingHash.

Import Mock.

Lemma toInt32_range (z : Z) : - 2 ^ 31 ≤ toInt32 z < 2 ^ 31.
Proof.
  unfold toInt32. pose proof (Z.mod_pos_bound (z + 2 ^ 31) (2 ^ 32)). lia.
Qed.

Lemma toInt32_wrap (z k : Z) : toInt32 (z + k * 2 ^ 32) = toInt32 z.
Proof.
  unfold toInt32. replace (z + k * 2 ^ 32 + 2 ^ 31) with (z + 2 ^ 31 + k * 2 ^ 32) by ring.
  rewrite Z_mod_plus_full. reflexivity.
Qed.

Lemma toInt32_offset (z : Z) : ∃ k, toInt32 z = z + k * 2 ^ 32.
Proof.
  exists (- ((z + 2 ^ 31) / 2 ^ 32)). unfold toInt32.
  rewrite Z.mod_eq by lia. ring.
Qed.

Lemma toInt32_idem (z : Z) : toInt32 (toInt32 z) = toInt32 z.
Proof.
  destruct (toInt32_offset z) as [k Hk].
  transitivity (toInt32 (z + k * 2 ^ 32)); [f_equal; exact Hk|apply toInt32_wrap].
Qed.

(** One round of the loop is one round of the polynomial, wrapped. *)
Lemma hash_step_wrapped (j : Z) (c : N) :
  hash_step (toInt32 j) c = toInt32 (31 * j + Z.of_N c).
Proof.
  unfold hash_step. rewrite Z.land_diag, toInt32_idem, Z.shiftl_mul_pow2 by lia.
  destruct (toInt32_offset j) as [k1 ->].
  destruct (toInt32_offset ((j + k1 * 2 ^ 32) * 2 ^ 5)) as [k2 ->].
  replace ((j + k1 * 2 ^ 32) * 2 ^ 5 + k2 * 2 ^ 32 - (j + k1 * 2 ^ 32) + Z.of_N c)
    with (31 * j + Z.of_N c + (31 * k1 + k2) * 2 ^ 32) by ring.
  apply toInt32_wrap.
Qed.

Lemma rolling_hash_fold (str : jsstring) :
  ∀ h j, h = toInt32 j →
         fold_left hash_step str h
         = toInt32 (fold_left (λ h c, 31 * h + Z.of_N c) str j).
Proof.
  induction str as [|c str IH]; intros h j Hh; [exact Hh|].
  cbn [fold_left]. apply IH. rewrite Hh. apply hash_step_wrapped.
Qed.

(** X6. The integer hash of [simpleHash] is the polynomial hash with base
    31 of the code units (the hashCode of Java), wrapped to a signed 32-bit
    integer; it always lies between -2^31 and 2^31 - 1, so the magnitude
    that is divided by 2147483647 is at most 2^31. *)
Theorem rolling_hash_polynomial (str : jsstring) :
  rolling_hash str = toInt32 (polynomial_hash str) ∧
  - 2 ^ 31 ≤ rolling_hash str < 2 ^ 31 ∧
  0 ≤ Z.abs (rolling_hash str) ≤ 2 ^ 31.
Proof.
  assert (Hpoly : rolling_hash str = toInt32 (polynomial_hash str)).
  { unfold rolling_hash, polynomial_hash.
    apply rolling_hash_fold. reflexivity. }
  split; [exact Hpoly|].
  pose proof (toInt32_range (polynomial_hash str)) as Hrange.
  rewrite <- Hpoly in Hrange. split; [exact Hrange|lia].
Qed.

End RollingHash.

(** ** Storage engine: the invariant of reachable databases *)

Section Soundness.

Import Db.

Lemma Forall_le_snoc {A} (f : A → Z) (n : Z) (l : list A) (y : A) :
  Forall (λ x, f x ≤ n) l → f y = n + 1 → Forall (λ x, f x ≤ n + 1) (l ++ [y]).
Proof.
  intros Hall Hy. apply Forall_app. split.
  - eapply Forall_impl; [exact Hall|]. cbn. intros x Hx. lia.
  - constructor; [lia|constructor].
Qed.

Lemma NoDup_snoc_fresh {A} (f : A → Z) (n : Z) (l : list A) (y : A) :
  NoDup (map f l) → Forall (λ x, f x ≤ n) l → n < f y →
  NoDup (map f (l ++ [y])).
Proof.
  intros Hnd Hall Hy. rewrite map_app. apply NoDup_app. split; [exact Hnd|]. split.
  - intros z Hz Hzy. apply list_elem_of_singleton in Hzy. subst z.
    apply list_elem_of_fmap in Hz as (x & Hfx & Hx).
    rewrite Forall_forall in Hall. specialize (Hall x Hx). cbn in Hall. lia.
  - apply NoDup_singleton.
Qed.

Lemma Forall_exists_weaken {A B} (P : A → B → Prop) (l : list A) (m m' : list B) :
  (∀ y, y ∈ m → y ∈ m') →
  Forall (λ x, ∃ y, y ∈ m ∧ P x y) l → Forall (λ x, ∃ y, y ∈ m' ∧ P x y) l.
Proof.
  intros Hsub Hall. eapply Forall_impl; [exact Hall|]. cbn.
  intros x (y & Hy & Hp). exists y. split; [apply Hsub, Hy|exact Hp].
Qed.

Lemma sound_empty : sound empty.
Proof. repeat split; constructor. Qed.

Lemma sound_insert_documents (now : N) (db db1 : Database)
    (t l : option jsstring) (v : jsstring) (fp : option jsstring) (id : Z) :
  insert_documents now db t l v fp = inr (db1, id) → sound db → sound db1.
Proof.
  unfold insert_documents. destruct t, l; intros [= <- <-].
  intros (Hd & Hc & Hf & He & Nd & Nc & Nf & Ne & Rc & Re).
  unfold sound; cbn. repeat split; try assumption.
  - apply (Forall_le_snoc d_id); [exact Hd|reflexivity].
  - apply (NoDup_snoc_fresh d_id (seq_documents db)); [exact Nd|exact Hd|cbn; lia].
  - eapply Forall_exists_weaken; [|exact Rc]. intros y Hy.
    apply elem_of_app. left. exact Hy.
Qed.

Lemma sound_insert_chunks (db db1 : Database) (documentId : Z)
    (text : option jsstring) (i : Z) (hp : jsstring) (id : Z) :
  insert_chunks db documentId text i hp = inr (db1, id) → sound db →
  Forall (λ c, c_id c ≤ seq_chunks db1) (chunks db1) ∧
  Forall (λ f, f_rowid f < seq_chunks db1) (chunks_fts db1) ∧
  Forall (λ d, d_id d ≤ seq_documents db1) (documents db1) ∧
  Forall (λ e, e_id e ≤ seq_embeddings db1) (embeddings db1) ∧
  NoDup (map d_id (documents db1)) ∧ NoDup (map c_id (chunks db1)) ∧
  NoDup (map f_rowid (chunks_fts db1)) ∧ NoDup (map e_id (embeddings db1)) ∧
  Forall (λ c, ∃ d, d ∈ documents db1 ∧ d_id d = c_document_id c) (chunks db1) ∧
  Forall (λ e, ∃ c, c ∈ chunks db1 ∧ c_id c = e_chunk_id e) (embeddings db1) ∧
  id = seq_chunks db1.
Proof.
  unfold insert_chunks. destruct text as [s|]; [|discriminate].
  destruct (existsb _ _) eqn:Hfk; intros [= <- <-].
  intros (Hd & Hc & Hf & He & Nd & Nc & Nf & Ne & Rc & Re). cbn.
  apply existsb_exists in Hfk as (d & Hin & Hid).
  repeat split; try assumption.
  - apply (Forall_le_snoc c_id); [exact Hc|reflexivity].
  - eapply Forall_impl; [exact Hf|]. cbn. intros f Hle. lia.
  - apply (NoDup_snoc_fresh c_id (seq_chunks db)); [exact Nc|exact Hc|cbn; lia].
  - apply Forall_app. split; [exact Rc|]. constructor; [|constructor].
    exists d. split; [apply list_elem_of_In, Hin|cbn; lia].
  - eapply Forall_exists_weaken; [|exact Re]. intros y Hy.
    apply elem_of_app. left. exact Hy.
Qed.

Lemma insert_chunks_fts_fresh (db : Database) (rowid : Z) (text hp : jsstring) :
  Forall (λ f, f_rowid f < rowid) (chunks_fts db) →
  insert_chunks_fts db rowid text hp
  = inr {| documents := documents db; chunks := chunks db;
           chunks_fts := chunks_fts db ++
             [{| f_rowid := rowid; f_content := text; f_heading_path := hp |}];
           embeddings := embeddings db; seq_documents := seq_documents db;
           seq_chunks := seq_chunks db; seq_embeddings := seq_embeddings db |}.
Proof.
  intros Hfresh. unfold insert_chunks_fts.
  assert (Hfree : existsb (λ f, f_rowid f =? rowid) (chunks_fts db) = false).
  { apply not_true_iff_false. intros Hex.
    apply existsb_exists in Hex as (f & Hf & Hid).
    rewrite Forall_forall in Hfresh.
    apply list_elem_of_In, Hfresh in Hf. lia. }
  rewrite Hfree. reflexivity.
Qed.

(** One round of the loop of [insertDocument] on a sound database: the
    index insert cannot fail, and the database stays sound. *)
Lemma sound_insert_chunk_round (db db1 : Database) (documentId : Z)
    (text : option jsstring) (i : Z) (hp : jsstring) (id : Z) :
  insert_chunks db documentId text i hp = inr (db1, id) → sound db →
  ∃ db2, insert_chunks_fts db1 id (default [] text) hp = inr db2 ∧ sound db2 ∧
         documents db2 = documents db ∧ seq_chunks db2 = seq_chunks db + 1 ∧
         id = seq_chunks db + 1 ∧ embeddings db2 = embeddings db.
Proof.
  intros Hins Hsound.
  pose proof (insert_chunks_counter _ _ _ _ _ _ _ Hins) as (Hid & Hs1 & _).
  pose proof (insert_chunks_inv _ _ _ _ _ _ _ Hins) as (Hd1 & _ & _ & He1 & _).
  destruct (sound_insert_chunks _ _ _ _ _ _ _ Hins Hsound)
    as (Hc & Hf & Hd & He & Nd & Nc & Nf & Ne & Rc & Re & Heq).
  assert (Hfresh : Forall (λ f, f_rowid f < id) (chunks_fts db1)) by (rewrite Heq; exact Hf).
  eexists. split; [apply insert_chunks_fts_fresh, Hfresh|].
  split; [|cbn; repeat split; congruence].
  unfold sound; cbn. repeat split; try assumption.
  - apply Forall_app. split.
    + eapply Forall_impl; [exact Hf|]. cbn. intros f Hlt. lia.
    + constructor; [cbn; lia|constructor].
  - apply (NoDup_snoc_fresh f_rowid (id - 1)); [exact Nf| |cbn; lia].
    eapply Forall_impl; [exact Hfresh|]. cbn. intros f Hlt. lia.
Qed.

Lemma sound_insert_chunk_loop (cs : list ChunkArg) :
  ∀ (db db' : Database) (documentId i : Z) (ids : list Z) (r : Exc (list Z)),
  sound db →
  insert_chunk_loop db documentId cs i ids = (db', r) → sound db'.
Proof.
  induction cs as [|ch cs IH]; intros db db' documentId i ids r Hsound;
    cbn [insert_chunk_loop].
  - intros [= <- _]. exact Hsound.
  - destruct (insert_chunks _ _ _ _ _) as [e|[db1 chunkId]] eqn:Hc.
    { intros [= <- _]. exact Hsound. }
    destruct (sound_insert_chunk_round _ _ _ _ _ _ _ Hc Hsound)
      as (db2 & Hfts & Hsound2 & _).
    rewrite Hfts. apply IH, Hsound2.
Qed.

Lemma sound_insertDocument (now : N) (db : Database) (document : Document)
    (cs : list ChunkArg) :
  sound db → sound (insertDocument now db document cs).1.
Proof.
  intros Hsound. unfold insertDocument.
  destruct (insert_documents _ _ _ _ _ _) as [e|[db1 id]] eqn:Hd; [exact Hsound|].
  apply sound_insert_documents in Hd; [|exact Hsound].
  destruct (insert_chunk_loop _ _ _ _ _) as [db2 r] eqn:Hloop.
  apply sound_insert_chunk_loop in Hloop; [|exact Hd].
  destruct r; exact Hloop.
Qed.

Lemma sound_insert_embeddings (db db1 : Database) (chunkId : Z)
    (v : option (list float)) :
  insert_embeddings db chunkId v = inr db1 → sound db → sound db1.
Proof.
  unfold insert_embeddings. destruct v as [v|]; [|discriminate].
  destruct (existsb _ _) eqn:Hfk; intros [= <-].
  intros (Hd & Hc & Hf & He & Nd & Nc & Nf & Ne & Rc & Re).
  apply existsb_exists in Hfk as (c & Hin & Hid).
  unfold sound; cbn. repeat split; try assumption.
  - apply (Forall_le_snoc e_id); [exact He|reflexivity].
  - apply (NoDup_snoc_fresh e_id (seq_embeddings db)); [exact Ne|exact He|cbn; lia].
  - apply Forall_app. split; [exact Re|]. constructor; [|constructor].
    exists c. split; [apply list_elem_of_In, Hin|cbn; lia].
Qed.

Lemma sound_insert_many (l : list (Z * option (list float))) :
  ∀ db db1, insert_many db l = inr db1 → sound db → sound db1.
Proof.
  induction l as [|[chunkId v] l IH]; intros db db1; cbn [insert_many].
  - intros [= <-]. auto.
  - destruct (insert_embeddings db chunkId v) as [e|db2] eqn:Hins; [discriminate|].
    intros Hrest Hsound. eapply IH; [exact Hrest|].
    eapply sound_insert_embeddings; eassumption.
Qed.

Lemma sound_insertEmbeddings (db : Database)
    (l : list (Z * option (list float))) :
  sound db → sound (insertEmbeddings db l).1.
Proof.
  intros Hsound. unfold insertEmbeddings.
  destruct (insert_many db l) as [e|db1] eqn:Hm; [exact Hsound|].
  eapply sound_insert_many; eassumption.
Qed.

Lemma NoDup_map_filter {A} (f : A → Z) (P : A → Prop) `{∀ x, Decision (P x)}
    (l : list A) :
  NoDup (map f l) → NoDup (map f (filter P l)).
Proof.
  induction l as [|x l IH]; [auto|]. cbn [map]. intros Hnd.
  apply NoDup_cons in Hnd as [Hx Hnd].
  destruct (decide (P x)) as [Hp|Hp].
  - rewrite filter_cons_True by exact Hp. cbn [map]. apply NoDup_cons.
    split; [|apply IH, Hnd].
    intros Hin. apply Hx. apply list_elem_of_fmap in Hin as (y & Hy & Hin).
    apply list_elem_of_filter in Hin as [_ Hin].
    apply list_elem_of_fmap. exists y. split; assumption.
  - rewrite filter_cons_False by exact Hp. apply IH, Hnd.
Qed.

Lemma Forall_filter_keep {A} (Q : A → Prop) (P : A → Prop)
    `{∀ x, Decision (P x)} (l : list A) :
  Forall Q l → Forall Q (filter P l).
Proof.
  intros Hall. apply Forall_forall. intros x Hx.
  apply list_elem_of_filter in Hx as [_ Hx].
  rewrite Forall_forall in Hall. apply Hall, Hx.
Qed.

Lemma sound_deleteLibrary (db : Database) (library : jsstring)
    (version : option jsstring) :
  sound db → sound (deleteLibrary db library version).1.
Proof.
  intros (Hd & Hc & Hf & He & Nd & Nc & Nf & Ne & Rc & Re).
  unfold deleteLibrary, sound; cbn.
  repeat split; try assumption;
    try (apply Forall_filter_keep; assumption);
    try (apply NoDup_map_filter; assumption).
  - apply Forall_forall. intros c Hc'.
    apply list_elem_of_filter in Hc' as [Hkeep Hin].
    rewrite Forall_forall in Rc. destruct (Rc c Hin) as (d & Hdin & Hdid).
    exists d. split; [|exact Hdid].
    apply list_elem_of_filter. split; [|exact Hdin].
    apply not_true_iff_false. intros Hdel.
    apply not_true_iff_false in Hkeep. apply Hkeep.
    apply existsb_exists. exists d. split; [|lia].
    apply list_elem_of_In, list_elem_of_filter. split; assumption.
  - apply Forall_forall. intros e He'.
    apply list_elem_of_filter in He' as [Hkeep Hin].
    rewrite Forall_forall in Re. destruct (Re e Hin) as (c & Hcin & Hcid).
    exists c. split; [|exact Hcid].
    apply list_elem_of_filter. split; [|exact Hcin].
    apply not_true_iff_false. intros Horphan.
    apply not_true_iff_false in Hkeep. apply Hkeep.
    apply existsb_exists. exists c. split; [|lia].
    apply list_elem_of_In, list_elem_of_filter. split; assumption.
Qed.

Lemma reachable_sound (db : Database) : reachable db → sound db.
Proof.
  induction 1.
  - apply sound_empty.
  - apply sound_insertDocument; assumption.
  - apply sound_insertEmbeddings; assumption.
  - apply sound_deleteLibrary; assumption.
Qed.

(** X7. In every database the manager can reach, whether its operations
    returned or threw: document ids, chunk ids, index rowids and embedding
    ids are unique, every chunk belongs to a stored document, and every
    embedding belongs to a stored chunk. *)
Theorem reachable_referential_integrity (db : Database) :
  reachable db →
  NoDup (map d_id (documents db)) ∧ NoDup (map c_id (chunks db)) ∧
  NoDup (map f_rowid (chunks_fts db)) ∧ NoDup (map e_id (embeddings db)) ∧
  (∀ c, c ∈ chunks db → ∃ d, d ∈ documents db ∧ d_id d = c_document_id c) ∧
  (∀ e, e ∈ embeddings db → ∃ c, c ∈ chunks db ∧ c_id c = e_chunk_id e).
Proof.
  intros Hreach. apply reachable_sound in Hreach
    as (_ & _ & _ & _ & Nd & Nc & Nf & Ne & Rc & Re).
  rewrite Forall_forall in Rc. rewrite Forall_forall in Re.
  repeat split; assumption.
Qed.

Lemma reachable_referential_integrity_sample :
  reachable Samples.one_chunk_db ∧
  NoDup (map c_id (chunks Samples.one_chunk_db)).
Proof.
  assert (Hreach : reachable Samples.one_chunk_db).
  { unfold Samples.one_chunk_db. apply reach_insertDocument, reach_empty. }
  split; [exact Hreach|].
  apply (reachable_referential_integrity Samples.one_chunk_db Hreach).
Defined.

End Soundness.

(** ** Storage engine: when the inserts succeed *)

Section InsertOutcomes.

Import Db.

Lemma consecutive_S (first : Z) (n : nat) :
  consecutive first (S n) = first :: consecutive (first + 1) n.
Proof.
  unfold consecutive. cbn [seq map]. rewrite Z.add_0_r. f_equal.
  rewrite <- seq_shift, map_map. apply map_ext. intros k. lia.
Qed.

Lemma length_consecutive (first : Z) (n : nat) : length (consecutive first n) = n.
Proof. unfold consecutive. rewrite length_map, length_seq. reflexivity. Qed.

Lemma insert_chunks_some (db : Database) (documentId : Z) (text : jsstring)
    (i : Z) (hp : jsstring) :
  (∃ d, d ∈ documents db ∧ d_id d = documentId) →
  insert_chunks db documentId (Some text) i hp
  = inr ({| documents := documents db;
            chunks := chunks db ++
              [{| c_id := seq_chunks db + 1; c_document_id := documentId;
                  c_content := text; c_chunk_index := i;
                  c_heading_path := hp |}];
            chunks_fts := chunks_fts db;
            embeddings := embeddings db;
            seq_documents := seq_documents db;
            seq_chunks := seq_chunks db + 1;
            seq_embeddings := seq_embeddings db |}, seq_chunks db + 1).
Proof.
  intros (d & Hd & Hid). unfold insert_chunks.
  assert (Hfk : existsb (λ d, d_id d =? documentId) (documents db) = true).
  { apply existsb_exists. exists d. split; [apply list_elem_of_In, Hd|lia]. }
  rewrite Hfk. reflexivity.
Qed.

(** On a sound database the loop of [insertDocument] cannot fail on chunks
    that have content, and hands out the next chunk ids in order. *)
Lemma insert_chunk_loop_ok (cs : list ChunkArg) :
  ∀ (db : Database) (documentId i : Z) (ids : list Z),
  sound db → (∃ d, d ∈ documents db ∧ d_id d = documentId) →
  Forall (λ ch, content ch ≠ None) cs →
  ∃ db' rows,
    insert_chunk_loop db documentId cs i ids
    = (db', inr (ids ++ consecutive (seq_chunks db + 1) (length cs))) ∧
    sound db' ∧
    documents db' = documents db ∧ embeddings db' = embeddings db ∧
    seq_documents db' = seq_documents db ∧
    seq_embeddings db' = seq_embeddings db ∧
    seq_chunks db' = seq_chunks db + Z.of_nat (length cs) ∧
    chunks db' = chunks db ++ rows ∧
    map c_id rows = consecutive (seq_chunks db + 1) (length cs).
Proof.
  induction cs as [|ch cs IH]; intros db documentId i ids Hsound Hdoc Hcs.
  - exists db, []. cbn. rewrite !app_nil_r, Z.add_0_r.
    split; [reflexivity|]. split; [exact Hsound|]. repeat split.
  - apply Forall_cons in Hcs as [Hch Hcs].
    destruct (content ch) as [text|] eqn:Htext; [|contradiction].
    pose proof (insert_chunks_some db documentId text i (str_or (headingPath ch) []) Hdoc)
      as Hins.
    destruct (sound_insert_chunk_round _ _ _ _ _ _ _ Hins Hsound)
      as (db2 & Hfts & Hsound2 & Hd2 & Hs2 & _ & He2).
    assert (Hshape : chunks db2 = chunks db ++
              [{| c_id := seq_chunks db + 1; c_document_id := documentId;
                  c_content := text; c_chunk_index := i;
                  c_heading_path := str_or (headingPath ch) [] |}]
            ∧ seq_documents db2 = seq_documents db
            ∧ seq_embeddings db2 = seq_embeddings db).
    { unfold insert_chunks_fts in Hfts. destruct (existsb _ _); [discriminate|].
      injection Hfts as <-. repeat split. }
    destruct Hshape as (Hc2 & Hsd2 & Hse2).
    destruct (IH db2 documentId (i + 1) (ids ++ [seq_chunks db + 1]) Hsound2)
      as (db' & rows & Hloop & Hsound' & Hd' & He' & Hsd' & Hse' & Hs' & Hc' & Hids);
      [rewrite Hd2; exact Hdoc|exact Hcs|].
    exists db', ({| c_id := seq_chunks db + 1; c_document_id := documentId;
                    c_content := text; c_chunk_index := i;
                    c_heading_path := str_or (headingPath ch) [] |} :: rows).
    cbn [insert_chunk_loop length]. rewrite Htext, Hins.
    change (default [] (Some text)) with text in Hfts |- *.
    rewrite Hfts, Hloop, consecutive_S, Hs2, <- app_assoc. cbn [app].
    split; [reflexivity|]. split; [exact Hsound'|].
    repeat split; try congruence; try lia.
    + rewrite Hc', Hc2, <- app_assoc. reflexivity.
    + cbn [map c_id]. rewrite Hids, Hs2. reflexivity.
Qed.

(** On a sound database [insertDocument] stores a document that has a
    title and a library, with chunks that have content. *)
Lemma insertDocument_ok (now : N) (db : Database) (document : Document)
    (cs : list ChunkArg) (t l : jsstring) :
  sound db → title document = Some t → Db.library document = Some l →
  Forall (λ ch, content ch ≠ None) cs →
  ∃ db' rows,
    insertDocument now db document cs
    = (db', inr (seq_documents db + 1,
                 consecutive (seq_chunks db + 1) (length cs))) ∧
    sound db' ∧
    documents db' = documents db ++
      [{| d_id := seq_documents db + 1; d_title := t; d_library := l;
          d_version := str_or (Db.version document) (js "latest");
          d_file_path := str_or_null (filePath document);
          d_indexed_at := now |}] ∧
    embeddings db' = embeddings db ∧
    seq_documents db' = seq_documents db + 1 ∧
    seq_embeddings db' = seq_embeddings db ∧
    seq_chunks db' = seq_chunks db + Z.of_nat (length cs) ∧
    chunks db' = chunks db ++ rows ∧
    map c_id rows = consecutive (seq_chunks db + 1) (length cs).
Proof.
  intros Hsound Ht Hl Hcs. unfold insertDocument. rewrite Ht, Hl.
  destruct (insert_documents now db (Some t) (Some l) _ _) as [e|[db1 id]] eqn:Hd;
    [discriminate|].
  pose proof (insert_documents_seq_chunks _ _ _ _ _ _ _ _ Hd) as Hsc.
  pose proof (sound_insert_documents _ _ _ _ _ _ _ _ Hd Hsound) as Hsound1.
  assert (Hshape : id = seq_documents db + 1 ∧ seq_documents db1 = seq_documents db + 1 ∧
                   chunks db1 = chunks db ∧ embeddings db1 = embeddings db ∧
                   seq_embeddings db1 = seq_embeddings db ∧
                   documents db1 = documents db ++
                     [{| d_id := seq_documents db + 1; d_title := t; d_library := l;
                         d_version := str_or (Db.version document) (js "latest");
                         d_file_path := str_or_null (filePath document);
                         d_indexed_at := now |}]).
  { unfold insert_documents in Hd. injection Hd as <- <-. repeat split. }
  destruct Hshape as (Hid & Hsd1 & Hc1 & He1 & Hse1 & Hrow).
  destruct (insert_chunk_loop_ok cs db1 id 0 [] Hsound1)
    as (db' & rows & Hloop & Hsound' & Hd' & He' & Hsd' & Hse' & Hs' & Hc' & Hids);
    [|exact Hcs|].
  { eexists. split; [rewrite Hrow; apply elem_of_app; right; apply list_elem_of_here|].
    cbn. lia. }
  exists db', rows. rewrite Hloop. cbn [app]. rewrite Hsc in *.
  split; [rewrite Hid; reflexivity|]. split; [exact Hsound'|].
  repeat split; try congruence; try lia.
Qed.

Lemma insert_chunk_loop_contents (cs : list ChunkArg) :
  ∀ (db db' : Database) (documentId i : Z) (ids ids' : list Z),
  insert_chunk_loop db documentId cs i ids = (db', inr ids') →
  Forall (λ ch, content ch ≠ None) cs.
Proof.
  induction cs as [|ch cs IH]; intros db db' documentId i ids ids';
    cbn [insert_chunk_loop]; [constructor|].
  destruct (insert_chunks _ _ _ _ _) as [e|[db1 chunkId]] eqn:Hc; [discriminate|].
  destruct (insert_chunks_fts _ _ _ _) as [e|db2]; [discriminate|].
  intros Hloop. constructor; [|eapply IH; exact Hloop].
  unfold insert_chunks in Hc. destruct (content ch); [discriminate|discriminate].
Qed.

(** X8. On a sound database [insertDocument] returns normally exactly when
    the document has a title and a library and every chunk has a content;
    it then returns the next document id and, in order, the next
    consecutive chunk ids, one per chunk. *)
Theorem insertDocument_succeeds_iff (now : N) (db : Database)
    (document : Document) (cs : list ChunkArg) :
  sound db →
  ((∃ r, (insertDocument now db document cs).2 = inr r) ↔
   title document ≠ None ∧ library document ≠ None ∧
   Forall (λ ch, content ch ≠ None) cs) ∧
  (∀ r, (insertDocument now db document cs).2 = inr r →
        r = (seq_documents db + 1,
             consecutive (seq_chunks db + 1) (length cs))).
Proof.
  intros Hsound.
  assert (Hok : title document ≠ None → library document ≠ None →
                Forall (λ ch, content ch ≠ None) cs →
                (insertDocument now db document cs).2
                = inr (seq_documents db + 1,
                       consecutive (seq_chunks db + 1) (length cs))).
  { intros Ht Hl Hcs.
    destruct (title document) as [t|] eqn:Htitle; [|contradiction].
    destruct (library document) as [l|] eqn:Hlibrary; [|contradiction].
    destruct (insertDocument_ok now db document cs t l Hsound Htitle Hlibrary Hcs)
      as (db' & rows & -> & _).
    reflexivity. }
  split; [split|].
  - intros [r Hr]. unfold insertDocument in Hr.
    destruct (title document) as [t|]; [|discriminate].
    destruct (library document) as [l|]; [|discriminate].
    destruct (insert_documents now db (Some t) (Some l) _ _) as [e|[db1 id]];
      [discriminate|].
    destruct (insert_chunk_loop _ _ _ _ _) as [db2 [e|ids]] eqn:Hloop;
      [discriminate|].
    apply insert_chunk_loop_contents in Hloop.
    repeat split; [discriminate|discriminate|exact Hloop].
  - intros (Ht & Hl & Hcs). eexists. apply Hok; assumption.
  - intros r Hr.
    assert (Hcond : title document ≠ None ∧ library document ≠ None ∧
                    Forall (λ ch, content ch ≠ None) cs).
    { unfold insertDocument in Hr.
      destruct (title document) as [t|]; [|discriminate].
      destruct (library document) as [l|]; [|discriminate].
      destruct (insert_documents now db (Some t) (Some l) _ _) as [e|[db1 id]];
        [discriminate|].
      destruct (insert_chunk_loop _ _ _ _ _) as [db2 [e|ids]] eqn:Hloop;
        [discriminate|].
      apply insert_chunk_loop_contents in Hloop.
      repeat split; [discriminate|discriminate|exact Hloop]. }
    destruct Hcond as (Ht & Hl & Hcs). rewrite (Hok Ht Hl Hcs) in Hr.
    injection Hr as <-. reflexivity.
Qed.

Lemma insertDocument_succeeds_sample :
  (insertDocument 1 empty Samples.guide
     [Samples.chunk_of "alpha"; Samples.chunk_of "beta"]).2
  = inr (1, [1; 2]).
Proof.
  destruct (insertDocument_succeeds_iff 1 empty Samples.guide
              [Samples.chunk_of "alpha"; Samples.chunk_of "beta"] sound_empty)
    as [[_ Hyes] Hids].
  destruct Hyes as [r Hr].
  - repeat split; try discriminate. repeat constructor; discriminate.
  - rewrite Hr. f_equal. apply (Hids r Hr).
Defined.

Lemma valid_entry_chunks (db db1 : Database) (entry : Z * option (list float)) :
  chunks db1 = chunks db → valid_entry db entry → valid_entry db1 entry.
Proof. unfold valid_entry. intros ->. auto. Qed.

Lemma insert_embeddings_valid (db : Database) (chunkId : Z) (v : option (list float)) :
  valid_entry db (chunkId, v) →
  ∃ db1 row, insert_embeddings db chunkId v = inr db1 ∧
             embeddings db1 = embeddings db ++ [row] ∧
             (e_chunk_id row, Some (e_embedding row)) = (chunkId, v) ∧
             chunks db1 = chunks db.
Proof.
  intros [Hv (c & Hc & Hid)]. cbn in Hv, Hid. unfold insert_embeddings.
  destruct v as [v|]; [|contradiction].
  assert (Hfk : existsb (λ c, c_id c =? chunkId) (chunks db) = true).
  { apply existsb_exists. exists c. split; [apply list_elem_of_In, Hc|lia]. }
  rewrite Hfk. do 2 eexists. repeat split.
Qed.

Lemma insert_embeddings_invalid (db : Database) (chunkId : Z)
    (v : option (list float)) :
  ¬ valid_entry db (chunkId, v) → ∃ e, insert_embeddings db chunkId v = inl e.
Proof.
  intros Hbad. unfold insert_embeddings. destruct v as [v|]; [|eauto].
  destruct (existsb _ _) eqn:Hfk; [|eauto].
  exfalso. apply Hbad. apply existsb_exists in Hfk as (c & Hc & Hid).
  split; [discriminate|]. exists c. split; [apply list_elem_of_In, Hc|cbn; lia].
Qed.

Lemma insert_embeddings_chunks (db db1 : Database) (chunkId : Z)
    (v : option (list float)) :
  insert_embeddings db chunkId v = inr db1 → chunks db1 = chunks db.
Proof.
  unfold insert_embeddings. destruct v; [|discriminate].
  destruct (existsb _ _); intros [= <-]. reflexivity.
Qed.

Lemma insert_many_valid (l : list (Z * option (list float))) :
  ∀ db, Forall (valid_entry db) l →
  ∃ db1 rows, insert_many db l = inr db1 ∧
              embeddings db1 = embeddings db ++ rows ∧
              map (λ e, (e_chunk_id e, Some (e_embedding e))) rows = l.
Proof.
  induction l as [|[chunkId v] l IH]; intros db Hall.
  - exists db, []. cbn. rewrite app_nil_r. repeat split.
  - apply Forall_cons in Hall as [Hhead Hall].
    destruct (insert_embeddings_valid db chunkId v Hhead)
      as (db1 & row & Hins & Hrows & Hrow & Hchunks).
    destruct (IH db1) as (db2 & rows & Hrest & Hrows2 & Hmap).
    { eapply Forall_impl; [exact Hall|]. intros entry.
      apply valid_entry_chunks, Hchunks. }
    exists db2, (row :: rows). cbn [insert_many map]. rewrite Hins, Hrest.
    repeat split.
    + rewrite Hrows2, Hrows, <- app_assoc. reflexivity.
    + rewrite Hrow, Hmap. reflexivity.
Qed.

Lemma insert_many_invalid (l : list (Z * option (list float))) :
  ∀ db, Exists (λ entry, ¬ valid_entry db entry) l →
  ∃ e, insert_many db l = inl e.
Proof.
  induction l as [|[chunkId v] l IH]; intros db Hex.
  - apply Exists_nil in Hex. contradiction.
  - cbn [insert_many]. apply Exists_cons in Hex as [Hhead|Htail].
    + destruct (insert_embeddings_invalid db chunkId v Hhead) as [e ->]. eauto.
    + destruct (insert_embeddings db chunkId v) as [e|db1] eqn:Hins; [eauto|].
      apply IH. eapply Exists_impl; [exact Htail|]. cbn.
      intros entry Hbad Hvalid. apply Hbad.
      eapply valid_entry_chunks; [|exact Hvalid].
      symmetry. eapply insert_embeddings_chunks, Hins.
Qed.

(** X9. [insertEmbeddings] is all or nothing.  When every entry has a
    vector and names a stored chunk, it appends one embedding row per
    entry, in order, and touches nothing else; when some entry has no
    vector or names a chunk that is not stored, it throws and the database
    is exactly as before. *)
Theorem insertEmbeddings_all_or_nothing (db : Database)
    (l : list (Z * option (list float))) :
  (Forall (valid_entry db) l →
   (insertEmbeddings db l).2 = inr () ∧
   (∃ rows, embeddings (insertEmbeddings db l).1 = embeddings db ++ rows ∧
            map (λ e, (e_chunk_id e, Some (e_embedding e))) rows = l) ∧
   documents (insertEmbeddings db l).1 = documents db ∧
   chunks (insertEmbeddings db l).1 = chunks db ∧
   chunks_fts (insertEmbeddings db l).1 = chunks_fts db) ∧
  (Exists (λ entry, ¬ valid_entry db entry) l →
   ∃ e, insertEmbeddings db l = (db, inl e)).
Proof.
  split.
  - intros Hall. destruct (insertEmbeddings_text db l) as (Hd & Hc & Hf & _).
    destruct (insert_many_valid l db Hall) as (db1 & rows & Hins & Hrows & Hmap).
    unfold insertEmbeddings in *. rewrite Hins in *. cbn in *.
    repeat split; try assumption. exists rows. split; assumption.
  - intros Hex. destruct (insert_many_invalid l db Hex) as [e He].
    unfold insertEmbeddings. rewrite He. eauto.
Qed.

Lemma insertEmbeddings_rollback_sample :
  ∃ e, insertEmbeddings Samples.one_chunk_db
         [(1, Some [1%float]); (7, Some [2%float])]
       = (Samples.one_chunk_db, inl e).
Proof.
  destruct (insertEmbeddings_all_or_nothing Samples.one_chunk_db
              [(1, Some [1%float]); (7, Some [2%float])]) as [_ Hfail].
  apply Hfail.
  apply Exists_cons_tl, Exists_cons_hd. intros [_ (c & Hc & Hid)].
  cbn in Hc, Hid. apply list_elem_of_singleton in Hc. subst c. discriminate.
Defined.

End InsertOutcomes.

(** ** Storage engine: listing and deleting *)

Section Listing.

Import Db.

Lemma insert_newest_perm (x : DocumentRow * Z) (l : list (DocumentRow * Z)) :
  insert_newest x l ≡ₚ x :: l.
Proof.
  induction l as [|y l IH]; [reflexivity|]. cbn [insert_newest].
  destruct (_ <=? _)%N; [reflexivity|].
  rewrite IH. apply Permutation_swap.
Qed.

Lemma sort_newest_perm (l : list (DocumentRow * Z)) :
  fold_right insert_newest [] l ≡ₚ l.
Proof.
  induction l as [|x l IH]; [reflexivity|]. cbn [fold_right].
  rewrite insert_newest_perm, IH. reflexivity.
Qed.

Lemma insert_newest_sorted (x : DocumentRow * Z) (l : list (DocumentRow * Z)) :
  StronglySorted newer_first l → StronglySorted newer_first (insert_newest x l).
Proof.
  induction 1 as [|y l Hl IH Hy]; cbn [insert_newest].
  - repeat constructor.
  - destruct (N.leb_spec (d_indexed_at y.1) (d_indexed_at x.1)) as [Hle|Hlt].
    + constructor; [constructor; assumption|].
      constructor; [exact Hle|].
      eapply Forall_impl; [exact Hy|]. unfold newer_first. cbn. intros z Hz. lia.
    + constructor; [exact IH|].
      rewrite insert_newest_perm. constructor; [|exact Hy].
      unfold newer_first. lia.
Qed.

Lemma sort_newest_sorted (l : list (DocumentRow * Z)) :
  StronglySorted newer_first (fold_right insert_newest [] l).
Proof.
  induction l as [|x l IH]; [constructor|]. cbn [fold_right].
  apply insert_newest_sorted, IH.
Qed.

Lemma where_library_spec (library version : option jsstring) (d : DocumentRow) :
  where_library library version d = true ↔
  (∀ l, str_or_null library = Some l → d_library d = l) ∧
  (∀ v, str_or_null version = Some v → d_version d = v).
Proof.
  unfold where_library, same. rewrite andb_true_iff.
  assert (Hopt : ∀ (o : option jsstring) (s : jsstring),
            match o with Some x => jseqb s x | None => true end = true
            ↔ ∀ x, o = Some x → s = x).
  { intros [x|] s.
    - rewrite jseqb_eq. split; [intros -> y [= <-]; reflexivity|auto].
    - split; [intros _ y [=]|reflexivity]. }
  rewrite !Hopt. reflexivity.
Qed.

Lemma getDocuments_perm (db : Database) (library version : option jsstring) :
  getDocuments db library version ≡ₚ
    map (λ d, (d, chunk_count db d))
      (filter (λ d, where_library library version d = true) (documents db)).
Proof. apply sort_newest_perm. Qed.

(** X10. [getDocuments] lists exactly the documents that pass the filters,
    each once and with the number of its chunk rows, ordered from the most
    recently indexed to the oldest.  A filter applies only when its
    argument is a non-empty string: an empty library or version selects
    everything. *)
Theorem getDocuments_listing (db : Database) (library version : option jsstring) :
  getDocuments db library version ≡ₚ
    map (λ d, (d, chunk_count db d))
      (filter (λ d, where_library library version d = true) (documents db)) ∧
  StronglySorted newer_first (getDocuments db library version) ∧
  (∀ d, where_library library version d = true ↔
        (∀ l, str_or_null library = Some l → d_library d = l) ∧
        (∀ v, str_or_null version = Some v → d_version d = v)) ∧
  getDocuments db (Some []) (Some []) = getDocuments db None None.
Proof.
  split; [apply getDocuments_perm|]. split; [apply sort_newest_sorted|].
  split; [intros d; apply where_library_spec|reflexivity].
Qed.

Lemma insert_documents_row (now : N) (db db1 : Database) (t l : jsstring)
    (v : jsstring) (fp : option jsstring) (id : Z) :
  insert_documents now db (Some t) (Some l) v fp = inr (db1, id) →
  documents db1 = documents db ++
    [{| d_id := id; d_title := t; d_library := l; d_version := v;
        d_file_path := fp; d_indexed_at := now |}].
Proof. unfold insert_documents. intros [= <- <-]. reflexivity. Qed.

Lemma sound_well_formed (db : Database) : sound db → well_formed db.
Proof.
  intros (Hd & _ & _ & _ & _ & _ & _ & _ & Rc & _). split; [exact Hd|].
  apply Forall_forall. intros c Hc.
  rewrite Forall_forall in Rc. destruct (Rc c Hc) as (d & Hin & <-).
  rewrite Forall_forall in Hd. apply Hd, Hin.
Qed.

Lemma length_expected_rows (documentId : Z) (cs : list ChunkArg) :
  ∀ i, length (expected_rows documentId cs i) = length cs.
Proof. induction cs as [|c cs IH]; intros i; cbn; [reflexivity|]. rewrite IH. reflexivity. Qed.

(** X11. A document that [insertDocument] stored on a sound database is
    listed by [getDocuments] under every filter it passes, with the id
    that was returned, its title, library and version (the version
    ["latest"] when none was given), the time of the insert, no file path
    unless one was given, and a chunk count equal to the number of chunks
    handed in. *)
Theorem insertDocument_then_getDocuments (now : N) (db db' : Database)
    (document : Document) (cs : list ChunkArg) (documentId : Z)
    (chunkIds : list Z) (library version : option jsstring) :
  sound db →
  insertDocument now db document cs = (db', inr (documentId, chunkIds)) →
  ∃ t l,
    title document = Some t ∧ Db.library document = Some l ∧
    let row := {| d_id := documentId; d_title := t; d_library := l;
                  d_version := str_or (Db.version document) (js "latest");
                  d_file_path := str_or_null (filePath document);
                  d_indexed_at := now |} in
    (where_library library version row = true →
     (row, Z.of_nat (length cs)) ∈ getDocuments db' library version).
Proof.
  intros Hsound Hins.
  pose proof (insertDocument_rows now db db' document cs documentId chunkIds
                (sound_well_formed db Hsound) Hins) as Hrows.
  unfold insertDocument in Hins.
  destruct (title document) as [t|]; [|discriminate].
  destruct (Db.library document) as [l|]; [|discriminate].
  destruct (insert_documents now db (Some t) (Some l) _ _) as [e|[db1 id]] eqn:Hd;
    [discriminate|].
  apply insert_documents_row in Hd.
  destruct (insert_chunk_loop _ _ _ _ _) as [db2 [e|ids]] eqn:Hloop; [discriminate|].
  injection Hins as <- <- <-.
  apply insert_chunk_loop_rows in Hloop as (Hdocs & _).
  exists t, l. split; [reflexivity|]. split; [reflexivity|].
  intros row Hwhere.
  rewrite (getDocuments_perm db2 library version).
  apply list_elem_of_fmap. exists row. split.
  - f_equal. unfold chunk_count. cbn [d_id row].
    rewrite <- (length_expected_rows id cs 0), <- Hrows, length_map. reflexivity.
  - apply list_elem_of_filter. split; [exact Hwhere|].
    rewrite Hdocs, Hd. apply elem_of_app. right. apply list_elem_of_here.
Qed.

End Listing.

Section ListingExamples.

Import Db.

Lemma insertDocument_then_getDocuments_sample :
  (getDocuments Samples.one_chunk_db (Some (js "docs")) None)
  = [({| d_id := 1; d_title := js "Guide"; d_library := js "docs";
         d_version := js "latest"; d_file_path := None; d_indexed_at := 1 |}, 1)].
Proof.
  destruct (insertDocument_then_getDocuments 1 empty Samples.one_chunk_db
              Samples.guide [Samples.chunk_of "alpha"] 1 [1]
              (Some (js "docs")) None sound_empty eq_refl)
    as (t & l & Ht & Hl & Hrow).
  injection Ht as <-. injection Hl as <-.
  specialize (Hrow eq_refl). reflexivity.
Defined.

Lemma deleteLibrary_no_match (db : Database) (library : jsstring)
    (version : option jsstring) :
  Forall (λ d, delete_where library version d = false) (documents db) →
  deleteLibrary db library version = (db, 0).
Proof.
  intros Hnone. unfold deleteLibrary.
  assert (Hdel : filter (λ d, delete_where library version d = true) (documents db) = []).
  { apply filter_none. eapply Forall_impl; [exact Hnone|]. cbn. intros d ->. discriminate. }
  rewrite Hdel. cbn [existsb length Z.of_nat].
  rewrite (filter_all (λ d, delete_where library version d = false)) by exact Hnone.
  rewrite (filter_none (λ c : ChunkRow, false = true)) by (apply Forall_forall; discriminate).
  rewrite (filter_all (λ c : ChunkRow, false = false)) by (apply Forall_forall; reflexivity).
  cbn [existsb].
  rewrite (filter_all (λ e : EmbeddingRow, false = false)) by (apply Forall_forall; reflexivity).
  destruct db; reflexivity.
Qed.

(** X12. [deleteLibrary] changes nothing and returns 0 when no document
    matches, and deleting the same library (and version) a second time is
    such a call: it returns 0 and leaves the database as the first call
    left it. *)
Theorem deleteLibrary_idempotent (db : Database) (library : jsstring)
    (version : option jsstring) :
  (Forall (λ d, delete_where library version d = false) (documents db) →
   deleteLibrary db library version = (db, 0)) ∧
  deleteLibrary (deleteLibrary db library version).1 library version
  = ((deleteLibrary db library version).1, 0).
Proof.
  split; [apply deleteLibrary_no_match|].
  apply deleteLibrary_no_match. cbn [deleteLibrary fst documents].
  apply Forall_forall. intros d Hd. apply list_elem_of_filter in Hd as [Hd _].
  exact Hd.
Qed.

(** Deleting version ["v1.0"] of ["docs"] when only ["v2.0"] is stored. *)
Lemma deleteLibrary_other_version :
  deleteLibrary docs_v2_db (js "docs") (Some (js "v1.0")) = (docs_v2_db, 0).
Proof.
  apply (proj1 (deleteLibrary_idempotent docs_v2_db (js "docs") (Some (js "v1.0")))).
  repeat constructor.
Defined.

End ListingExamples.

(** ** Storage engine: full-text search *)

Section FullTextSearch.

Import Db.

Variable E : Fts5.

Lemma insert_by_perm {A} (key : A → float) (x : A) (l : list A) :
  insert_by key x l ≡ₚ x :: l.
Proof.
  induction l as [|y l IH]; [reflexivity|]. cbn [insert_by].
  destruct (PrimFloat.leb _ _); [reflexivity|].
  rewrite IH. apply Permutation_swap.
Qed.

Lemma order_by_perm {A} (key : A → float) (l : list A) : order_by key l ≡ₚ l.
Proof.
  induction l as [|x l IH]; [reflexivity|]. cbn [order_by fold_right].
  rewrite insert_by_perm. constructor. exact IH.
Qed.

Lemma length_sql_limit {A} (n : Z) (l : list A) :
  0 ≤ n → Z.of_nat (length (sql_limit n l)) ≤ n.
Proof.
  intros Hn. unfold sql_limit. destruct (Z.ltb_spec n 0); [lia|].
  rewrite length_take. lia.
Qed.

(** A key that is unique in a list selects at most one element. *)
Lemma filter_unique {A} (g : A → Z) (k : Z) (l : list A) :
  NoDup (map g l) →
  filter (λ x, g x = k) l = [] ∨ ∃ x, filter (λ x, g x = k) l = [x].
Proof.
  induction l as [|y l IH]; [left; reflexivity|]. cbn [map]. intros Hnd.
  apply NoDup_cons in Hnd as [Hy Hnd].
  destruct (decide (g y = k)) as [Heq|Hne].
  - rewrite filter_cons_True by exact Heq. right. exists y. f_equal.
    apply filter_none. apply Forall_forall. intros x Hx Hgx. apply Hy.
    apply list_elem_of_fmap. exists x. split; [congruence|exact Hx].
  - rewrite filter_cons_False by exact Hne. apply IH, Hnd.
Qed.

(** In a sound database an index entry joins to at most one row. *)
Lemma join_row_unique (db : Database) (rank : float) (f : FtsRow) :
  sound db →
  join_row db rank f = [] ∨
  ∃ r, join_row db rank f = [r] ∧ r_chunk_id r = f_rowid f.
Proof.
  intros (_ & _ & _ & _ & Nd & Nc & _). unfold join_row.
  destruct (filter_unique c_id (f_rowid f) (chunks db) Nc) as [->|[c Hc]];
    [left; reflexivity|].
  assert (Hcid : c_id c = f_rowid f).
  { assert (Hin : c ∈ filter (λ x, c_id x = f_rowid f) (chunks db))
      by (rewrite Hc; apply list_elem_of_here).
    apply list_elem_of_filter in Hin as [Hin _]. exact Hin. }
  rewrite Hc. cbn [mbind list_bind app].
  destruct (filter_unique d_id (c_document_id c) (documents db) Nd) as [->|[d ->]].
  - left. reflexivity.
  - right. eexists. split; [reflexivity|exact Hcid].
Qed.

Lemma join_rows_chunk_ids (db : Database) (rank : FtsRow → float)
    (hits : list FtsRow) :
  sound db → NoDup (map f_rowid hits) →
  NoDup (map r_chunk_id (hits ≫= λ f, join_row db (rank f) f)) ∧
  ∀ r, r ∈ (hits ≫= λ f, join_row db (rank f) f) →
       ∃ f, f ∈ hits ∧ r_chunk_id r = f_rowid f.
Proof.
  intros Hsound. induction hits as [|f hits IH]; cbn [map]; intros Hnd.
  - split; [constructor|]. intros r Hr. apply elem_of_nil in Hr. contradiction.
  - apply NoDup_cons in Hnd as [Hf Hnd]. destruct (IH Hnd) as [IHnd IHin].
    change ((f :: hits) ≫= λ f, join_row db (rank f) f)
      with (join_row db (rank f) f ++ (hits ≫= λ f, join_row db (rank f) f)).
    destruct (join_row_unique db (rank f) f Hsound) as [->|(r & -> & Hr)]; cbn [app].
    + split; [exact IHnd|]. intros r Hr. destruct (IHin r Hr) as (g & Hg & Hid).
      exists g. split; [apply list_elem_of_further, Hg|exact Hid].
    + split.
      * cbn [map]. apply NoDup_cons. split; [|exact IHnd].
        intros Hin. apply Hf. apply list_elem_of_fmap in Hin as (r' & Hid & Hr').
        destruct (IHin r' Hr') as (g & Hg & Hgid).
        apply list_elem_of_fmap. exists g. split; [congruence|exact Hg].
      * intros r' Hr'. apply elem_of_cons in Hr' as [->|Hr'].
        -- exists f. split; [apply list_elem_of_here|exact Hr].
        -- destruct (IHin r' Hr') as (g & Hg & Hid).
           exists g. split; [apply list_elem_of_further, Hg|exact Hid].
Qed.

(** X13. Every row of [searchChunks] is an index entry that matches the
    query, joined to its chunk and to that chunk's document, and carries
    the rank of that entry; a limit that is not negative bounds the number
    of rows; and in a sound database no chunk is returned twice. *)
Theorem searchChunks_rows (db : Database) (query : jsstring) (limit : Z)
    (rows : list SearchRow) :
  searchChunks E db query limit = inr rows →
  (∀ r, r ∈ rows →
        ∃ f c d, f ∈ chunks_fts db ∧
                 fts_match E query (f_content f) (f_heading_path f) = true ∧
                 c ∈ chunks db ∧ c_id c = f_rowid f ∧
                 d ∈ documents db ∧ d_id d = c_document_id c ∧
                 r = {| r_chunk_id := c_id c; r_content := c_content c;
                        r_heading_path := c_heading_path c;
                        r_title := d_title d; r_library := d_library d;
                        r_version := d_version d; r_file_path := d_file_path d;
                        r_rank := fts_rank E (chunks_fts db) query f |}) ∧
  (0 ≤ limit → Z.of_nat (length rows) ≤ limit) ∧
  (sound db → NoDup (map r_chunk_id rows)).
Proof.
  unfold searchChunks. destruct (fts_query_ok E query); [|discriminate].
  intros [= <-]. split; [|split].
  - intros r Hr. apply elem_of_sql_limit, elem_of_order_by in Hr.
    apply list_elem_of_bind in Hr as (f & Hr & Hf).
    apply list_elem_of_filter in Hf as [Hmatch Hf].
    unfold join_row in Hr.
    apply list_elem_of_bind in Hr as (c & Hr & Hc).
    apply list_elem_of_filter in Hc as [Hcid Hc].
    apply list_elem_of_bind in Hr as (d & Hr & Hd).
    apply list_elem_of_filter in Hd as [Hdid Hd].
    apply list_elem_of_singleton in Hr.
    exists f, c, d. repeat split; assumption.
  - apply length_sql_limit.
  - intros Hsound.
    set (hits := filter _ (chunks_fts db)).
    assert (Hnd : NoDup (map f_rowid hits)).
    { apply NoDup_map_filter. apply Hsound. }
    destruct (join_rows_chunk_ids db (fts_rank E (chunks_fts db) query) hits
                Hsound Hnd) as [Hrows _].
    set (joined := hits ≫= _) in *.
    assert (Hsorted : NoDup (map r_chunk_id (order_by r_rank joined))).
    { rewrite order_by_perm. exact Hrows. }
    unfold sql_limit. destruct (limit <? 0); [exact Hsorted|].
    change (map r_chunk_id (take (Z.to_nat limit) (order_by r_rank joined)))
      with (r_chunk_id <$> take (Z.to_nat limit) (order_by r_rank joined)).
    rewrite fmap_take. eapply sublist_NoDup; [exact Hsorted|apply sublist_take].
Qed.

Lemma insert_by_sorted {A} (key : A → float) (x : A) (l : list A) :
  (∀ y, y ∈ l → PrimFloat.leb (key x) (key y) = false →
        PrimFloat.leb (key y) (key x) = true) →
  Sorted (λ a b, PrimFloat.leb (key a) (key b) = true) l →
  Sorted (λ a b, PrimFloat.leb (key a) (key b) = true) (insert_by key x l).
Proof.
  intros Htotal Hsorted. induction Hsorted as [|y l Hl IH Hy]; cbn [insert_by].
  - repeat constructor.
  - destruct (PrimFloat.leb (key x) (key y)) eqn:Hxy.
    + constructor; [constructor; assumption|]. constructor. exact Hxy.
    + constructor.
      * apply IH. intros z Hz. apply Htotal, list_elem_of_further, Hz.
      * destruct Hy as [|z l' Hyz]; cbn [insert_by].
        -- constructor. apply Htotal; [apply list_elem_of_here|exact Hxy].
        -- destruct (PrimFloat.leb (key x) (key z)); constructor; [|exact Hyz].
           apply Htotal; [apply list_elem_of_here|exact Hxy].
Qed.

Lemma order_by_sorted {A} (key : A → float) (l : list A) :
  (∀ x y, x ∈ l → y ∈ l → PrimFloat.leb (key x) (key y) = false →
          PrimFloat.leb (key y) (key x) = true) →
  Sorted (λ a b, PrimFloat.leb (key a) (key b) = true) (order_by key l).
Proof.
  induction l as [|x l IH]; intros Htotal; cbn [order_by fold_right]; [constructor|].
  apply insert_by_sorted.
  - intros y Hy. apply elem_of_order_by in Hy.
    apply Htotal; [apply list_elem_of_here|apply list_elem_of_further, Hy].
  - apply IH. intros a b Ha Hb. apply Htotal; apply list_elem_of_further; assumption.
Qed.

Lemma Sorted_take {A} (R : A → A → Prop) (l : list A) :
  ∀ n, Sorted R l → Sorted R (take n l).
Proof.
  induction l as [|x l IH]; intros [|n] Hsorted; cbn [take]; try constructor.
  - apply IH. inversion Hsorted; assumption.
  - inversion Hsorted as [|? ? Hl Hhd]; subst.
    destruct Hhd as [|y l' Hxy]; [destruct n; constructor|].
    destruct n; cbn [take]; constructor. exact Hxy.
Qed.

(** X14. When the ranks of the index entries can be compared with one
    another (none is NaN), the rows of [searchChunks] come in ascending
    order of rank: every row's rank is at most the rank of the row after
    it, so the best match is first. *)
Theorem searchChunks_ascending (db : Database) (query : jsstring) (limit : Z)
    (rows : list SearchRow) :
  (∀ f g, f ∈ chunks_fts db → g ∈ chunks_fts db →
          PrimFloat.leb (fts_rank E (chunks_fts db) query f)
                        (fts_rank E (chunks_fts db) query g) = false →
          PrimFloat.leb (fts_rank E (chunks_fts db) query g)
                        (fts_rank E (chunks_fts db) query f) = true) →
  searchChunks E db query limit = inr rows →
  Sorted (λ a b, PrimFloat.leb (r_rank a) (r_rank b) = true) rows.
Proof.
  intros Htotal. unfold searchChunks.
  destruct (fts_query_ok E query); [|discriminate]. intros [= <-].
  assert (Hrank : ∀ r,
            r ∈ (filter (λ f, fts_match E query (f_content f) (f_heading_path f) = true)
                   (chunks_fts db)
                 ≫= λ f, join_row db (fts_rank E (chunks_fts db) query f) f) →
            ∃ f, f ∈ chunks_fts db ∧ r_rank r = fts_rank E (chunks_fts db) query f).
  { intros r Hr. apply list_elem_of_bind in Hr as (f & Hr & Hf).
    apply list_elem_of_filter in Hf as [_ Hf]. exists f. split; [exact Hf|].
    unfold join_row in Hr.
    apply list_elem_of_bind in Hr as (c & Hr & _).
    apply list_elem_of_bind in Hr as (d & Hr & _).
    apply list_elem_of_singleton in Hr. subst r. reflexivity. }
  assert (Hsorted : Sorted (λ a b, PrimFloat.leb (r_rank a) (r_rank b) = true)
                      (order_by r_rank
                         (filter (λ f, fts_match E query (f_content f) (f_heading_path f) = true)
                            (chunks_fts db)
                          ≫= λ f, join_row db (fts_rank E (chunks_fts db) query f) f))).
  { apply order_by_sorted. intros a b Ha Hb.
    destruct (Hrank a Ha) as (f & Hf & ->). destruct (Hrank b Hb) as (g & Hg & ->).
    apply Htotal; assumption. }
  unfold sql_limit. destruct (limit <? 0); [exact Hsorted|].
  apply Sorted_take, Hsorted.
Qed.

End FullTextSearch.

(** Searching the three-chunk database for ["alpha"]: the shorter chunk
    ranks first under the containment engine. *)
Lemma searchChunks_alpha_sample :
  ∃ rows, Db.searchChunks Samples.containment_engine three_chunk_db (js "alpha") 10
          = inr rows ∧
          map Db.r_content rows = [js "alpha"; js "alpha beta"] ∧
          NoDup (map Db.r_chunk_id rows).
Proof.
  eexists. split; [vm_compute; reflexivity|]. split; [reflexivity|].
  eapply (searchChunks_rows Samples.containment_engine three_chunk_db (js "alpha") 10).
  - vm_compute. reflexivity.
  - apply sound_insertDocument, sound_empty.
Defined.

Lemma searchChunks_ascending_sample :
  ∃ rows, Db.searchChunks Samples.containment_engine three_chunk_db (js "alpha") 10
          = inr rows ∧
          Sorted (λ a b, PrimFloat.leb (Db.r_rank a) (Db.r_rank b) = true) rows.
Proof.
  eexists. split; [vm_compute; reflexivity|].
  eapply (searchChunks_ascending Samples.containment_engine three_chunk_db
            (js "alpha") 10).
  - assert (Hall : forallb (λ f, forallb (λ g,
                       PrimFloat.leb
                         (Db.fts_rank Samples.containment_engine
                            (Db.chunks_fts three_chunk_db) (js "alpha") f)
                         (Db.fts_rank Samples.containment_engine
                            (Db.chunks_fts three_chunk_db) (js "alpha") g)
                       || PrimFloat.leb
                            (Db.fts_rank Samples.containment_engine
                               (Db.chunks_fts three_chunk_db) (js "alpha") g)
                            (Db.fts_rank Samples.containment_engine
                               (Db.chunks_fts three_chunk_db) (js "alpha") f))
                     (Db.chunks_fts three_chunk_db))
                    (Db.chunks_fts three_chunk_db) = true)
      by (vm_compute; reflexivity).
    intros f g Hf Hg Hfg. rewrite forallb_forall in Hall.
    apply list_elem_of_In, Hall in Hf. rewrite forallb_forall in Hf.
    apply list_elem_of_In, Hf in Hg. rewrite Hfg in Hg. exact Hg.
  - vm_compute. reflexivity.
Defined.

(** ** Query service: outcomes of a search *)

Section SearchOutcomes.

Import Db Indexing.

Variable E : Fts5.

Lemma filter_keep_row (library version : option jsstring) (l : list SearchRow) :
  List.filter (keep_result library version) (map row_object l)
  = map row_object (List.filter (keep_row library version) l).
Proof.
  induction l as [|r l IH]; [reflexivity|]. cbn [map List.filter].
  rewrite keep_result_row_object, IH. fold (keep_row library version r).
  destruct (keep_row library version r); reflexivity.
Qed.

Lemma filter_keep_row_none (l : list SearchRow) (library version : option jsstring) :
  str_or_null library = None → str_or_null version = None →
  List.filter (keep_row library version) l = l.
Proof.
  intros Hl Hv. unfold keep_row. rewrite Hl, Hv.
  induction l as [|r l IH]; [reflexivity|]. cbn [List.filter andb].
  f_equal. exact IH.
Qed.

Lemma slice0_map {A B} (f : A → B) (l : list A) (e : Z) :
  slice0 (map f l) e = map f (slice0 l e).
Proof. unfold slice0. rewrite length_map, <- firstn_map. reflexivity. Qed.

(** The ways a search ends: with the error of the full-text query, with
    what the handler makes of the value the embeddings service threw, or
    with the shaped rows that pass the filter, cut to the limit. *)
Lemma searchDocuments_cases (embeddings : option EmbeddingsService)
    (db : Database) (query : jsstring) (options : SearchOptions) :
  (∃ e, searchChunks E db query (s_limit options * 2) = inl e ∧
        searchDocuments E embeddings db query options = SearchFailure (JStr e)) ∨
  (∃ rows thrown,
     searchChunks E db query (s_limit options * 2) = inr rows ∧
     embedding_throws embeddings options query thrown ∧
     searchDocuments E embeddings db query options
     = match thrown with
       | ThrownNullish n => SearchRejected n
       | ThrownValue message => SearchFailure message
       end) ∨
  (∃ rows,
     searchChunks E db query (s_limit options * 2) = inr rows ∧
     (∀ thrown, ¬ embedding_throws embeddings options query thrown) ∧
     searchDocuments E embeddings db query options
     = let kept := slice0 (List.filter (keep_row (s_library options)
                                          (s_version options)) rows)
                     (s_limit options) in
       SearchSuccess (map (λ r, shape (row_object r)) kept) query (length kept)).
Proof.
  unfold searchDocuments.
  destruct (searchChunks E db query (s_limit options * 2)) as [e|rows] eqn:Hrows.
  { left. exists e. split; reflexivity. }
  right.
  assert (Hform :
    SearchSuccess
      (map shape
         (slice_limit (s_limit options)
            match str_or_null (s_library options), str_or_null (s_version options) with
            | None, None => map row_object rows
            | _, _ => List.filter (keep_result (s_library options) (s_version options))
                        (map row_object rows)
            end)) query
      (length
         (slice_limit (s_limit options)
            match str_or_null (s_library options), str_or_null (s_version options) with
            | None, None => map row_object rows
            | _, _ => List.filter (keep_result (s_library options) (s_version options))
                        (map row_object rows)
            end))
    = let kept := slice0 (List.filter (keep_row (s_library options)
                                         (s_version options)) rows)
                    (s_limit options) in
      SearchSuccess (map (λ r, shape (row_object r)) kept) query (length kept)).
  { cbn zeta. unfold slice_limit.
    assert (Hkept :
      match str_or_null (s_library options), str_or_null (s_version options) with
      | None, None => map row_object rows
      | _, _ => List.filter (keep_result (s_library options) (s_version options))
                  (map row_object rows)
      end = map row_object (List.filter (keep_row (s_library options)
                                           (s_version options)) rows)).
    { destruct (str_or_null (s_library options)) eqn:Hl,
               (str_or_null (s_version options)) eqn:Hv;
        try apply filter_keep_row.
      rewrite filter_keep_row_none by assumption. reflexivity. }
    rewrite Hkept, slice0_map, map_map, length_map. reflexivity. }
  destruct embeddings as [svc|].
  - destruct (useSemanticSearch options) eqn:Hsem.
    + destruct (generateEmbeddings svc [query]) as [thrown|v] eqn:Hgen.
      * left. exists rows, thrown. split; [reflexivity|]. split.
        -- exists svc. repeat split; assumption.
        -- destruct thrown; reflexivity.
      * right. exists rows. split; [reflexivity|]. split; [|exact Hform].
        intros thrown Hthrow. destruct Hthrow as (svc' & Hsvc & _ & Hthrow).
        injection Hsvc as <-. congruence.
    + right. exists rows. split; [reflexivity|]. split; [|exact Hform].
      intros thrown Hthrow. destruct Hthrow as (svc' & _ & Hfalse & _). congruence.
  - right. exists rows. split; [reflexivity|]. split; [|exact Hform].
    intros thrown Hthrow. destruct Hthrow as (svc' & Hnone & _). discriminate.
Qed.


Lemma length_slice0 {A} (l : list A) (e : Z) :
  0 ≤ e → Z.of_nat (length (slice0 l e)) ≤ e.
Proof.
  intros He. unfold slice0. destruct (Z.ltb_spec e 0); [lia|].
  rewrite length_take. lia.
Qed.

(** X15. A successful [searchDocuments] reports the query and the number
    of results it returns; a limit that is not negative bounds that
    number; and with a library filter (a version filter) every result
    carries exactly that library (that version). *)
Theorem searchDocuments_bounded_and_filtered (embeddings : option EmbeddingsService)
    (db : Database) (query : jsstring) (options : SearchOptions)
    (results : list SearchResult) (q : jsstring) (total : nat) :
  searchDocuments E embeddings db query options = SearchSuccess results q total →
  q = query ∧ total = length results ∧
  (0 ≤ s_limit options → Z.of_nat (length results) ≤ s_limit options) ∧
  (∀ l, str_or_null (s_library options) = Some l →
        Forall (λ res, res_library res = JStr l) results) ∧
  (∀ v, str_or_null (s_version options) = Some v →
        Forall (λ res, res_version res = JStr v) results).
Proof.
  intros Hsearch.
  destruct (searchDocuments_cases embeddings db query options)
    as [(e & _ & Hfail)|[(rows & thrown & _ & _ & Hfail)|(rows & _ & _ & Hok)]];
    [congruence|destruct thrown; congruence|].
  rewrite Hok in Hsearch. cbn zeta in Hsearch. injection Hsearch as <- <- <-.
  split; [reflexivity|]. split; [rewrite length_map; reflexivity|].
  split; [intros Hlimit; rewrite length_map; apply length_slice0, Hlimit|].
  assert (Hkept : ∀ r, r ∈ slice0 (List.filter (keep_row (s_library options)
                                                  (s_version options)) rows)
                          (s_limit options) →
                       keep_row (s_library options) (s_version options) r = true).
  { intros r Hr. apply slice0_sublist, list_elem_of_In, filter_In in Hr as [_ Hr].
    exact Hr. }
  split; intros x Hx; apply Forall_forall; intros res Hres;
    apply list_elem_of_fmap in Hres as (r & -> & Hr);
    apply Hkept in Hr; unfold keep_row in Hr; rewrite Hx in Hr;
    apply andb_true_iff in Hr as [Hl Hv]; rewrite shape_row_object; cbn;
    f_equal; apply jseqb_eq; assumption.
Qed.


(** X17. A negative limit is no limit for the full-text query, and
    [slice(0, limit)] then counts from the end: the search returns all
    rows that pass the filter, in rank order, except the last [-limit] of
    them. *)
Theorem searchDocuments_negative_limit (embeddings : option EmbeddingsService)
    (db : Database) (query : jsstring) (options : SearchOptions)
    (results : list SearchResult) (q : jsstring) (total : nat) :
  s_limit options < 0 →
  searchDocuments E embeddings db query options = SearchSuccess results q total →
  ∃ rows,
    searchChunks E db query (-1) = inr rows ∧
    let kept := List.filter (keep_row (s_library options) (s_version options)) rows in
    results = map (λ r, shape (row_object r))
                (take (length kept - Z.to_nat (- s_limit options)) kept).
Proof.
  intros Hneg Hsearch.
  destruct (searchDocuments_cases embeddings db query options)
    as [(e & _ & Hfail)|[(rows & thrown & _ & _ & Hfail)|(rows & Hrows & _ & Hok)]];
    [congruence|destruct thrown; congruence|].
  rewrite Hok in Hsearch. cbn zeta in Hsearch. injection Hsearch as <- _ _.
  exists rows. split.
  - unfold searchChunks in *. destruct (fts_query_ok E query); [|discriminate].
    unfold sql_limit in *.
    destruct (Z.ltb_spec (s_limit options * 2) 0) as [_|Hge]; [|lia].
    exact Hrows.
  - cbn zeta. f_equal. unfold slice0.
    destruct (Z.ltb_spec (s_limit options) 0) as [_|Hge]; [|lia].
    f_equal. lia.
Qed.

End SearchOutcomes.

(** Searching library ["docs"] for ["alpha"] with limit 1. *)
Lemma searchDocuments_limit_one_sample :
  ∃ results q total,
    Indexing.searchDocuments Samples.containment_engine None three_chunk_db
      (js "alpha") (Indexing.search_options (Some (js "docs")) None (Some 1))
    = Indexing.SearchSuccess results q total ∧
    map Indexing.res_content results = [Indexing.JStr (js "alpha")] ∧
    q = js "alpha" ∧ total = length results ∧
    (0 ≤ 1 → Z.of_nat (length results) ≤ 1) ∧
    (∀ l, Db.str_or_null (Some (js "docs")) = Some l →
          Forall (λ res, Indexing.res_library res = Indexing.JStr l) results) ∧
    (∀ v, Db.str_or_null None = Some v →
          Forall (λ res, Indexing.res_version res = Indexing.JStr v) results).
Proof.
  eexists _, _, _. split; [vm_compute; reflexivity|]. split; [reflexivity|].
  apply (searchDocuments_bounded_and_filtered Samples.containment_engine None
           three_chunk_db (js "alpha")
           (Indexing.search_options (Some (js "docs")) None (Some 1))).
  vm_compute. reflexivity.
Defined.


(** Searching for ["alpha"] with limit -1: of the two matching chunks the
    last one is dropped. *)
Lemma searchDocuments_limit_minus_one :
  ∃ results q total rows,
    Indexing.searchDocuments Samples.containment_engine None three_chunk_db
      (js "alpha") (Indexing.search_options None None (Some (-1)))
    = Indexing.SearchSuccess results q total ∧
    map Indexing.res_content results = [Indexing.JStr (js "alpha")] ∧
    Db.searchChunks Samples.containment_engine three_chunk_db (js "alpha") (-1)
    = inr rows ∧
    map Db.r_content rows = [js "alpha"; js "alpha beta"] ∧
    let kept := List.filter (keep_row None None) rows in
    results = map (λ r, Indexing.shape (Indexing.row_object r))
                (take (length kept - Z.to_nat (- -1)) kept).
Proof.
  destruct (searchDocuments_negative_limit Samples.containment_engine None
              three_chunk_db (js "alpha")
              (Indexing.search_options None None (Some (-1)))
              [Indexing.shape (Indexing.row_object
                 {| Db.r_chunk_id := 2; Db.r_content := js "alpha";
                    Db.r_heading_path := []; Db.r_title := js "Guide";
                    Db.r_library := js "docs"; Db.r_version := js "latest";
                    Db.r_file_path := None;
                    Db.r_rank := PrimFloat.opp (PrimFloat.div 1 6) |})]
              (js "alpha") 1) as (rows & Hrows & Hresults).
  - reflexivity.
  - vm_compute. reflexivity.
  - eexists _, _, _, rows. split; [vm_compute; reflexivity|].
    split; [reflexivity|]. split; [exact Hrows|]. split; [|exact Hresults].
    assert (Hrun : ∃ rows', Db.searchChunks Samples.containment_engine
                     three_chunk_db (js "alpha") (-1) = inr rows' ∧
                     map Db.r_content rows' = [js "alpha"; js "alpha beta"]).
    { eexists. split; [vm_compute; reflexivity|reflexivity]. }
    destruct Hrun as (rows' & Hrows' & Hcontent). congruence.
Defined.

(** ** Indexing service: what a run stores *)

Section IndexingOutcomes.

Import Db Indexing.

Lemma consecutive_app (first : Z) (n m : nat) :
  consecutive first (n + m)
  = consecutive first n ++ consecutive (first + Z.of_nat n) m.
Proof.
  revert first. induction n as [|n IH]; intros first.
  - cbn [Nat.add app]. change (consecutive first 0) with (@nil Z).
    cbn [app]. f_equal. lia.
  - cbn [Nat.add]. rewrite !consecutive_S, IH. cbn [app]. do 3 f_equal. lia.
Qed.

Lemma sum_list_cons (x : nat) (l : list nat) :
  sum_list (x :: l) = (x + sum_list l)%nat.
Proof. reflexivity. Qed.

Lemma pair_embeddings_cons (id : Z) (ids : list Z) (vs : list (list float)) :
  pair_embeddings (id :: ids) vs
  = (id, head vs) :: pair_embeddings ids (tail vs).
Proof.
  unfold pair_embeddings. rewrite imap_cons. f_equal.
  - destruct vs; reflexivity.
  - apply imap_ext. intros i x _. destruct vs; reflexivity.
Qed.

Lemma pair_embeddings_valid (db : Database) (ids : list Z) :
  ∀ vs, (length ids ≤ length vs)%nat → Forall (stored_chunk db) ids →
  Forall (valid_entry db) (pair_embeddings ids vs).
Proof.
  induction ids as [|id ids IH]; intros vs Hlen Hids; [constructor|].
  rewrite pair_embeddings_cons. apply Forall_cons in Hids as [Hid Hids].
  destruct vs as [|v vs]; [cbn in Hlen; lia|]. constructor.
  - split; [discriminate|exact Hid].
  - apply IH; [cbn in Hlen |- *; lia|exact Hids].
Qed.

Lemma pair_embeddings_short (db : Database) (ids : list Z) :
  ∀ vs, (length vs < length ids)%nat →
  Exists (λ entry, ¬ valid_entry db entry) (pair_embeddings ids vs).
Proof.
  induction ids as [|id ids IH]; intros vs Hlen; [cbn in Hlen; lia|].
  rewrite pair_embeddings_cons. destruct vs as [|v vs].
  - left. intros [Hv _]. apply Hv. reflexivity.
  - right. apply IH. cbn in Hlen |- *. lia.
Qed.

Lemma pair_embeddings_rows (rows : list EmbeddingRow) :
  ∀ ids vs, (length ids ≤ length vs)%nat →
  map (λ e, (e_chunk_id e, Some (e_embedding e))) rows = pair_embeddings ids vs →
  map e_chunk_id rows = ids ∧ map e_embedding rows = take (length ids) vs.
Proof.
  induction rows as [|r rows IH]; intros [|id ids] vs Hlen Hrows.
  - split; reflexivity.
  - rewrite pair_embeddings_cons in Hrows. discriminate.
  - discriminate.
  - rewrite pair_embeddings_cons in Hrows. destruct vs as [|v vs]; [cbn in Hlen; lia|].
    cbn [map head tail] in Hrows. injection Hrows as Hid Hv Hrest.
    apply IH in Hrest as [Hids Hvs]; [|cbn in Hlen; lia].
    cbn [map length take]. rewrite Hid, Hv, Hids, Hvs. split; reflexivity.
Qed.

(** The embedding step of [indexFile] for one document: it stores one row
    per chunk id, or nothing. *)
Lemma embed_chunks_cases (svc : EmbeddingsService) (db : Database)
    (cs : list Splitter.Chunk) (ids : list Z) :
  Forall (stored_chunk db) ids →
  same_text (embed_chunks svc db cs ids).1 db ∧
  seq_embeddings db ≤ seq_embeddings (embed_chunks svc db cs ids).1 ∧
  ((∃ vs rows,
      generateEmbeddings svc (map Splitter.content cs) = inr vs ∧
      (length ids ≤ length vs)%nat ∧
      (embed_chunks svc db cs ids).2 = None ∧
      embeddings (embed_chunks svc db cs ids).1 = embeddings db ++ rows ∧
      map e_chunk_id rows = ids ∧
      map e_embedding rows = take (length ids) vs) ∨
   ((embed_chunks svc db cs ids).1 = db ∧
    ((∃ thrown,
        generateEmbeddings svc (map Splitter.content cs) = inl thrown ∧
        (embed_chunks svc db cs ids).2
        = match thrown with
          | ThrownNullish n => Some n
          | ThrownValue _ => None
          end) ∨
     (∃ vs, generateEmbeddings svc (map Splitter.content cs) = inr vs ∧
            (length vs < length ids)%nat ∧
            (embed_chunks svc db cs ids).2 = None)))).
Proof.
  intros Hids. split; [apply embed_chunks_same_text|].
  unfold embed_chunks.
  destruct (generateEmbeddings svc (map Splitter.content cs))
    as [thrown|vs] eqn:Hgen.
  { assert (Hdb : (match thrown with
                   | ThrownNullish n => (db, Some n)
                   | ThrownValue _ => (db, None)
                   end).1 = db) by (destruct thrown; reflexivity).
    rewrite Hdb. split; [lia|]. right. split; [reflexivity|]. left.
    exists thrown. split; [reflexivity|]. destruct thrown; reflexivity. }
  cbn [fst snd].
  destruct (le_lt_dec (length ids) (length vs)) as [Hlen|Hlen].
  - destruct (insert_many_valid (pair_embeddings ids vs) db
                (pair_embeddings_valid db ids vs Hlen Hids))
      as (db1 & rows & Hmany & Hrows & Hmap).
    unfold insertEmbeddings. rewrite Hmany. cbn [fst].
    apply pair_embeddings_rows in Hmap as [Hc Hv]; [|exact Hlen].
    split.
    + clear - Hmany. revert db Hmany.
      induction (pair_embeddings ids vs) as [|[id v] l IH]; intros db Hmany.
      * injection Hmany as <-. lia.
      * cbn [insert_many] in Hmany.
        destruct (insert_embeddings db id v) as [e|db2] eqn:Hins; [discriminate|].
        apply IH in Hmany. unfold insert_embeddings in Hins.
        destruct v; [|discriminate].
        destruct (existsb _ _); [|discriminate].
        injection Hins as <-. cbn [seq_embeddings] in Hmany. lia.
    + left. exists vs, rows. repeat split; assumption.
  - destruct (insert_many_invalid (pair_embeddings ids vs) db
                (pair_embeddings_short db ids vs Hlen)) as (e & Hmany).
    unfold insertEmbeddings. rewrite Hmany. cbn [fst].
    split; [lia|]. right. split; [reflexivity|]. right.
    exists vs. repeat split. exact Hlen.
Qed.

Lemma embed_chunks_sound (svc : EmbeddingsService) (db : Database)
    (cs : list Splitter.Chunk) (ids : list Z) :
  sound db → sound (embed_chunks svc db cs ids).1.
Proof.
  intros Hsound. unfold embed_chunks.
  destruct (generateEmbeddings svc _) as [[thrown|message]|vs]; cbn [fst];
    [exact Hsound|exact Hsound|].
  apply sound_insertEmbeddings, Hsound.
Qed.

Lemma of_chunk_content (cs : list Splitter.Chunk) :
  Forall (λ ch, content ch ≠ None) (map of_chunk cs).
Proof.
  apply Forall_forall. intros ch Hch.
  apply list_elem_of_fmap in Hch as (c & -> & _). discriminate.
Qed.

Lemma consecutive_stored (db : Database) (rows : list ChunkRow) (ids : list Z) :
  (∃ before, chunks db = before ++ rows) → map c_id rows = ids →
  Forall (stored_chunk db) ids.
Proof.
  intros [before Hrows] <-. apply Forall_forall. intros id Hid.
  apply list_elem_of_fmap in Hid as (c & -> & Hc).
  exists c. split; [|reflexivity]. rewrite Hrows. apply elem_of_app. right. exact Hc.
Qed.

(** The loop of [indexFile] over documents that all name a library, on a
    sound database: it ends normally, and what it has stored. *)
Lemma index_documents_ok (H : Host) (svc : EmbeddingsService)
    (path : jsstring) (o : IndexOptions) (l : jsstring)
    (docs : list LogicalDocument) :
  ∀ (db : Database) (n total : nat) (results : list IndexedDocument),
  sound db → Forall (λ d, ld_library d = Some l) docs →
  Forall (λ d, ¬ rejects_bare svc (chunk_texts path o d)) docs →
  ∃ db' new rows crows,
    index_documents H svc path o db docs n total results
    = (db', inr ((total + sum_list (map indexed_chunks new))%nat, results ++ new)) ∧
    sound db' ∧
    map documentId new = consecutive (seq_documents db + 1) (length docs) ∧
    map indexed_title new = map ld_title docs ∧
    map indexed_chunks new = map (λ d, length (chunks_of path o d)) docs ∧
    documents db' = documents db ++ rows ∧
    map d_id rows = consecutive (seq_documents db + 1) (length docs) ∧
    map d_title rows = map ld_title docs ∧
    Forall (λ r, d_library r = l ∧ d_file_path r = None) rows ∧
    map d_version rows
    = map (λ d, str_or (Some (ld_version d)) (js "latest")) docs ∧
    map d_indexed_at rows = map (clock H) (seq n (length docs)) ∧
    chunks db' = chunks db ++ crows ∧
    map c_id crows
    = consecutive (seq_chunks db + 1) (sum_list (map indexed_chunks new)).
Proof.
  induction docs as [|doc rest IH]; intros db n total results Hsound Hlib Hkeeps.
  - exists db, [], [], []. cbn [index_documents map sum_list length seq].
    rewrite Nat.add_0_r, !app_nil_r. split; [reflexivity|].
    split; [exact Hsound|]. repeat split; try reflexivity. constructor.
  - apply Forall_cons in Hlib as [Hdoc Hrest].
    apply Forall_cons in Hkeeps as [Hkeep Hkeeps].
    destruct (insertDocument_ok (clock H n) db (as_document doc)
                (map of_chunk (chunks_of path o doc)) (ld_title doc) l
                Hsound eq_refl Hdoc (of_chunk_content _))
      as (db1 & crows1 & Hins & Hsound1 & Hd1 & _ & Hsd1 & _ & Hsc1 & Hc1 & Hid1).
    rewrite length_map in Hins, Hsc1, Hid1.
    cbn [index_documents]. rewrite Hins.
    unfold chunk_texts in Hkeep.
    set (cs := chunks_of path o doc) in *.
    set (ids := consecutive (seq_chunks db + 1) (length cs)) in *.
    pose proof (embed_chunks_same_text svc db1 cs ids) as Hsame.
    pose proof (embed_chunks_sound svc db1 cs ids Hsound1) as Hsound2.
    apply (embed_chunks_returns svc db1 cs ids) in Hkeep.
    destruct (embed_chunks svc db1 cs ids) as [db2 out].
    cbn [fst snd] in Hsame, Hsound2, Hkeep. subst out.
    destruct Hsame as (Hd2 & Hc2 & _ & Hsd2 & Hsc2).
    destruct (IH db2 (S n) (total + length cs)%nat
                (results ++
                   [{| documentId := seq_documents db + 1;
                       indexed_title := ld_title doc;
                       indexed_chunks := length cs |}]) Hsound2 Hrest Hkeeps)
      as (db' & new & rows & crows & Hrun & Hsound' & Hnew & Htitles & Hcounts
          & Hdocs & Hrid & Hrtitle & Hrlib & Hrver & Hrat & Hchunks & Hcid).
    rewrite Hsd2, Hsd1 in Hnew, Hrid. rewrite Hsc2, Hsc1 in Hcid.
    rewrite Hd2, Hd1 in Hdocs. rewrite Hc2, Hc1 in Hchunks.
    exists db',
      ({| documentId := seq_documents db + 1; indexed_title := ld_title doc;
          indexed_chunks := length cs |} :: new),
      ({| d_id := seq_documents db + 1; d_title := ld_title doc; d_library := l;
          d_version := str_or (Some (ld_version doc)) (js "latest");
          d_file_path := None; d_indexed_at := clock H n |} :: rows),
      (crows1 ++ crows).
    split.
    { rewrite Hrun. f_equal. f_equal. f_equal.
      - cbn [map indexed_chunks]. rewrite sum_list_cons. lia.
      - rewrite <- app_assoc. reflexivity. }
    split; [exact Hsound'|].
    cbn [map length documentId indexed_title indexed_chunks
         d_id d_title d_version d_indexed_at seq].
    rewrite sum_list_cons.
    rewrite !consecutive_S, consecutive_app, map_app.
    split; [f_equal; exact Hnew|]. split; [f_equal; exact Htitles|].
    split; [f_equal; exact Hcounts|].
    split; [rewrite Hdocs, <- app_assoc; reflexivity|].
    split; [f_equal; exact Hrid|]. split; [f_equal; exact Hrtitle|].
    split; [constructor; [split; reflexivity|exact Hrlib]|].
    split; [f_equal; exact Hrver|]. split; [f_equal; exact Hrat|].
    split; [rewrite Hchunks, <- app_assoc; reflexivity|].
    f_equal; [exact Hid1|]. rewrite Hcid. f_equal. lia.
Qed.

Lemma parts_documents_spec (H : Host) (path : jsstring) (o : IndexOptions)
    (v : jsstring) (parts : list jsstring) :
  ∀ i,
  (length (parts_documents H path o v parts i) ≤ length parts)%nat ∧
  Forall (λ d, ld_library d = library o ∧ ld_version d = v ∧
               trim (ld_content d) = ld_content d ∧
               nonempty (ld_content d) = true)
    (parts_documents H path o v parts i).
Proof.
  induction parts as [|p parts IH]; intros i.
  - split; [reflexivity|constructor].
  - cbn [parts_documents]. destruct (IH (i + 1)%nat) as [Hlen Hall].
    destruct (nonempty (trim p)) eqn:Hp; cbn [app length].
    + split; [lia|]. constructor; [|exact Hall].
      cbn [ld_library ld_version ld_content].
      repeat split; [apply trim_idem|exact Hp].
    + split; [lia|exact Hall].
Qed.

Lemma logical_documents_library (H : Host) (path : jsstring) (o : IndexOptions)
    (content : jsstring) :
  Forall (λ d, ld_library d = library o ∧
               ld_version d = default (js "latest") (version o))
    (logical_documents H path o content).
Proof.
  unfold logical_documents. destruct (str_or_null (separator o)) as [sep|].
  - destruct (parts_documents_spec H path o (default (js "latest") (version o))
                (split sep content) 0) as [_ Hall].
    eapply Forall_impl; [exact Hall|]. intros d (Hl & Hv & _). split; assumption.
  - constructor; [split; reflexivity|constructor].
Qed.

Lemma str_or_default_latest (v : option jsstring) :
  str_or (Some (default (js "latest") v)) (js "latest") = str_or v (js "latest").
Proof. destruct v; reflexivity. Qed.

Lemma splitText_blank (this : Splitter.SimpleTextSplitter) (text : jsstring)
    (md : Splitter.Metadata) :
  nonempty (trim text) = false → Splitter.splitText this text md = [].
Proof.
  intros Hblank. apply ink_nil_of_blank in Hblank.
  pose proof (ink_split_final this text md) as Hink.
  pose proof (split_final_trimmed this text md) as Htrim.
  rewrite splitText_final.
  destruct (Splitter.chunks (split_final this text md)) as [|c cs]; [reflexivity|].
  exfalso. apply Forall_cons in Htrim as [[Hne Hfix] _].
  rewrite Hblank in Hink. cbn [map concat] in Hink. rewrite ink_app in Hink.
  apply app_eq_nil in Hink as [Hc _].
  apply trim_nil in Hc. rewrite Hfix in Hc. contradiction.
Qed.

(** The loop of [indexFile] stops at its first document when no library
    was given: nothing is stored. *)
Lemma index_documents_no_library (H : Host) (svc : EmbeddingsService)
    (path : jsstring) (o : IndexOptions) (db : Database)
    (doc : LogicalDocument) (rest : list LogicalDocument) (n total : nat)
    (results : list IndexedDocument) :
  ld_library doc = None →
  index_documents H svc path o db (doc :: rest) n total results
  = (db, inl (js "NOT NULL constraint failed: documents.library")).
Proof.
  intros Hdoc. cbn [index_documents]. unfold insertDocument.
  cbn [as_document Db.title Db.library]. rewrite Hdoc. reflexivity.
Qed.

Lemma rejects_bare_or_not (svc : EmbeddingsService) (texts : list jsstring) :
  rejects_bare svc texts ∨ ¬ rejects_bare svc texts.
Proof.
  unfold rejects_bare.
  destruct (generateEmbeddings svc texts) as [[thrown|message]|vs].
  - left. eauto.
  - right. intros [thrown Hthrown]. discriminate.
  - right. intros [thrown Hthrown]. discriminate.
Qed.

(** The first document whose chunk texts the service rejects with
    [undefined] or [null], if there is one. *)
Lemma first_rejected (svc : EmbeddingsService) (path : jsstring)
    (o : IndexOptions) (docs : list LogicalDocument) :
  Forall (λ d, ¬ rejects_bare svc (chunk_texts path o d)) docs ∨
  ∃ before d after,
    docs = before ++ d :: after ∧
    Forall (λ d, ¬ rejects_bare svc (chunk_texts path o d)) before ∧
    rejects_bare svc (chunk_texts path o d).
Proof.
  induction docs as [|d docs IH]; [left; constructor|].
  destruct (rejects_bare_or_not svc (chunk_texts path o d)) as [Hd|Hd].
  - right. exists [], d, docs. split; [reflexivity|]. split; [constructor|exact Hd].
  - destruct IH as [Hall|(before & d' & after & -> & Hbefore & Hd')].
    + left. constructor; assumption.
    + right. exists (d :: before), d', after. split; [reflexivity|].
      split; [constructor; assumption|exact Hd'].
Qed.

Lemma index_documents_app (H : Host) (svc : EmbeddingsService)
    (path : jsstring) (o : IndexOptions) (xs ys : list LogicalDocument) :
  ∀ (db : Database) (n total : nat) (results : list IndexedDocument),
  index_documents H svc path o db (xs ++ ys) n total results
  = match index_documents H svc path o db xs n total results with
    | (db', inl e) => (db', inl e)
    | (db', inr (t, r)) =>
        index_documents H svc path o db' ys (n + length xs) t r
    end.
Proof.
  induction xs as [|x xs IH]; intros db n total results.
  - cbn [app index_documents length]. rewrite Nat.add_0_r. reflexivity.
  - cbn [app index_documents length].
    destruct (insertDocument (clock H n) db (as_document x) _)
      as [db1 [e|[documentId chunkIds]]]; [reflexivity|].
    destruct (embed_chunks svc db1 (chunks_of path o x) chunkIds)
      as [db2 [thrown|]]; [reflexivity|].
    rewrite IH. replace (S n + length xs)%nat with (n + S (length xs))%nat by lia.
    reflexivity.
Qed.

(** The loop of [indexFile] on a sound database, over documents that all
    name a library, when the service rejects the chunk texts of a document
    with [undefined] or [null] and of none before it: the loop is left at
    that document by the TypeError of the handler, with the documents up to
    and including it stored. *)
Lemma index_documents_stops (H : Host) (svc : EmbeddingsService)
    (path : jsstring) (o : IndexOptions) (l : jsstring)
    (before after : list LogicalDocument) (d : LogicalDocument)
    (thrown : Nullish) (db : Database) (n total : nat)
    (results : list IndexedDocument) :
  sound db →
  Forall (λ d, ld_library d = Some l) (before ++ d :: after) →
  Forall (λ d, ¬ rejects_bare svc (chunk_texts path o d)) before →
  generateEmbeddings svc (chunk_texts path o d) = inl (ThrownNullish thrown) →
  ∃ db' rows,
    index_documents H svc path o db (before ++ d :: after) n total results
    = (db', inl (cannot_read_message H thrown)) ∧
    documents db' = documents db ++ rows ∧
    map d_title rows = map ld_title (before ++ [d]).
Proof.
  intros Hsound Hlib Hkeeps Hthrown.
  apply Forall_app in Hlib as [Hlib_before Hlib_rest].
  apply Forall_cons in Hlib_rest as [Hlib_d _].
  rewrite index_documents_app.
  destruct (index_documents_ok H svc path o l before db n total results Hsound
              Hlib_before Hkeeps)
    as (db0 & new & rows & crows & Hrun & Hsound0 & _ & _ & _ & Hdocs & _
        & Htitles & _).
  rewrite Hrun. cbn [index_documents].
  destruct (insertDocument_ok (clock H (n + length before)) db0 (as_document d)
              (map of_chunk (chunks_of path o d)) (ld_title d) l
              Hsound0 eq_refl Hlib_d (of_chunk_content _))
    as (db1 & crows1 & Hins & _ & Hd1 & _).
  rewrite Hins.
  pose proof (embed_chunks_same_text svc db1 (chunks_of path o d)
                (consecutive (seq_chunks db0 + 1)
                   (length (map of_chunk (chunks_of path o d))))) as Hsame.
  pose proof (proj2 (embed_chunks_throws svc db1 (chunks_of path o d)
                       (consecutive (seq_chunks db0 + 1)
                          (length (map of_chunk (chunks_of path o d))))
                       thrown) Hthrown) as Hout.
  destruct (embed_chunks svc db1 (chunks_of path o d) _) as [db2 out].
  cbn [fst snd] in Hsame, Hout. subst out.
  exists db2, (rows ++
                 [{| d_id := seq_documents db0 + 1; d_title := ld_title d;
                     d_library := l;
                     d_version := str_or (Db.version (as_document d)) (js "latest");
                     d_file_path := str_or_null (filePath (as_document d));
                     d_indexed_at := clock H (n + length before) |}]).
  split; [reflexivity|]. destruct Hsame as (Hd2 & _). split.
  - rewrite Hd2, Hd1, Hdocs, <- app_assoc. reflexivity.
  - rewrite !map_app, Htitles. reflexivity.
Qed.

(** X18. On a sound database [indexFile] reports a failure exactly when
    the file does not exist, reading it throws, no library is given and
    the file yields at least one document, or a library is given and the
    embeddings service rejects the chunk texts of some document with
    [undefined] or [null] (the handler of the embedding step then throws
    on [error.message]).  In the first three cases the database is left
    as it was.  In the last case the error is the message of the handler's
    TypeError, and the documents up to and including the first one so
    rejected are stored.  (A file that yields no document, made of blank
    parts only, is indexed successfully even without a library.) *)
Theorem indexFile_fails_iff (H : Host) (svc : EmbeddingsService)
    (db : Database) (path : jsstring) (o : IndexOptions) :
  sound db →
  ((∃ e, (indexFile H svc db path o).2 = IndexFailure e) ↔
   existsSync H path = false ∨
   (∃ e, readFileSync H path = inl e) ∨
   (∃ content, readFileSync H path = inr content ∧ library o = None ∧
               logical_documents H path o content ≠ []) ∨
   (∃ content, readFileSync H path = inr content ∧ library o ≠ None ∧
               Exists (λ d, rejects_bare svc (chunk_texts path o d))
                 (logical_documents H path o content))) ∧
  (∀ e, (indexFile H svc db path o).2 = IndexFailure e →
        (∀ content, existsSync H path = true →
                    readFileSync H path = inr content → library o ≠ None →
                    Forall (λ d, ¬ rejects_bare svc (chunk_texts path o d))
                      (logical_documents H path o content)) →
        (indexFile H svc db path o).1 = db) ∧
  (∀ content before d after thrown,
     existsSync H path = true → readFileSync H path = inr content →
     library o ≠ None →
     logical_documents H path o content = before ++ d :: after →
     Forall (λ d, ¬ rejects_bare svc (chunk_texts path o d)) before →
     generateEmbeddings svc (chunk_texts path o d) = inl (ThrownNullish thrown) →
     ∃ rows,
       (indexFile H svc db path o).2 = IndexFailure (cannot_read_message H thrown) ∧
       documents (indexFile H svc db path o).1 = documents db ++ rows ∧
       map d_title rows = map ld_title (before ++ [d])).
Proof.
  intros Hsound. unfold indexFile.
  destruct (existsSync H path) eqn:Hex; cbn [negb].
  2:{ split; [split; [left; reflexivity|eauto]|].
      split; [reflexivity|]. intros; discriminate. }
  destruct (readFileSync H path) as [e|content] eqn:Hread.
  { split; [split; [right; left; eauto|eauto]|].
    split; [reflexivity|]. intros; discriminate. }
  pose proof (logical_documents_library H path o content) as Hdocs.
  destruct (library o) as [l|] eqn:Hlib.
  - assert (Hall : Forall (λ d, ld_library d = Some l)
                     (logical_documents H path o content)).
    { eapply Forall_impl; [exact Hdocs|]. intros d [Hd _]. exact Hd. }
    assert (Hstops : ∀ before d after thrown,
              logical_documents H path o content = before ++ d :: after →
              Forall (λ d, ¬ rejects_bare svc (chunk_texts path o d)) before →
              generateEmbeddings svc (chunk_texts path o d)
              = inl (ThrownNullish thrown) →
              ∃ db' rows,
                index_documents H svc path o db
                  (logical_documents H path o content) 0 0 []
                = (db', inl (cannot_read_message H thrown)) ∧
                documents db' = documents db ++ rows ∧
                map d_title rows = map ld_title (before ++ [d])).
    { intros before d after thrown Hsplit Hbefore Hthrown.
      rewrite Hsplit in Hall |- *.
      apply (index_documents_stops H svc path o l); assumption. }
    destruct (first_rejected svc path o (logical_documents H path o content))
      as [Hkeeps|(before & d & after & Hsplit & Hbefore & [thrown Hthrown])].
    + destruct (index_documents_ok H svc path o l
                  (logical_documents H path o content) db 0 0 [] Hsound Hall
                  Hkeeps) as (db' & new & rows & crows & Hrun & _).
      split; [|split].
      * rewrite Hrun. cbn [fst snd]. split; [intros [e He]; discriminate|].
        intros [Hno|[[e He]|[(c & _ & Hnone & _)|(c & Hc & _ & Hbare)]]];
          try discriminate.
        injection Hc as <-. exfalso.
        apply Exists_exists in Hbare as (d & Hd & Hbare).
        rewrite Forall_forall in Hkeeps. exact (Hkeeps d Hd Hbare).
      * rewrite Hrun. cbn [fst snd]. discriminate.
      * intros c before d after thrown _ [= <-] _ Hsplit Hbefore Hthrown.
        destruct (Hstops before d after thrown Hsplit Hbefore Hthrown)
          as (db2 & rows2 & Hrun2 & _).
        rewrite Hrun in Hrun2. discriminate.
    + destruct (Hstops before d after thrown Hsplit Hbefore Hthrown)
        as (db' & rows & Hrun & Hrows & Htitles).
      split; [|split].
      * rewrite Hrun. cbn [fst snd]. split; [|eauto].
        intros _. right. right. right. exists content.
        split; [reflexivity|]. split; [discriminate|].
        rewrite Hsplit. apply Exists_app. right. left. exists thrown. exact Hthrown.
      * intros e _ Hkeeps. exfalso.
        specialize (Hkeeps content eq_refl eq_refl). rewrite Hsplit in Hkeeps.
        assert (Hsome : Some l ≠ None) by discriminate.
        specialize (Hkeeps Hsome).
        apply Forall_app in Hkeeps as [_ Hkeeps].
        apply Forall_cons in Hkeeps as [Hd _]. apply Hd. exists thrown. exact Hthrown.
      * intros c before' d' after' thrown' _ [= <-] _ Hsplit' Hbefore' Hthrown'.
        destruct (Hstops before' d' after' thrown' Hsplit' Hbefore' Hthrown')
          as (db2 & rows2 & Hrun2 & Hrows2 & Htitles2).
        rewrite Hrun2. cbn [fst snd]. exists rows2.
        split; [reflexivity|]. split; assumption.
  - destruct (logical_documents H path o content) as [|doc rest] eqn:Hlist.
    + cbn [index_documents fst snd]. split; [|split].
      * split; [intros [e He]; discriminate|].
        intros [Hno|[[e He]|[(c & Hc & _ & Hne)|(c & _ & Hsome & _)]]];
          try discriminate; [|contradiction].
        injection Hc as <-. rewrite Hlist in Hne. contradiction.
      * discriminate.
      * intros c before d after thrown _ _ Hsome. contradiction.
    + apply Forall_cons in Hdocs as [[Hdoc _] _].
      rewrite index_documents_no_library by exact Hdoc. cbn [fst snd].
      split; [|split].
      * split; [|eauto].
        intros _. right. right. left. exists content. rewrite Hlist.
        repeat split; discriminate.
      * reflexivity.
      * intros c before d after thrown _ _ Hsome. contradiction.
Qed.

(** X19. With a library, a readable file, a sound database and an
    embeddings service that rejects no document's chunk texts with
    [undefined] or [null] (it may throw anything else), [indexFile]
    succeeds: it stores one document row per logical document, in order,
    under the next consecutive ids, with the document's title, the given
    library, the given version (["latest"] when absent or empty), the
    time of its insert and never a file path; it reports these ids and
    titles with the number of chunks of each document, and [totalChunks]
    is their sum, the number of chunk rows added. *)
Theorem indexFile_stores_documents (H : Host) (svc : EmbeddingsService)
    (db : Database) (path : jsstring) (o : IndexOptions)
    (content l : jsstring) :
  sound db → existsSync H path = true → readFileSync H path = inr content →
  library o = Some l →
  Forall (λ d, ¬ rejects_bare svc (chunk_texts path o d))
    (logical_documents H path o content) →
  let docs := logical_documents H path o content in
  ∃ db' total results rows crows,
    indexFile H svc db path o = (db', IndexSuccess (length docs) total results) ∧
    total = sum_list (map indexed_chunks results) ∧
    map documentId results = consecutive (seq_documents db + 1) (length docs) ∧
    map indexed_title results = map ld_title docs ∧
    map indexed_chunks results = map (λ d, length (chunks_of path o d)) docs ∧
    documents db' = documents db ++ rows ∧
    map d_id rows = map documentId results ∧
    map d_title rows = map ld_title docs ∧
    Forall (λ r, d_library r = l ∧
                 d_version r = str_or (version o) (js "latest") ∧
                 d_file_path r = None) rows ∧
    map d_indexed_at rows = map (clock H) (seq 0 (length docs)) ∧
    chunks db' = chunks db ++ crows ∧
    map c_id crows = consecutive (seq_chunks db + 1) total.
Proof.
  intros Hsound Hex Hread Hlib Hkeeps docs.
  pose proof (logical_documents_library H path o content) as Hdocs.
  fold docs in Hdocs, Hkeeps. rewrite Hlib in Hdocs.
  destruct (index_documents_ok H svc path o l docs db 0 0 [] Hsound)
    as (db' & new & rows & crows & Hrun & _ & Hnew & Htitles & Hcounts & Hrows
        & Hrid & Hrtitle & Hrlib & Hrver & Hrat & Hchunks & Hcid);
    [|exact Hkeeps|].
  { eapply Forall_impl; [exact Hdocs|]. intros d [Hd _]. exact Hd. }
  exists db', (sum_list (map indexed_chunks new)), new, rows, crows.
  split.
  { unfold indexFile. rewrite Hex, Hread. cbn [negb]. fold docs.
    rewrite Hrun. reflexivity. }
  split; [reflexivity|]. split; [exact Hnew|]. split; [exact Htitles|].
  split; [exact Hcounts|]. split; [exact Hrows|].
  split; [rewrite Hrid, Hnew; reflexivity|]. split; [exact Hrtitle|].
  split; [|split; [exact Hrat|split; [exact Hchunks|exact Hcid]]].
  apply Forall_forall. intros r Hr. rewrite Forall_forall in Hrlib.
  destruct (Hrlib r Hr) as [Hl Hp]. split; [exact Hl|]. split; [|exact Hp].
  assert (Hv : d_version r ∈ map d_version rows)
    by (apply list_elem_of_fmap; eauto).
  rewrite Hrver in Hv. apply list_elem_of_fmap in Hv as (d & -> & Hd).
  rewrite Forall_forall in Hdocs. destruct (Hdocs d Hd) as [_ ->].
  apply str_or_default_latest.
Qed.

(** X20. With a separator, [indexFile] makes at most one document per
    part of the file, each with a trimmed content and at least one chunk:
    blank parts are skipped.  Without a separator it makes exactly one
    document of the whole content, which has no chunk exactly when the
    file is blank. *)
Theorem indexFile_documents_have_chunks (H : Host) (path : jsstring)
    (o : IndexOptions) (content : jsstring) :
  let docs := logical_documents H path o content in
  (∀ sep, str_or_null (separator o) = Some sep →
     (length docs ≤ length (split sep content))%nat ∧
     Forall (λ d, trim (ld_content d) = ld_content d ∧ chunks_of path o d ≠ [])
       docs) ∧
  (str_or_null (separator o) = None →
     ∃ d, docs = [d] ∧ ld_content d = content ∧
          (chunks_of path o d = [] ↔ nonempty (trim content) = false)).
Proof.
  cbn zeta. unfold logical_documents. split.
  - intros sep ->.
    destruct (parts_documents_spec H path o (default (js "latest") (version o))
                (split sep content) 0) as [Hlen Hall].
    split; [exact Hlen|]. eapply Forall_impl; [exact Hall|].
    intros d (_ & _ & Htrim & Hne). split; [exact Htrim|].
    intros Hnil. rewrite <- Htrim in Hne.
    apply (splitText_nonempty splitter (ld_content d)
             {| Splitter.md_source := Some path;
                Splitter.md_library := library o;
                Splitter.md_version :=
                  Some (default (js "latest") (version o)) |}) in Hne.
    unfold chunks_of in Hnil. rewrite Hnil in Hne. cbn in Hne. lia.
  - intros ->. eexists. split; [reflexivity|]. split; [reflexivity|].
    unfold chunks_of. cbn [ld_content]. split.
    + intros Hnil. destruct (nonempty (trim content)) eqn:Hne; [|reflexivity].
      apply (splitText_nonempty splitter content
               {| Splitter.md_source := Some path;
                  Splitter.md_library := library o;
                  Splitter.md_version :=
                    Some (default (js "latest") (version o)) |}) in Hne.
      rewrite Hnil in Hne. cbn in Hne. lia.
    + apply splitText_blank.
Qed.

(** The embedding rows the loop of [indexFile] adds when the service
    answers every batch in full. *)
Lemma index_documents_embeddings (H : Host) (svc : EmbeddingsService)
    (path : jsstring) (o : IndexOptions) (l : jsstring)
    (docs : list LogicalDocument) :
  answers_each svc →
  ∀ (db : Database) (n total : nat) (results : list IndexedDocument),
  sound db → Forall (λ d, ld_library d = Some l) docs →
  ∃ erows,
    embeddings (index_documents H svc path o db docs n total results).1
    = embeddings db ++ erows ∧
    map e_chunk_id erows
    = consecutive (seq_chunks db + 1)
        (sum_list (map (λ d, length (chunks_of path o d)) docs)) ∧
    map e_embedding erows
    = docs ≫= (λ d, service_vectors svc
                      (map Splitter.content (chunks_of path o d))).
Proof.
  intros Hsvc.
  induction docs as [|doc rest IH]; intros db n total results Hsound Hlib.
  - exists []. cbn [index_documents fst]. rewrite app_nil_r.
    repeat split; reflexivity.
  - apply Forall_cons in Hlib as [Hdoc Hrest].
    destruct (insertDocument_ok (clock H n) db (as_document doc)
                (map of_chunk (chunks_of path o doc)) (ld_title doc) l
                Hsound eq_refl Hdoc (of_chunk_content _))
      as (db1 & crows1 & Hins & Hsound1 & _ & He1 & _ & _ & Hsc1 & Hc1 & Hid1).
    rewrite length_map in Hins, Hsc1, Hid1.
    cbn [index_documents]. rewrite Hins.
    set (cs := chunks_of path o doc) in *.
    set (ids := consecutive (seq_chunks db + 1) (length cs)) in *.
    assert (Hids : Forall (stored_chunk db1) ids)
      by (eapply consecutive_stored; [eauto|exact Hid1]).
    destruct (embed_chunks_cases svc db1 cs ids Hids)
      as ((_ & _ & _ & _ & Hsc2) & _ & Hcases).
    pose proof (embed_chunks_sound svc db1 cs ids Hsound1) as Hsound2.
    destruct (Hsvc (map Splitter.content cs)) as (vs & Hgen & Hlen).
    rewrite length_map in Hlen.
    assert (Hidlen : length ids = length cs) by apply length_consecutive.
    destruct Hcases as [(vs' & rows & Hgen' & _ & Hout & Hrows & Hrid & Hrv)
                       |(_ & [(thrown & Hthrown & _)|(vs' & Hgen' & Hshort & _)])];
      [|congruence|rewrite Hgen in Hgen'; injection Hgen' as <-; lia].
    rewrite Hgen in Hgen'. injection Hgen' as <-.
    rewrite take_ge in Hrv by lia.
    destruct (embed_chunks svc db1 cs ids) as [db2 out].
    cbn [fst snd] in Hsc2, Hsound2, Hout, Hrows. subst out.
    destruct (IH db2 (S n) (total + length cs)%nat
                (results ++
                   [{| documentId := seq_documents db + 1;
                       indexed_title := ld_title doc;
                       indexed_chunks := length cs |}]) Hsound2 Hrest)
      as (erows & Hemb & Heid & Hev).
    exists (rows ++ erows). split; [|split].
    + rewrite Hemb, Hrows, He1, <- app_assoc. reflexivity.
    + cbn [map]. rewrite sum_list_cons, consecutive_app, map_app.
      fold cs. f_equal; [exact Hrid|]. rewrite Heid, Hsc2, Hsc1.
      f_equal. lia.
    + rewrite map_app, Hrv.
      change ((doc :: rest) ≫= _)
        with (service_vectors svc (map Splitter.content cs)
              ++ (rest ≫= (λ d, service_vectors svc
                                  (map Splitter.content (chunks_of path o d))))).
      unfold service_vectors at 1. rewrite Hgen. f_equal. exact Hev.
Qed.

(** X21. With an embeddings service that returns one vector per text, a
    successful [indexFile] stores exactly one embedding row per chunk it
    stored, in chunk order: the rows carry the ids of the new chunks and,
    document by document, the vectors the service returned for that
    document's chunk contents. *)
Theorem indexFile_embeds_every_chunk (H : Host) (svc : EmbeddingsService)
    (db : Database) (path : jsstring) (o : IndexOptions)
    (content l : jsstring) :
  sound db → answers_each svc →
  existsSync H path = true → readFileSync H path = inr content →
  library o = Some l →
  let docs := logical_documents H path o content in
  ∃ erows,
    embeddings (indexFile H svc db path o).1 = embeddings db ++ erows ∧
    map e_chunk_id erows
    = consecutive (seq_chunks db + 1)
        (sum_list (map (λ d, length (chunks_of path o d)) docs)) ∧
    map e_embedding erows
    = docs ≫= (λ d, service_vectors svc
                      (map Splitter.content (chunks_of path o d))).
Proof.
  intros Hsound Hsvc Hex Hread Hlib docs.
  pose proof (logical_documents_library H path o content) as Hdocs.
  fold docs in Hdocs. rewrite Hlib in Hdocs.
  destruct (index_documents_embeddings H svc path o l docs Hsvc db 0 0 []
              Hsound) as (erows & Hemb & Hids & Hvs).
  { eapply Forall_impl; [exact Hdocs|]. intros d [Hd _]. exact Hd. }
  exists erows. split; [|split; assumption].
  rewrite <- Hemb. unfold indexFile. rewrite Hex, Hread. cbn [negb]. fold docs.
  destruct (index_documents H svc path o db docs 0 0 []) as [db' [e|[t r]]];
    reflexivity.
Qed.

(** X22. The embedding step of [indexFile] is all or nothing for a
    document whose chunks are stored: when the service returns at least
    as many vectors as there are chunks, one embedding row per chunk is
    added, in order, with the first vectors returned (surplus vectors are
    ignored) and nothing else changes; when it throws or returns fewer
    vectors, the database stays exactly as it was.  The step ends normally
    in all these cases but one: when the service throws [undefined] or
    [null], the handler throws. *)
Theorem embed_chunks_all_or_nothing (svc : EmbeddingsService) (db : Database)
    (cs : list Splitter.Chunk) (ids : list Z) :
  Forall (stored_chunk db) ids →
  match generateEmbeddings svc (map Splitter.content cs) with
  | inr vs =>
      if (length ids <=? length vs)%nat then
        ∃ rows,
          (embed_chunks svc db cs ids).2 = None ∧
          embeddings (embed_chunks svc db cs ids).1 = embeddings db ++ rows ∧
          map e_chunk_id rows = ids ∧
          map e_embedding rows = take (length ids) vs ∧
          same_text (embed_chunks svc db cs ids).1 db
      else embed_chunks svc db cs ids = (db, None)
  | inl (ThrownValue _) => embed_chunks svc db cs ids = (db, None)
  | inl (ThrownNullish thrown) => embed_chunks svc db cs ids = (db, Some thrown)
  end.
Proof.
  intros Hids.
  destruct (embed_chunks_cases svc db cs ids Hids) as (Hsame & _ & Hcases).
  destruct (generateEmbeddings svc (map Splitter.content cs))
    as [thrown|vs] eqn:Hgen.
  - destruct Hcases as [(vs' & rows & Hgen' & _)
                       |[Hdb [(thrown' & [= <-] & Hout)|(vs' & Hgen' & _)]]];
      try discriminate.
    destruct (embed_chunks svc db cs ids) as [db' out].
    cbn [fst snd] in Hdb, Hout. subst db' out. destruct thrown; reflexivity.
  - destruct (Nat.leb_spec (length ids) (length vs)) as [Hle|Hlt].
    + destruct Hcases as [(vs' & rows & Hgen' & _ & Hout & Hrows & Hrid & Hrv)
                         |(_ & [(thrown & Hthrown & _)|(vs' & Hgen' & Hshort & _)])].
      * injection Hgen' as <-. exists rows. repeat split; try assumption;
          apply Hsame.
      * discriminate.
      * injection Hgen' as <-. lia.
    + destruct Hcases as [(vs' & rows & Hgen' & Hle & _)
                         |[Hdb [(thrown & Hthrown & _)|(vs' & _ & _ & Hout)]]].
      * injection Hgen' as <-. lia.
      * discriminate.
      * destruct (embed_chunks svc db cs ids) as [db' out].
        cbn [fst snd] in Hdb, Hout. subst db' out. reflexivity.
Qed.

End IndexingOutcomes.

Lemma mock_answers_each (Msin : float → float) :
  answers_each (Indexing.mock_service Msin).
Proof.
  intros texts. eexists. split; [reflexivity|]. apply length_map.
Qed.

(** Indexing [guide.md] without naming a library, and into library
    ["docs"] with a service that rejects without a reason. *)
Lemma indexFile_without_library :
  (∃ e,
     (Indexing.indexFile Samples.host Samples.failing_service Db.empty
        (js "guide.md")
        {| Indexing.library := None; Indexing.version := None;
           Indexing.title := None; Indexing.separator := None |}).2
     = Indexing.IndexFailure e ∧
     (Indexing.indexFile Samples.host Samples.failing_service Db.empty
        (js "guide.md")
        {| Indexing.library := None; Indexing.version := None;
           Indexing.title := None; Indexing.separator := None |}).1
     = Db.empty) ∧
  (∃ rows,
     (Indexing.indexFile Samples.host Samples.bare_rejecting_service Db.empty
        (js "guide.md") Samples.docs_options).2
     = Indexing.IndexFailure
         (js "Cannot read properties of undefined (reading 'message')") ∧
     Db.documents
       (Indexing.indexFile Samples.host Samples.bare_rejecting_service Db.empty
          (js "guide.md") Samples.docs_options).1
     = Db.documents Db.empty ++ rows ∧
     map Db.d_title rows = [js "guide"]).
Proof.
  split.
  - destruct (indexFile_fails_iff Samples.host Samples.failing_service Db.empty
                (js "guide.md")
                {| Indexing.library := None; Indexing.version := None;
                   Indexing.title := None; Indexing.separator := None |}
                sound_empty) as ([_ Hfail] & Hsame & _).
    destruct Hfail as [e He].
    + right. right. left. exists Samples.intro_setup.
      split; [reflexivity|]. split; [reflexivity|]. discriminate.
    + exists e. split; [exact He|]. apply (Hsame e He).
      intros content _ _ Hlibrary. exfalso. apply Hlibrary. reflexivity.
  - destruct (indexFile_fails_iff Samples.host Samples.bare_rejecting_service
                Db.empty (js "guide.md") Samples.docs_options sound_empty)
      as (_ & _ & Hstops).
    destruct (Hstops Samples.intro_setup []
                {| Indexing.ld_title := js "guide";
                   Indexing.ld_content := Samples.intro_setup;
                   Indexing.ld_url := js "file://" ++ js "guide.md";
                   Indexing.ld_library := Some (js "docs");
                   Indexing.ld_version := js "latest" |}
                [] Indexing.NUndefined)
      as (rows & Hout & Hrows & Htitles); try reflexivity.
    + discriminate.
    + constructor.
    + exists rows. split; [exact Hout|]. split; [exact Hrows|exact Htitles].
Defined.

(** Indexing [guide.md] into library ["docs"]: one document of two chunks,
    stored without a file path. *)
Lemma indexFile_guide_sample :
  ∃ db' total results,
    Indexing.indexFile Samples.host Samples.failing_service Db.empty
      (js "guide.md") Samples.docs_options
    = (db', Indexing.IndexSuccess 1 total results) ∧
    map Indexing.documentId results = [1] ∧
    map Indexing.indexed_chunks results = [2%nat] ∧
    map Db.d_file_path (Db.documents db') = [None].
Proof.
  destruct (indexFile_stores_documents Samples.host Samples.failing_service
              Db.empty (js "guide.md") Samples.docs_options Samples.intro_setup
              (js "docs") sound_empty eq_refl eq_refl eq_refl)
    as (db' & total & results & rows & crows & Hrun & _ & Hids & _ & Hcounts
        & Hdocs & Hrid & _ & Hrows & _).
  { apply Forall_forall. intros d _ [thrown Hthrown]. discriminate. }
  exists db', total, results. split; [exact Hrun|].
  split; [rewrite Hids; reflexivity|].
  split; [rewrite Hcounts; vm_compute; reflexivity|].
  rewrite Hdocs. cbn [Db.documents Db.empty app].
  assert (Hlen : length rows = 1%nat).
  { rewrite <- (length_map Db.d_id), Hrid, Hids. reflexivity. }
  destruct rows as [|r [|r' rows]]; try discriminate.
  apply Forall_cons in Hrows as [(_ & _ & Hpath) _]. cbn [map]. rewrite Hpath.
  reflexivity.
Defined.

(** Indexing [guide.md] with the mock embeddings: an embedding for each of
    the two chunks. *)
Lemma indexFile_guide_embeddings :
  ∃ erows,
    Db.embeddings
      (Indexing.indexFile Samples.host (Indexing.mock_service Samples.cubic_sin)
         Db.empty (js "guide.md") Samples.docs_options).1
    = erows ∧
    map Db.e_chunk_id erows = [1; 2].
Proof.
  destruct (indexFile_embeds_every_chunk Samples.host
              (Indexing.mock_service Samples.cubic_sin) Db.empty (js "guide.md")
              Samples.docs_options Samples.intro_setup (js "docs") sound_empty
              (mock_answers_each Samples.cubic_sin) eq_refl eq_refl eq_refl)
    as (erows & Hemb & Hids & _).
  exists erows. split; [exact Hemb|]. rewrite Hids. vm_compute. reflexivity.
Defined.

(** A service that returns no vector for a chunk: nothing is stored, and
    the step ends normally. *)
Lemma embed_chunks_too_few_vectors :
  Indexing.embed_chunks {| Indexing.generateEmbeddings := λ _, inr [] |}
    Samples.one_chunk_db [] [1]
  = (Samples.one_chunk_db, None).
Proof.
  apply (embed_chunks_all_or_nothing
           {| Indexing.generateEmbeddings := λ _, inr [] |}
           Samples.one_chunk_db [] [1]).
  constructor; [|constructor].
  eexists. split; [apply list_elem_of_here|reflexivity].
Defined.

(** ** Mock embeddings: symmetry of the similarity *)

Section Similarity.

Import Mock.

(** IEEE multiplication commutes, rounding included. *)
Lemma float_mul_comm (x y : float) : PrimFloat.mul x y = PrimFloat.mul y x.
Proof.
  apply FloatAxioms.Prim2SF_inj. rewrite !FloatAxioms.mul_spec.
  unfold FloatAxioms.SF64mul, SpecFloat.SFmul.
  destruct (FloatOps.Prim2SF x) as [sx|sx| |sx mx ex],
           (FloatOps.Prim2SF y) as [sy|sy| |sy my ey];
    try reflexivity; try (rewrite xorb_comm; reflexivity).
  rewrite xorb_comm, Pos.mul_comm, (Z.add_comm ex ey). reflexivity.
Qed.

(** The accumulators of the loop with the two vectors exchanged. *)
Lemma sim_fold_swap (a b : list float) (idx : list nat) :
  ∀ acc acc',
  dotProduct acc' = dotProduct acc → magnitude1 acc' = magnitude2 acc →
  magnitude2 acc' = magnitude1 acc →
  dotProduct (fold_left (sim_step b a) idx acc')
  = dotProduct (fold_left (sim_step a b) idx acc) ∧
  magnitude1 (fold_left (sim_step b a) idx acc')
  = magnitude2 (fold_left (sim_step a b) idx acc) ∧
  magnitude2 (fold_left (sim_step b a) idx acc')
  = magnitude1 (fold_left (sim_step a b) idx acc).
Proof.
  induction idx as [|i idx IH]; intros acc acc' Hd H1 H2; [auto|].
  cbn [fold_left]. apply IH; unfold sim_step; cbn [dotProduct magnitude1 magnitude2].
  - rewrite Hd, (float_mul_comm (at_index b i)). reflexivity.
  - rewrite H1. reflexivity.
  - rewrite H2. reflexivity.
Qed.

(** X23. [calculateSimilarity] is symmetric, rounding included: exchanging
    the two vectors gives the same number, or the same error. *)
Theorem calculateSimilarity_symmetric (a b : list float) :
  calculateSimilarity a b = calculateSimilarity b a.
Proof.
  unfold calculateSimilarity. rewrite (Nat.eqb_sym (length b)).
  destruct (Nat.eqb_spec (length a) (length b)) as [Hlen|_]; [|reflexivity].
  cbn [negb]. rewrite <- Hlen.
  destruct (sim_fold_swap a b (seq 0 (length a))
              {| dotProduct := 0; magnitude1 := 0; magnitude2 := 0 |}
              {| dotProduct := 0; magnitude1 := 0; magnitude2 := 0 |}
              eq_refl eq_refl eq_refl) as (Hd & H1 & H2).
  cbn zeta. rewrite Hd, H1, H2, orb_comm, float_mul_comm. reflexivity.
Qed.

End Similarity.

(** ** Storage engine: the listing of libraries *)

Section Libraries.

Import Db.

Variable text_leb : jsstring → jsstring → bool.

Lemma insert_library_perm (x : LibraryRow) (l : list LibraryRow) :
  insert_library text_leb x l ≡ₚ x :: l.
Proof.
  induction l as [|y l IH]; [reflexivity|]. cbn [insert_library].
  destruct (library_leb text_leb x y); [reflexivity|].
  rewrite IH. apply Permutation_swap.
Qed.

Lemma sort_library_perm (l : list LibraryRow) :
  foldr (insert_library text_leb) [] l ≡ₚ l.
Proof.
  induction l as [|x l IH]; [reflexivity|]. cbn [foldr].
  rewrite insert_library_perm, IH. reflexivity.
Qed.

Lemma getLibraries_perm (db : Database) :
  getLibraries text_leb db ≡ₚ
  map (group_row (documents db)) (remove_dups (map library_key (documents db))).
Proof. apply sort_library_perm. Qed.

Lemma elem_of_getLibraries (db : Database) (r : LibraryRow) :
  r ∈ getLibraries text_leb db ↔
  ∃ d, d ∈ documents db ∧ r = group_row (documents db) (library_key d).
Proof.
  rewrite getLibraries_perm, list_elem_of_fmap. split.
  - intros (k & -> & Hk). apply elem_of_remove_dups, list_elem_of_fmap in Hk
      as (d & -> & Hd). eauto.
  - intros (d & Hd & ->). exists (library_key d). split; [reflexivity|].
    apply elem_of_remove_dups, list_elem_of_fmap. eauto.
Qed.

Lemma total_count_perm (l k : list LibraryRow) :
  l ≡ₚ k → total_count l = total_count k.
Proof.
  unfold total_count.
  induction 1 as [|x l k _ IH|x y l|l k m _ IH1 _ IH2]; cbn [map foldr];
    [reflexivity|lia|lia|congruence].
Qed.

Lemma count_split (docs : list DocumentRow) (k : jsstring * jsstring)
    (ks : list (jsstring * jsstring)) :
  k ∉ ks →
  length (filter (λ d, library_key d ∈ k :: ks) docs)
  = (length (filter (λ d, library_key d = k) docs)
     + length (filter (λ d, library_key d ∈ ks) docs))%nat.
Proof.
  intros Hk. induction docs as [|d docs IH]; [reflexivity|].
  destruct (decide (library_key d = k)) as [Heq|Hne].
  - rewrite (filter_cons_True (λ d, library_key d ∈ k :: ks))
      by (rewrite Heq; apply list_elem_of_here).
    rewrite (filter_cons_True (λ d, library_key d = k)) by exact Heq.
    rewrite (filter_cons_False (λ d, library_key d ∈ ks))
      by (rewrite Heq; exact Hk).
    cbn [length]. lia.
  - rewrite (filter_cons_False (λ d, library_key d = k)) by exact Hne.
    destruct (decide (library_key d ∈ ks)) as [Hin|Hout].
    + rewrite (filter_cons_True (λ d, library_key d ∈ k :: ks))
        by (apply list_elem_of_further, Hin).
      rewrite (filter_cons_True (λ d, library_key d ∈ ks)) by exact Hin.
      cbn [length]. lia.
    + rewrite (filter_cons_False (λ d, library_key d ∈ k :: ks))
        by (intros Hin; apply elem_of_cons in Hin as [?|?]; contradiction).
      rewrite (filter_cons_False (λ d, library_key d ∈ ks)) by exact Hout.
      exact IH.
Qed.

Lemma count_groups (docs : list DocumentRow) (ks : list (jsstring * jsstring)) :
  NoDup ks →
  total_count (map (group_row docs) ks)
  = Z.of_nat (length (filter (λ d, library_key d ∈ ks) docs)).
Proof.
  induction 1 as [|k ks Hk _ IH].
  - cbn. rewrite filter_none; [reflexivity|].
    apply Forall_forall. intros d _ Hd. apply elem_of_nil in Hd. exact Hd.
  - rewrite count_split by exact Hk. unfold total_count in *.
    cbn [map foldr]. rewrite IH. cbn [group_row document_count]. lia.
Qed.

Lemma max_indexed_at (members : list DocumentRow) :
  members ≠ [] →
  (∃ d, d ∈ members ∧ d_indexed_at d = foldr N.max 0%N (map d_indexed_at members)) ∧
  ∀ d, d ∈ members →
       (d_indexed_at d ≤ foldr N.max 0%N (map d_indexed_at members))%N.
Proof.
  induction members as [|d members IH]; [contradiction|]. intros _.
  cbn [map foldr]. destruct members as [|d' members].
  - cbn [map foldr]. split.
    + exists d. split; [apply list_elem_of_here|lia].
    + intros x Hx. apply list_elem_of_singleton in Hx as ->. lia.
  - destruct IH as [(m & Hm & Hmax) Hle]; [discriminate|].
    set (rest := foldr N.max 0%N (map d_indexed_at (d' :: members))) in *.
    split.
    + destruct (N.max_spec (d_indexed_at d) rest) as [[_ ->]|[_ ->]].
      * exists m. split; [apply list_elem_of_further, Hm|exact Hmax].
      * exists d. split; [apply list_elem_of_here|reflexivity].
    + intros x Hx. apply elem_of_cons in Hx as [->|Hx]; [lia|].
      specialize (Hle x Hx). lia.
Qed.

(** X24. [getLibraries] has exactly one row for each pair of library and
    version that some document carries.  The row counts the documents of
    the pair, which is at least one, and [last_indexed] is the time of
    the latest of them.  The counts add up to the number of documents. *)
Theorem getLibraries_groups (db : Database) :
  NoDup (map (λ r, (lr_library r, lr_version r)) (getLibraries text_leb db)) ∧
  (∀ l v, (∃ r, r ∈ getLibraries text_leb db ∧
                lr_library r = l ∧ lr_version r = v) ↔
          (∃ d, d ∈ documents db ∧ d_library d = l ∧ d_version d = v)) ∧
  (∀ r, r ∈ getLibraries text_leb db →
        let members :=
          filter (λ d, d_library d = lr_library r ∧ d_version d = lr_version r)
            (documents db) in
        document_count r = Z.of_nat (length members) ∧
        1 ≤ document_count r ∧
        (∃ d, d ∈ members ∧ d_indexed_at d = last_indexed r) ∧
        (∀ d, d ∈ members → (d_indexed_at d ≤ last_indexed r)%N)) ∧
  total_count (getLibraries text_leb db) = Z.of_nat (length (documents db)).
Proof.
  split; [|split; [|split]].
  - rewrite getLibraries_perm, map_map. cbn [group_row lr_library lr_version].
    rewrite (map_ext _ id) by (intros [? ?]; reflexivity).
    rewrite map_id. apply NoDup_remove_dups.
  - intros l v. split.
    + intros (r & Hr & <- & <-). apply elem_of_getLibraries in Hr as (d & Hd & ->).
      exists d. repeat split; assumption.
    + intros (d & Hd & <- & <-). exists (group_row (documents db) (library_key d)).
      split; [|split; reflexivity].
      apply elem_of_getLibraries. eauto.
  - intros r Hr. apply elem_of_getLibraries in Hr as (d0 & Hd0 & ->).
    cbn [group_row lr_library lr_version document_count last_indexed library_key
         fst snd].
    assert (Hsame : filter (λ d, d_library d = d_library d0 ∧
                                 d_version d = d_version d0) (documents db)
                    = filter (λ d, library_key d = library_key d0) (documents db)).
    { apply list_filter_iff. intros d. unfold library_key. split.
      - intros [-> ->]. reflexivity.
      - intros [= -> ->]. split; reflexivity. }
    cbn zeta. rewrite Hsame.
    assert (Hin : d0 ∈ filter (λ d, library_key d = library_key d0) (documents db))
      by (apply list_elem_of_filter; split; [reflexivity|exact Hd0]).
    destruct (max_indexed_at
                (filter (λ d, library_key d = library_key d0) (documents db)))
      as [Hmax Hle].
    { intros Hnil. rewrite Hnil in Hin. apply elem_of_nil in Hin. exact Hin. }
    split; [reflexivity|]. split; [|split; assumption].
    destruct (filter (λ d, library_key d = library_key d0) (documents db));
      [apply elem_of_nil in Hin; contradiction|cbn [length]; lia].
  - rewrite (total_count_perm _ _ (getLibraries_perm db)).
    rewrite count_groups by apply NoDup_remove_dups. f_equal. f_equal.
    apply filter_all, Forall_forall. intros d Hd.
    apply elem_of_remove_dups, list_elem_of_fmap. eauto.
Qed.

Lemma total_count_getLibraries (db : Database) :
  total_count (getLibraries text_leb db) = Z.of_nat (length (documents db)).
Proof.
  rewrite (total_count_perm _ _ (getLibraries_perm db)).
  rewrite count_groups by apply NoDup_remove_dups. f_equal. f_equal.
  apply filter_all, Forall_forall. intros d Hd.
  apply elem_of_remove_dups, list_elem_of_fmap. eauto.
Qed.

Lemma length_getDocuments (db : Database) (library version : option jsstring) :
  length (getDocuments db library version)
  = length (filter (λ d, where_library library version d = true) (documents db)).
Proof. rewrite getDocuments_perm, length_map. reflexivity. Qed.

(** X25. The counts of [getLibraries] agree with [getDocuments]: a row
    whose library and version are not empty counts as many documents as
    [getDocuments] lists for that library and version, and the counts of
    all rows add up to the length of the unfiltered listing. *)
Theorem getLibraries_counts_getDocuments (db : Database) (r : LibraryRow) :
  r ∈ getLibraries text_leb db →
  nonempty (lr_library r) = true → nonempty (lr_version r) = true →
  document_count r
  = Z.of_nat (length (getDocuments db (Some (lr_library r))
                        (Some (lr_version r)))) ∧
  total_count (getLibraries text_leb db)
  = Z.of_nat (length (getDocuments db None None)).
Proof.
  intros Hr Hl Hv. split.
  - apply elem_of_getLibraries in Hr as (d0 & Hd0 & ->).
    cbn [group_row lr_library lr_version document_count library_key fst snd] in *.
    rewrite length_getDocuments. do 2 f_equal. apply list_filter_iff. intros d.
    rewrite where_library_spec. cbn [str_or_null]. rewrite Hl, Hv.
    unfold library_key. split.
    + intros [= -> ->]. split; intros x [= <-]; reflexivity.
    + intros [H1 H2]. rewrite (H1 _ eq_refl), (H2 _ eq_refl). reflexivity.
  - rewrite total_count_getLibraries, length_getDocuments. do 2 f_equal.
    symmetry. apply filter_all, Forall_forall. intros d _.
    apply where_library_spec. split; intros x [=].
Qed.

Lemma group_row_kept (docs : list DocumentRow) (library : jsstring)
    (version : option jsstring) (d0 : DocumentRow) :
  delete_where library version d0 = false →
  group_row (filter (λ d, delete_where library version d = false) docs)
    (library_key d0)
  = group_row docs (library_key d0).
Proof.
  intros Hkeep. unfold group_row.
  assert (Hsame : filter (λ d, library_key d = library_key d0)
                    (filter (λ d, delete_where library version d = false) docs)
                  = filter (λ d, library_key d = library_key d0) docs).
  { rewrite list_filter_filter. apply list_filter_iff. intros d. split; [tauto|].
    intros Hkey. split; [exact Hkey|].
    destruct (delete_where library version d) eqn:Hdel; [|reflexivity].
    apply delete_where_spec in Hdel as [Hl Hv].
    assert (Hdel0 : delete_where library version d0 = true).
    { apply delete_where_spec. unfold library_key in Hkey.
      injection Hkey as Hkl Hkv. rewrite <- Hkl, <- Hkv. split; assumption. }
    congruence. }
  cbn zeta. rewrite Hsame. reflexivity.
Qed.

(** X26. After [deleteLibrary], [getLibraries] has lost exactly the rows of
    the deleted library (of the deleted version only, when a version was
    given); every other row is listed as before, with the same count and
    time. *)
Theorem deleteLibrary_then_getLibraries (db : Database) (library : jsstring)
    (version : option jsstring) (r : LibraryRow) :
  r ∈ getLibraries text_leb (deleteLibrary db library version).1 ↔
  r ∈ getLibraries text_leb db ∧
  ¬ (lr_library r = library ∧
     ∀ v, str_or_null version = Some v → lr_version r = v).
Proof.
  rewrite !elem_of_getLibraries. cbn [deleteLibrary fst documents]. split.
  - intros (d & Hd & ->). apply list_elem_of_filter in Hd as [Hkeep Hd].
    rewrite group_row_kept by exact Hkeep. split; [eauto|].
    cbn [group_row lr_library lr_version library_key fst snd].
    intros Hdel. apply delete_where_spec in Hdel. congruence.
  - intros [(d & Hd & ->) Hnot]. exists d.
    assert (Hkeep : delete_where library version d = false).
    { destruct (delete_where library version d) eqn:Hdel; [|reflexivity].
      exfalso. apply Hnot. apply delete_where_spec in Hdel. exact Hdel. }
    split; [apply list_elem_of_filter; split; assumption|].
    symmetry. apply group_row_kept, Hkeep.
Qed.

Lemma library_leb_before (a b : LibraryRow) :
  text_order text_leb →
  library_leb text_leb a b = true ↔ library_before text_leb a b.
Proof.
  intros (Htotal & _ & _). unfold library_leb, library_before.
  destruct (jseqb (lr_library a) (lr_library b)) eqn:Heq.
  - apply jseqb_eq in Heq. rewrite Heq. split.
    + intros Hv. split; [|auto]. destruct (Htotal (lr_library b) (lr_library b)); assumption.
    + intros [_ Hv]. apply Hv. reflexivity.
  - split.
    + intros Hl. split; [exact Hl|]. intros Hsame.
      apply jseqb_eq in Hsame. congruence.
    + intros [Hl _]. exact Hl.
Qed.

Lemma library_before_trans (a b c : LibraryRow) :
  text_order text_leb →
  library_before text_leb a b → library_before text_leb b c →
  library_before text_leb a c.
Proof.
  intros (_ & Htrans & Hanti) [Hab Hvab] [Hbc Hvbc]. split.
  - eapply Htrans; eassumption.
  - intros Hac. rewrite Hac in Hab.
    pose proof (Hanti _ _ Hbc Hab) as Hbc'.
    eapply Htrans; [apply Hvab; congruence|apply Hvbc; congruence].
Qed.

Lemma library_before_total (a b : LibraryRow) :
  text_order text_leb →
  library_leb text_leb a b = false → library_before text_leb b a.
Proof.
  intros Horder Hab. pose proof Horder as (Htotal & _ & _).
  unfold library_leb in Hab. unfold library_before.
  destruct (jseqb (lr_library a) (lr_library b)) eqn:Heq.
  - apply jseqb_eq in Heq. rewrite Heq. split.
    + destruct (Htotal (lr_library b) (lr_library b)); assumption.
    + intros _. destruct (Htotal (lr_version a) (lr_version b)); congruence.
  - split.
    + destruct (Htotal (lr_library a) (lr_library b)); congruence.
    + intros Hsame. symmetry in Hsame. apply jseqb_eq in Hsame. congruence.
Qed.

Lemma insert_library_sorted (x : LibraryRow) (l : list LibraryRow) :
  text_order text_leb →
  StronglySorted (library_before text_leb) l →
  StronglySorted (library_before text_leb) (insert_library text_leb x l).
Proof.
  intros Horder. induction 1 as [|y l Hl IH Hy]; cbn [insert_library].
  - repeat constructor.
  - destruct (library_leb text_leb x y) eqn:Hxy.
    + apply library_leb_before in Hxy; [|exact Horder].
      constructor; [constructor; assumption|].
      constructor; [exact Hxy|].
      eapply Forall_impl; [exact Hy|]. intros z Hz.
      eapply library_before_trans; eassumption.
    + constructor; [exact IH|].
      rewrite insert_library_perm. constructor; [|exact Hy].
      apply library_before_total; assumption.
Qed.

(** X27. [getLibraries] lists its rows by library and, within a library,
    by version, in the order of the collation. *)
Theorem getLibraries_sorted (db : Database) :
  text_order text_leb →
  StronglySorted (library_before text_leb) (getLibraries text_leb db).
Proof.
  intros Horder. unfold getLibraries. cbn zeta.
  induction (map (group_row (documents db))
               (remove_dups (map library_key (documents db)))) as [|x l IH];
    [constructor|].
  cbn [foldr]. apply insert_library_sorted; assumption.
Qed.

End Libraries.

Lemma unit_leb_order : text_order unit_leb.
Proof.
  split; [|split].
  - induction a as [|x a IH]; intros [|y b]; cbn [unit_leb]; auto.
    destruct (N.eqb_spec x y) as [->|Hxy].
    + rewrite N.eqb_refl. apply IH.
    + destruct (N.eqb_spec y x) as [->|_]; [contradiction|].
      destruct (N.ltb_spec x y), (N.ltb_spec y x); auto; lia.
  - induction a as [|x a IH]; intros [|y b] [|z c]; cbn [unit_leb];
      try reflexivity; try discriminate.
    destruct (N.eqb_spec x y) as [->|Hxy], (N.eqb_spec y z) as [->|Hyz].
    + apply IH.
    + auto.
    + destruct (N.eqb_spec x z); [contradiction|]. auto.
    + intros Hlt1 Hlt2. apply N.ltb_lt in Hlt1, Hlt2.
      destruct (N.eqb_spec x z); [lia|]. apply N.ltb_lt. lia.
  - induction a as [|x a IH]; intros [|y b]; cbn [unit_leb];
      try reflexivity; try discriminate.
    destruct (N.eqb_spec x y) as [->|Hxy].
    + rewrite N.eqb_refl. intros H1 H2. f_equal. apply IH; assumption.
    + destruct (N.eqb_spec y x) as [->|_]; [contradiction|].
      intros Hlt1 Hlt2. apply N.ltb_lt in Hlt1, Hlt2. lia.
Qed.

(** The library listing of a database with one document of library
    ["docs"], against its document listing. *)
Lemma getLibraries_docs_sample :
  getLibraries unit_leb three_chunk_db
  = [{| lr_library := js "docs"; lr_version := js "latest";
        document_count := 1; last_indexed := 1 |}] ∧
  1 = Z.of_nat (length (Db.getDocuments three_chunk_db (Some (js "docs"))
                          (Some (js "latest")))) ∧
  total_count (getLibraries unit_leb three_chunk_db)
  = Z.of_nat (length (Db.getDocuments three_chunk_db None None)).
Proof.
  split; [vm_compute; reflexivity|].
  apply (getLibraries_counts_getDocuments unit_leb three_chunk_db
           {| lr_library := js "docs"; lr_version := js "latest";
              document_count := 1; last_indexed := 1 |}).
  - assert (Hrows : getLibraries unit_leb three_chunk_db
                    = [{| lr_library := js "docs"; lr_version := js "latest";
                          document_count := 1; last_indexed := 1 |}])
      by (vm_compute; reflexivity).
    rewrite Hrows. apply list_elem_of_here.
  - reflexivity.
  - reflexivity.
Defined.

(** The library listing of three documents of the libraries ["b"], ["a"]
    and ["b"]: ["a"] comes first, and ["b"] counts two documents. *)
Lemma getLibraries_sorted_sample :
  map (λ r, (lr_library r, document_count r))
    (getLibraries unit_leb (three_documents (js "alpha") (js "b") (js "a") (js "b")))
  = [(js "a", 1); (js "b", 2)] ∧
  StronglySorted (library_before unit_leb)
    (getLibraries unit_leb (three_documents (js "alpha") (js "b") (js "a") (js "b"))).
Proof.
  split; [vm_compute; reflexivity|].
  apply (getLibraries_sorted unit_leb
           (three_documents (js "alpha") (js "b") (js "a") (js "b"))
           unit_leb_order).
Defined.

(** ** Chunker: the chunk objects *)

Section ChunkObjects.

Import Splitter.

(** Every chunk in the state is the [createChunk] of a trimmed buffer that
    was not blank. *)
Lemma split_step_created (this : SimpleTextSplitter) (md : Metadata)
    (st : SplitState) (p : jsstring) :
  Forall (λ c, ∃ s hp idx, nonempty (trim s) = true ∧
                           c = createChunk (trim s) hp idx md) (chunks st) →
  Forall (λ c, ∃ s hp idx, nonempty (trim s) = true ∧
                           c = createChunk (trim s) hp idx md)
    (chunks (split_step this md st p)).
Proof.
  intros Hall. unfold split_step.
  destruct (nonempty (trim p)); cbn [negb]; [|exact Hall].
  destruct (heading_match (trim p)) as [[level headingText]|].
  - destruct (nonempty (trim (currentChunk st))) eqn:Hcur; cbn [chunks flush];
      [|exact Hall].
    apply Forall_app. split; [exact Hall|]. constructor; [|constructor]. eauto.
  - cbn zeta.
    destruct (Z.of_nat (length (currentChunk st ++ trim p ++ blank_line))
              >? maxChunkSize this); cbn [andb]; [|exact Hall].
    destruct (nonempty (trim (currentChunk st))) eqn:Hcur; cbn [chunks flush];
      [|exact Hall].
    apply Forall_app. split; [exact Hall|]. constructor; [|constructor]. eauto.
Qed.

Lemma splitText_created (this : SimpleTextSplitter) (text : jsstring)
    (md : Metadata) :
  Forall (λ c, ∃ s hp idx, nonempty (trim s) = true ∧
                           c = createChunk (trim s) hp idx md)
    (splitText this text md).
Proof.
  rewrite splitText_final. unfold split_final.
  assert (Hfold : ∀ ps st,
            Forall (λ c, ∃ s hp idx, nonempty (trim s) = true ∧
                                     c = createChunk (trim s) hp idx md)
              (chunks st) →
            Forall (λ c, ∃ s hp idx, nonempty (trim s) = true ∧
                                     c = createChunk (trim s) hp idx md)
              (chunks (fold_left (split_step this md) ps st))).
  { induction ps as [|p ps IH]; intros st Hst; [exact Hst|].
    cbn [fold_left]. apply IH, split_step_created, Hst. }
  specialize (Hfold (split_paragraphs text) split_init (Forall_nil_2 _)).
  destruct (nonempty (trim (currentChunk _))) eqn:Hcur; [|exact Hfold].
  cbn [flush chunks]. apply Forall_app. split; [exact Hfold|].
  constructor; [|constructor]. eauto.
Qed.

(** The pieces of [split(/\s+/)] from a state of the scan on: when the
    rest does not end in whitespace and the piece being collected is not
    about to be emitted empty, every piece is a word. *)
Lemma ws_split_words (s : jsstring) :
  ∀ (in_run : bool) (cur : jsstring),
  (∀ pre c, s = pre ++ [c] → is_space c = false) →
  (cur = [] → s ≠ [] ∧
              (in_run = false → ∃ c s', s = c :: s' ∧ is_space c = false)) →
  Forall (λ u, is_space u = false) cur →
  Forall (λ w, w ≠ [] ∧ Forall (λ u, is_space u = false) w)
    (ws_split_go in_run cur s) ∧
  concat (ws_split_go in_run cur s) = cur ++ ink s.
Proof.
  induction s as [|c s IH]; intros in_run cur Hend Hcur Hink.
  - cbn [ws_split_go concat]. split; [|reflexivity].
    constructor; [|constructor]. split; [|exact Hink].
    intros Hnil. destruct (Hcur Hnil) as [Hs _]. contradiction.
  - assert (Hend' : ∀ pre d, s = pre ++ [d] → is_space d = false).
    { intros pre d ->. apply (Hend (c :: pre) d). reflexivity. }
    cbn [ws_split_go]. unfold ink. cbn [List.filter]. fold (ink s).
    destruct (is_space c) eqn:Hc; cbn [negb].
    + assert (Hs : s ≠ []).
      { intros ->. specialize (Hend [] c eq_refl). congruence. }
      destruct in_run.
      * apply IH; [exact Hend'| |exact Hink].
        intros _. split; [exact Hs|discriminate].
      * destruct (IH true [] Hend') as [Hwords Hconcat];
          [intros _; split; [exact Hs|discriminate]|constructor|].
        split.
        -- constructor; [|exact Hwords]. split; [|exact Hink].
           intros Hnil. destruct (Hcur Hnil) as [_ Hhead].
           destruct (Hhead eq_refl) as (c' & s' & [= <- <-] & Hc'). congruence.
        -- cbn [concat]. rewrite Hconcat. reflexivity.
    + destruct (IH false (cur ++ [c]) Hend') as [Hwords Hconcat].
      * intros Hnil. apply app_eq_nil in Hnil as [_ Hnil]. discriminate.
      * apply Forall_app. split; [exact Hink|]. constructor; [exact Hc|constructor].
      * split; [exact Hwords|]. rewrite Hconcat, <- app_assoc. reflexivity.
Qed.

(** The words of a trimmed string that is not empty. *)
Lemma split_whitespace_trimmed (s : jsstring) :
  nonempty (trim s) = true →
  Forall (λ w, w ≠ [] ∧ Forall (λ u, is_space u = false) w)
    (split_whitespace (trim s)) ∧
  concat (split_whitespace (trim s)) = ink s.
Proof.
  intros Hne. destruct (trim_trimmed s) as [Hhead Htail].
  rewrite <- (ink_trim s).
  apply (ws_split_words (trim s) false []).
  - intros pre c Hs. rewrite Hs, rev_app_distr in Htail. cbn [rev app] in Htail.
    apply drop_spaces_head in Htail. exact Htail.
  - intros _. destruct (trim s) as [|c s'] eqn:Hs; [discriminate|].
    split; [discriminate|]. intros _. exists c, s'. split; [reflexivity|].
    apply drop_spaces_head in Hhead. exact Hhead.
  - constructor.
Qed.

(** X28. The [tokenCount] of every chunk of [splitText] is the number of
    words of its content: the pieces that [split(/\s+/)] counts are never
    empty and hold no whitespace, they are at least one, and together
    they are the non-whitespace of the content.  The chunk's type is what
    [detectChunkType] says of its content and its metadata is the object
    handed in. *)
Theorem splitText_token_counts (this : SimpleTextSplitter) (text : jsstring)
    (md : Metadata) :
  Forall (λ c,
            let words := split_whitespace (content c) in
            tokenCount c = length words ∧ (1 ≤ tokenCount c)%nat ∧
            Forall (λ w, w ≠ [] ∧ Forall (λ u, is_space u = false) w) words ∧
            concat words = ink (content c) ∧
            type c = detectChunkType (content c) ∧ metadata c = md)
    (splitText this text md).
Proof.
  eapply Forall_impl; [apply splitText_created|].
  intros c (s & hp & idx & Hne & ->).
  cbn [createChunk content tokenCount type metadata].
  destruct (split_whitespace_trimmed s Hne) as [Hwords Hconcat].
  split; [reflexivity|]. split.
  - destruct (split_whitespace (trim s)) as [|w ws] eqn:Hws; [|cbn [length]; lia].
    cbn [concat] in Hconcat. rewrite nonempty_trim, <- Hconcat in Hne. discriminate.
  - split; [exact Hwords|]. split; [|split; reflexivity].
    rewrite Hconcat, ink_trim. reflexivity.
Qed.

End ChunkObjects.

(** ** Mock embeddings: dimension *)

Section MockDimension.

Import Mock.

Variable Msin : float → float.

Lemma length_generateMockEmbedding (text : jsstring) :
  length (generateMockEmbedding Msin text) = dimension.
Proof.
  unfold generateMockEmbedding, raw_embedding.
  rewrite !length_map, length_seq. reflexivity.
Qed.

(** X29. The mock service answers every batch with one vector of 384
    numbers per text, in order, and [calculateSimilarity] accepts any two
    of its vectors: it never throws the dimension error on them. *)
Theorem mock_embeddings_dimension (texts : list jsstring) (a b : jsstring) :
  (∃ vs, generateEmbeddings Msin texts = inr vs ∧
         length vs = length texts ∧
         Forall (λ v, length v = 384%nat) vs ∧
         vs = map (generateMockEmbedding Msin) texts) ∧
  ∃ x, calculateSimilarity (generateMockEmbedding Msin a)
         (generateMockEmbedding Msin b) = inr x.
Proof.
  split.
  - eexists. split; [reflexivity|]. split; [apply length_map|].
    split; [|reflexivity]. apply Forall_forall. intros v Hv.
    apply list_elem_of_fmap in Hv as (t & -> & _).
    apply length_generateMockEmbedding.
  - unfold calculateSimilarity. rewrite !length_generateMockEmbedding.
    rewrite Nat.eqb_refl. cbn [negb]. cbn zeta.
    destruct (_ || _); eauto.
Qed.

End MockDimension.

(** ** Storage engine: stored chunks are found *)

Section SearchRoundTrip.

Import Db.

Variable E : Fts5.





End SearchRoundTrip.

